(** * Collision core of mujoco_warp: geometry views, contact parameters, contact commit

    Shallow embedding of [mujoco_warp/_src/collision_core.py]:
    [geom_collision_pair], [contact_params] and [write_contact].

    Conventions of the embedding.
    - Warp [int] is a 32-bit signed integer: values are in [Z]; the only
      arithmetic that can leave the range is the atomic increment of the
      contact counter, whose wrap-around is written out ([int32_add]).
      [%] is the C remainder ([Z.rem]); a row count of 0, for which C
      leaves [%] undefined, is outside the model.
    - Warp [float] values are exact rationals [Q]: comparisons, [wp.min],
      [wp.max] and [wp.where] select among their arguments, arithmetic is
      exact.  Rounding, infinities and NaN are outside the model.
    - A [wp.array] is a list.  Kernels do no bounds checking: a read outside
      the shape yields the type's zero value ([inhabitant]), a write outside
      the shape is dropped.
    - [wp.where] is a function: both alternatives are evaluated before the
      selection, which the total reads above make harmless. *)

From Stdlib Require Import ZArith QArith Bool List Lia Lqa Ascii.
From Stdlib Require String.
From stdpp Require Import base list strings.

Local Open Scope Z_scope.

(** ** Scalars *)

Definition Qltb (x y : Q) : bool := negb (Qle_bool y x).
Definition Qleb (x y : Q) : bool := Qle_bool x y.

(** [wp.where(cond, a, b)] *)
Definition wp_where {T : Type} (cond : bool) (a b : T) : T :=
  if cond then a else b.

(** [wp.max(a, b)] is [a > b ? a : b], [wp.min(a, b)] is [a < b ? a : b]. *)
Definition wp_max (a b : Q) : Q := if Qltb b a then a else b.
Definition wp_min (a b : Q) : Q := if Qltb a b then a else b.
Definition wp_max_int (a b : Z) : Z := if b <? a then a else b.

(** [int(active)] *)
Definition int_of_bool (b : bool) : Z := if b then 1 else 0.

Definition INT32_MAX : Z := 2 ^ 31 - 1.
Definition int32_wrap (z : Z) : Z := (z + 2 ^ 31) mod 2 ^ 32 - 2 ^ 31.
Definition int32_add (a b : Z) : Z := int32_wrap (a + b).

(** ** Vectors and matrices *)

Record vec2 : Type := Vec2 { vec2_0 : Q; vec2_1 : Q }.
Record vec3 : Type := Vec3 { vec3_0 : Q; vec3_1 : Q; vec3_2 : Q }.
Record vec5 : Type :=
  Vec5 { vec5_0 : Q; vec5_1 : Q; vec5_2 : Q; vec5_3 : Q; vec5_4 : Q }.
Record vec2i : Type := Vec2i { vec2i_0 : Z; vec2i_1 : Z }.
Record mat33 : Type := Mat33 { mat33_0 : vec3; mat33_1 : vec3; mat33_2 : vec3 }.
Record mat63 : Type :=
  Mat63 { mat63_0 : vec3; mat63_1 : vec3; mat63_2 : vec3;
          mat63_3 : vec3; mat63_4 : vec3; mat63_5 : vec3 }.

Definition vec3_zero : vec3 := Vec3 0 0 0.

#[global] Instance Q_inhabited : Inhabited Q := populate 0%Q.
#[global] Instance vec2_inhabited : Inhabited vec2 := populate (Vec2 0 0).
#[global] Instance vec3_inhabited : Inhabited vec3 := populate vec3_zero.
#[global] Instance vec5_inhabited : Inhabited vec5 := populate (Vec5 0 0 0 0 0).
#[global] Instance vec2i_inhabited : Inhabited vec2i := populate (Vec2i 0 0).
#[global] Instance mat33_inhabited : Inhabited mat33 :=
  populate (Mat33 vec3_zero vec3_zero vec3_zero).

(** scalar * vector and vector + vector, componentwise *)
Definition vec2_scale (s : Q) (v : vec2) : vec2 :=
  Vec2 (s * vec2_0 v) (s * vec2_1 v).
Definition vec2_add (a b : vec2) : vec2 :=
  Vec2 (vec2_0 a + vec2_0 b) (vec2_1 a + vec2_1 b).
Definition vec5_scale (s : Q) (v : vec5) : vec5 :=
  Vec5 (s * vec5_0 v) (s * vec5_1 v) (s * vec5_2 v) (s * vec5_3 v) (s * vec5_4 v).
Definition vec5_add (a b : vec5) : vec5 :=
  Vec5 (vec5_0 a + vec5_0 b) (vec5_1 a + vec5_1 b) (vec5_2 a + vec5_2 b)
       (vec5_3 a + vec5_3 b) (vec5_4 a + vec5_4 b).

(** [wp.max] on vec3 and [wp.min] on vec2 are componentwise *)
Definition vec3_max (a b : vec3) : vec3 :=
  Vec3 (wp_max (vec3_0 a) (vec3_0 b)) (wp_max (vec3_1 a) (vec3_1 b))
       (wp_max (vec3_2 a) (vec3_2 b)).
Definition vec2_min (a b : vec2) : vec2 :=
  Vec2 (wp_min (vec2_0 a) (vec2_0 b)) (wp_min (vec2_1 a) (vec2_1 b)).

(** Componentwise equality of the components as numbers. *)
Definition vec2_eq (a b : vec2) : Prop :=
  (vec2_0 a == vec2_0 b)%Q /\ (vec2_1 a == vec2_1 b)%Q.
Definition vec3_eq (a b : vec3) : Prop :=
  (vec3_0 a == vec3_0 b)%Q /\ (vec3_1 a == vec3_1 b)%Q /\ (vec3_2 a == vec3_2 b)%Q.
Definition vec5_eq (a b : vec5) : Prop :=
  (vec5_0 a == vec5_0 b)%Q /\ (vec5_1 a == vec5_1 b)%Q /\ (vec5_2 a == vec5_2 b)%Q /\
  (vec5_3 a == vec5_3 b)%Q /\ (vec5_4 a == vec5_4 b)%Q.

(** ** Arrays *)

(** [a[i]] *)
Definition aget {T : Type} `{Inhabited T} (a : list T) (i : Z) : T :=
  if 0 <=? i then a !!! Z.to_nat i else inhabitant.

(** [a[r, c]] *)
Definition aget2 {T : Type} `{Inhabited T} (a : list (list T)) (r c : Z) : T :=
  aget (aget a r) c.

(** [a[i] = v] *)
Definition aset {T : Type} (a : list T) (i : Z) (v : T) : list T :=
  if 0 <=? i then <[Z.to_nat i := v]> a else a.

(** [a.shape[0]] *)
Definition shape0 {T : Type} (a : list T) : Z := Z.of_nat (length a).

(** ** The Geom struct *)

Module Geom.

Record t : Type := mk {
  pos : vec3;
  rot : mat33;
  normal : vec3;
  size : vec3;
  margin : Q;
  hfprism : mat63;
  vertadr : Z;
  vertnum : Z;
  vert : list vec3;
  graphadr : Z;
  graph : list Z;
  mesh_polynum : Z;
  mesh_polyadr : Z;
  mesh_polynormal : list vec3;
  mesh_polyvertadr : list Z;
  mesh_polyvertnum : list Z;
  mesh_polyvert : list Z;
  mesh_polymapadr : list Z;
  mesh_polymapnum : list Z;
  mesh_polymap : list Z;
  index : Z
}.

(** [Geom()]: a Warp struct is zero-initialised, its array members are empty. *)
Definition new : t :=
  {| pos := vec3_zero;
     rot := (Mat33 vec3_zero vec3_zero vec3_zero);
     normal := vec3_zero;
     size := vec3_zero;
     margin := 0%Q;
     hfprism := (Mat63 vec3_zero vec3_zero vec3_zero vec3_zero vec3_zero vec3_zero);
     vertadr := 0;
     vertnum := 0;
     vert := [];
     graphadr := 0;
     graph := [];
     mesh_polynum := 0;
     mesh_polyadr := 0;
     mesh_polynormal := [];
     mesh_polyvertadr := [];
     mesh_polyvertnum := [];
     mesh_polyvert := [];
     mesh_polymapadr := [];
     mesh_polymapnum := [];
     mesh_polymap := [];
     index := 0 |}.

(** Field assignments [geom.f = v]: every other field is kept. *)
Definition set_pos (v : vec3) (g : t) : t :=
  let '(mk _ x2 x3 x4 x5 x6 x7 x8 x9 x10 x11 x12 x13 x14 x15 x16 x17 x18 x19
    x20 x21) := g in mk v x2 x3 x4 x5 x6 x7 x8 x9 x10 x11 x12 x13 x14 x15
    x16 x17 x18 x19 x20 x21.
Definition set_rot (v : mat33) (g : t) : t :=
  let '(mk x1 _ x3 x4 x5 x6 x7 x8 x9 x10 x11 x12 x13 x14 x15 x16 x17 x18 x19
    x20 x21) := g in mk x1 v x3 x4 x5 x6 x7 x8 x9 x10 x11 x12 x13 x14 x15
    x16 x17 x18 x19 x20 x21.
Definition set_normal (v : vec3) (g : t) : t :=
  let '(mk x1 x2 _ x4 x5 x6 x7 x8 x9 x10 x11 x12 x13 x14 x15 x16 x17 x18 x19
    x20 x21) := g in mk x1 x2 v x4 x5 x6 x7 x8 x9 x10 x11 x12 x13 x14 x15
    x16 x17 x18 x19 x20 x21.
Definition set_size (v : vec3) (g : t) : t :=
  let '(mk x1 x2 x3 _ x5 x6 x7 x8 x9 x10 x11 x12 x13 x14 x15 x16 x17 x18 x19
    x20 x21) := g in mk x1 x2 x3 v x5 x6 x7 x8 x9 x10 x11 x12 x13 x14 x15
    x16 x17 x18 x19 x20 x21.
Definition set_margin (v : Q) (g : t) : t :=
  let '(mk x1 x2 x3 x4 _ x6 x7 x8 x9 x10 x11 x12 x13 x14 x15 x16 x17 x18 x19
    x20 x21) := g in mk x1 x2 x3 x4 v x6 x7 x8 x9 x10 x11 x12 x13 x14 x15
    x16 x17 x18 x19 x20 x21.
Definition set_vertadr (v : Z) (g : t) : t :=
  let '(mk x1 x2 x3 x4 x5 x6 _ x8 x9 x10 x11 x12 x13 x14 x15 x16 x17 x18 x19
    x20 x21) := g in mk x1 x2 x3 x4 x5 x6 v x8 x9 x10 x11 x12 x13 x14 x15
    x16 x17 x18 x19 x20 x21.
Definition set_vertnum (v : Z) (g : t) : t :=
  let '(mk x1 x2 x3 x4 x5 x6 x7 _ x9 x10 x11 x12 x13 x14 x15 x16 x17 x18 x19
    x20 x21) := g in mk x1 x2 x3 x4 x5 x6 x7 v x9 x10 x11 x12 x13 x14 x15
    x16 x17 x18 x19 x20 x21.
Definition set_vert (v : list vec3) (g : t) : t :=
  let '(mk x1 x2 x3 x4 x5 x6 x7 x8 _ x10 x11 x12 x13 x14 x15 x16 x17 x18 x19
    x20 x21) := g in mk x1 x2 x3 x4 x5 x6 x7 x8 v x10 x11 x12 x13 x14 x15
    x16 x17 x18 x19 x20 x21.
Definition set_graphadr (v : Z) (g : t) : t :=
  let '(mk x1 x2 x3 x4 x5 x6 x7 x8 x9 _ x11 x12 x13 x14 x15 x16 x17 x18 x19
    x20 x21) := g in mk x1 x2 x3 x4 x5 x6 x7 x8 x9 v x11 x12 x13 x14 x15 x16
    x17 x18 x19 x20 x21.
Definition set_graph (v : list Z) (g : t) : t :=
  let '(mk x1 x2 x3 x4 x5 x6 x7 x8 x9 x10 _ x12 x13 x14 x15 x16 x17 x18 x19
    x20 x21) := g in mk x1 x2 x3 x4 x5 x6 x7 x8 x9 x10 v x12 x13 x14 x15 x16
    x17 x18 x19 x20 x21.
Definition set_mesh_polynum (v : Z) (g : t) : t :=
  let '(mk x1 x2 x3 x4 x5 x6 x7 x8 x9 x10 x11 _ x13 x14 x15 x16 x17 x18 x19
    x20 x21) := g in mk x1 x2 x3 x4 x5 x6 x7 x8 x9 x10 x11 v x13 x14 x15 x16
    x17 x18 x19 x20 x21.
Definition set_mesh_polyadr (v : Z) (g : t) : t :=
  let '(mk x1 x2 x3 x4 x5 x6 x7 x8 x9 x10 x11 x12 _ x14 x15 x16 x17 x18 x19
    x20 x21) := g in mk x1 x2 x3 x4 x5 x6 x7 x8 x9 x10 x11 x12 v x14 x15 x16
    x17 x18 x19 x20 x21.
Definition set_mesh_polynormal (v : list vec3) (g : t) : t :=
  let '(mk x1 x2 x3 x4 x5 x6 x7 x8 x9 x10 x11 x12 x13 _ x15 x16 x17 x18 x19
    x20 x21) := g in mk x1 x2 x3 x4 x5 x6 x7 x8 x9 x10 x11 x12 x13 v x15 x16
    x17 x18 x19 x20 x21.
Definition set_mesh_polyvertadr (v : list Z) (g : t) : t :=
  let '(mk x1 x2 x3 x4 x5 x6 x7 x8 x9 x10 x11 x12 x13 x14 _ x16 x17 x18 x19
    x20 x21) := g in mk x1 x2 x3 x4 x5 x6 x7 x8 x9 x10 x11 x12 x13 x14 v x16
    x17 x18 x19 x20 x21.
Definition set_mesh_polyvertnum (v : list Z) (g : t) : t :=
  let '(mk x1 x2 x3 x4 x5 x6 x7 x8 x9 x10 x11 x12 x13 x14 x15 _ x17 x18 x19
    x20 x21) := g in mk x1 x2 x3 x4 x5 x6 x7 x8 x9 x10 x11 x12 x13 x14 x15 v
    x17 x18 x19 x20 x21.
Definition set_mesh_polyvert (v : list Z) (g : t) : t :=
  let '(mk x1 x2 x3 x4 x5 x6 x7 x8 x9 x10 x11 x12 x13 x14 x15 x16 _ x18 x19
    x20 x21) := g in mk x1 x2 x3 x4 x5 x6 x7 x8 x9 x10 x11 x12 x13 x14 x15
    x16 v x18 x19 x20 x21.
Definition set_mesh_polymapadr (v : list Z) (g : t) : t :=
  let '(mk x1 x2 x3 x4 x5 x6 x7 x8 x9 x10 x11 x12 x13 x14 x15 x16 x17 _ x19
    x20 x21) := g in mk x1 x2 x3 x4 x5 x6 x7 x8 x9 x10 x11 x12 x13 x14 x15
    x16 x17 v x19 x20 x21.
Definition set_mesh_polymapnum (v : list Z) (g : t) : t :=
  let '(mk x1 x2 x3 x4 x5 x6 x7 x8 x9 x10 x11 x12 x13 x14 x15 x16 x17 x18 _
    x20 x21) := g in mk x1 x2 x3 x4 x5 x6 x7 x8 x9 x10 x11 x12 x13 x14 x15
    x16 x17 x18 v x20 x21.
Definition set_mesh_polymap (v : list Z) (g : t) : t :=
  let '(mk x1 x2 x3 x4 x5 x6 x7 x8 x9 x10 x11 x12 x13 x14 x15 x16 x17 x18
    x19 _ x21) := g in mk x1 x2 x3 x4 x5 x6 x7 x8 x9 x10 x11 x12 x13 x14 x15
    x16 x17 x18 x19 v x21.
Definition set_index (v : Z) (g : t) : t :=
  let '(mk x1 x2 x3 x4 x5 x6 x7 x8 x9 x10 x11 x12 x13 x14 x15 x16 x17 x18
    x19 x20 _) := g in mk x1 x2 x3 x4 x5 x6 x7 x8 x9 x10 x11 x12 x13 x14 x15
    x16 x17 x18 x19 x20 v.

End Geom.

(** ** The contact output arrays *)

(** The [Data out] arguments of [write_contact].  [nacon_out] is an array
    of one element of which only element 0 is used: it is kept as that
    element. *)
Record ContactOut : Type := mkContactOut {
  contact_dist_out : list Q;
  contact_pos_out : list vec3;
  contact_frame_out : list mat33;
  contact_includemargin_out : list Q;
  contact_friction_out : list vec5;
  contact_solref_out : list vec2;
  contact_solreffriction_out : list vec2;
  contact_solimp_out : list vec5;
  contact_dim_out : list Z;
  contact_geom_out : list vec2i;
  contact_worldid_out : list Z;
  contact_type_out : list Z;
  contact_geomcollisionid_out : list Z;
  nacon_out : Z
}.

(** The [In] arguments of one [write_contact] call. *)
Record ContactIn : Type := mkContactIn {
  id_ : Z;
  dist_in : Q;
  pos_in : vec3;
  frame_in : mat33;
  margin_in : Q;
  gap_in : Q;
  condim_in : Z;
  friction_in : vec5;
  solref_in : vec2;
  solreffriction_in : vec2;
  solimp_in : vec5;
  geoms_in : vec2i;
  pairid_in : vec2i;
  worldid_in : Z
}.

(** One slot of the contact arrays, read across all thirteen of them. *)
Record ContactRecord : Type := mkContactRecord {
  r_dist : Q;
  r_pos : vec3;
  r_frame : mat33;
  r_includemargin : Q;
  r_friction : vec5;
  r_solref : vec2;
  r_solreffriction : vec2;
  r_solimp : vec5;
  r_dim : Z;
  r_geom : vec2i;
  r_worldid : Z;
  r_type : Z;
  r_geomcollisionid : Z
}.

Definition record_at (out : ContactOut) (i : Z) : ContactRecord :=
  {| r_dist := aget (contact_dist_out out) i;
     r_pos := aget (contact_pos_out out) i;
     r_frame := aget (contact_frame_out out) i;
     r_includemargin := aget (contact_includemargin_out out) i;
     r_friction := aget (contact_friction_out out) i;
     r_solref := aget (contact_solref_out out) i;
     r_solreffriction := aget (contact_solreffriction_out out) i;
     r_solimp := aget (contact_solimp_out out) i;
     r_dim := aget (contact_dim_out out) i;
     r_geom := aget (contact_geom_out out) i;
     r_worldid := aget (contact_worldid_out out) i;
     r_type := aget (contact_type_out out) i;
     r_geomcollisionid := aget (contact_geomcollisionid_out out) i |}.

(** Every contact array has room for [n] records. *)
Definition contact_capacity (n : Z) (out : ContactOut) : Prop :=
  n <= shape0 (contact_dist_out out) /\
  n <= shape0 (contact_pos_out out) /\
  n <= shape0 (contact_frame_out out) /\
  n <= shape0 (contact_includemargin_out out) /\
  n <= shape0 (contact_friction_out out) /\
  n <= shape0 (contact_solref_out out) /\
  n <= shape0 (contact_solreffriction_out out) /\
  n <= shape0 (contact_solimp_out out) /\
  n <= shape0 (contact_dim_out out) /\
  n <= shape0 (contact_geom_out out) /\
  n <= shape0 (contact_worldid_out out) /\
  n <= shape0 (contact_type_out out) /\
  n <= shape0 (contact_geomcollisionid_out out).

(** The thirteen contact arrays, without the counter. *)
Definition contact_arrays (out : ContactOut) :=
  (contact_dist_out out, contact_pos_out out, contact_frame_out out,
   contact_includemargin_out out, contact_friction_out out,
   contact_solref_out out, contact_solreffriction_out out,
   contact_solimp_out out, contact_dim_out out, contact_geom_out out,
   contact_worldid_out out, contact_type_out out,
   contact_geomcollisionid_out out).


(** A bit flag [f] is set in [x]. *)
Definition flag_set (f x : Z) : Prop := Z.land x f = f.

(** Components of the tuple returned by [contact_params]. *)
Definition ret_geoms (r : vec2i * Q * Q * Z * vec5 * vec2 * vec2 * vec5) : vec2i :=
  let '(geoms, _, _, _, _, _, _, _) := r in geoms.
Definition ret_margin (r : vec2i * Q * Q * Z * vec5 * vec2 * vec2 * vec5) : Q :=
  let '(_, margin, _, _, _, _, _, _) := r in margin.
Definition ret_gap (r : vec2i * Q * Q * Z * vec5 * vec2 * vec2 * vec5) : Q :=
  let '(_, _, gap, _, _, _, _, _) := r in gap.
Definition ret_condim (r : vec2i * Q * Q * Z * vec5 * vec2 * vec2 * vec5) : Z :=
  let '(_, _, _, condim, _, _, _, _) := r in condim.
Definition ret_friction (r : vec2i * Q * Q * Z * vec5 * vec2 * vec2 * vec5) : vec5 :=
  let '(_, _, _, _, friction, _, _, _) := r in friction.
Definition ret_solref (r : vec2i * Q * Q * Z * vec5 * vec2 * vec2 * vec5) : vec2 :=
  let '(_, _, _, _, _, solref, _, _) := r in solref.
Definition ret_solreffriction (r : vec2i * Q * Q * Z * vec5 * vec2 * vec2 * vec5) : vec2 :=
  let '(_, _, _, _, _, _, solreffriction, _) := r in solreffriction.
Definition ret_solimp (r : vec2i * Q * Q * Z * vec5 * vec2 * vec2 * vec5) : vec5 :=
  let '(_, _, _, _, _, _, _, solimp) := r in solimp.


(** The five mesh address and count fields of a view. *)
Definition mesh_fields (g : Geom.t) : Z * Z * Z * Z * Z :=
  (Geom.vertadr g, Geom.vertnum g, Geom.graphadr g, Geom.mesh_polynum g,
   Geom.mesh_polyadr g).

(** A friction triple (sliding, torsional, rolling) on the five axes:
    sliding twice, torsional once, rolling twice. *)
Definition expand_friction (f : vec3) : vec5 :=
  Vec5 (vec3_0 f) (vec3_0 f) (vec3_1 f) (vec3_2 f) (vec3_2 f).

(** [m] is the larger (smaller) of [a] and [b]. *)
Definition is_max (a b m : Q) : Prop :=
  (a <= m)%Q /\ (b <= m)%Q /\ (m = a \/ m = b).
Definition is_min (a b m : Q) : Prop :=
  (m <= a)%Q /\ (m <= b)%Q /\ (m = a \/ m = b).

(** * Package version checking ([mujoco_warp/_src/util_pkg.py])

    A Python [str] is a list of characters of code points 0 to 255
    ([ascii]); strings with other code points are outside the model.
    CPython refuses a digit string of more than 4300 digits with
    [ValueError], unless the limit is changed with
    [sys.set_int_max_str_digits]; [int] below has no such limit: it is the
    conversion of an interpreter with the limit switched off, and it agrees
    with the default one on strings of at most [int_max_str_digits] digits.
    A raised exception is a value [Raise e]. *)

Module util_pkg.

Inductive error : Type := ValueError | PackageNotFoundError.

Inductive result (T : Type) : Type :=
  | Ok (v : T)
  | Raise (e : error).
Arguments Ok {T} v.
Arguments Raise {T} e.

(** One element of a parsed version: [(0, n)] or [(1, s)]. *)
Inductive component : Type :=
  | Num (n : N)
  | Str (s : list ascii).

Definition code (c : ascii) : N := N_of_ascii c.

Definition str (s : string) : list ascii := String.list_ascii_of_string s.

(** The characters of the class [[.\-]]. *)
Definition is_sep (c : ascii) : bool :=
  (code c =? code ".")%N || (code c =? code "-")%N.

(** [re.split(r"[.\-]", s)]: the pieces between separators, empty pieces
    included; never the empty list. *)
Fixpoint re_split (s : list ascii) : list (list ascii) :=
  match s with
  | [] => [[]]
  | c :: s' =>
      if is_sep c then [] :: re_split s'
      else match re_split s' with
           | p :: ps => (c :: p) :: ps
           | [] => [[c]]
           end
  end.

(** The decimal digits 0 to 9. *)
Definition ascii_digit (c : ascii) : bool :=
  (48 <=? code c)%N && (code c <=? 57)%N.

(** [c.isdigit()]: the decimal digits and, among the code points up to
    255, the superscript digits two, three and one. *)
Definition char_isdigit (c : ascii) : bool :=
  ascii_digit c || (code c =? 178)%N || (code c =? 179)%N || (code c =? 185)%N.

(** [p.isdigit()]: false for the empty string. *)
Definition isdigit (p : list ascii) : bool :=
  match p with
  | [] => false
  | _ :: _ => forallb char_isdigit p
  end.

(** The default of [sys.get_int_max_str_digits()]. *)
Definition int_max_str_digits : nat := 4300.

(** [int(p)] for a string without sign or spaces: the value of the decimal
    digits; a superscript digit is refused with [ValueError]. *)
Fixpoint int_digits (acc : N) (p : list ascii) : option N :=
  match p with
  | [] => Some acc
  | c :: p' =>
      if ascii_digit c then int_digits (10 * acc + (code c - 48))%N p' else None
  end.

Definition int (p : list ascii) : result N :=
  match p with
  | [] => Raise ValueError
  | _ :: _ =>
      match int_digits 0%N p with
      | Some n => Ok n
      | None => Raise ValueError
      end
  end.

(** [(0, int(p)) if p.isdigit() else (1, p)] *)
Definition parse_part (p : list ascii) : result component :=
  if isdigit p then
    match int p with
    | Ok n => Ok (Num n)
    | Raise e => Raise e
    end
  else Ok (Str p).

(** The list comprehension, left to right. *)
Fixpoint parse_parts (parts : list (list ascii)) : result (list component) :=
  match parts with
  | [] => Ok []
  | p :: parts' =>
      match parse_part p with
      | Raise e => Raise e
      | Ok x =>
          match parse_parts parts' with
          | Raise e => Raise e
          | Ok xs => Ok (x :: xs)
          end
      end
  end.

Definition _parse_version (version_str : list ascii) : result (list component) :=
  let parts := re_split version_str in
  parse_parts parts.

(** ** Comparison of sequences, as Python compares strings and tuples:
    the first position where the elements differ decides, and a proper
    prefix is smaller. *)
Fixpoint seq_compare {A : Type} (cmp : A -> A -> comparison) (a b : list A)
  : comparison :=
  match a, b with
  | [], [] => Eq
  | [], _ :: _ => Lt
  | _ :: _, [] => Gt
  | x :: a', y :: b' =>
      match cmp x y with
      | Eq => seq_compare cmp a' b'
      | r => r
      end
  end.

Definition char_compare (c d : ascii) : comparison := (code c ?= code d)%N.
Definition str_compare : list ascii -> list ascii -> comparison :=
  seq_compare char_compare.

(** Comparison of the pairs [(0, n)] and [(1, s)]: the tag first. *)
Definition component_compare (x y : component) : comparison :=
  match x, y with
  | Num a, Num b => (a ?= b)%N
  | Num _, Str _ => Lt
  | Str _, Num _ => Gt
  | Str s, Str t => str_compare s t
  end.

Definition version_compare : list component -> list component -> comparison :=
  seq_compare component_compare.

(** ** The operators *)

Inductive op : Type := GE | LE | GT | LT | EQ | NE.

(** The alternation [(>=|<=|>|<|==|!=)], in its order. *)
Definition op_literals : list (op * list ascii) :=
  [(GE, str ">="); (LE, str "<="); (GT, str ">"); (LT, str "<");
   (EQ, str "=="); (NE, str "!=")].

Definition op_literal (o : op) : list ascii :=
  match o with
  | GE => str ">=" | LE => str "<=" | GT => str ">" | LT => str "<"
  | EQ => str "==" | NE => str "!="
  end.

(** [ops[op](installed_version, required_version)] *)
Definition apply_op (o : op) (installed required : list component) : bool :=
  match o, version_compare installed required with
  | GE, Lt => false
  | GE, _ => true
  | LE, Gt => false
  | LE, _ => true
  | GT, Gt => true
  | GT, _ => false
  | LT, Lt => true
  | LT, _ => false
  | EQ, Eq => true
  | EQ, _ => false
  | NE, Eq => false
  | NE, _ => true
  end.

(** ** The regular expression of [check_version]

    [^([a-zA-Z0-9_\-]+)(>=|<=|>|<|==|!=)(.+)$], matched with backtracking.
    No operator starts with a character of the first class, so the first
    group can only be the longest prefix of such characters. *)

Definition is_name_char (c : ascii) : bool :=
  ((97 <=? code c)%N && (code c <=? 122)%N)
  || ((65 <=? code c)%N && (code c <=? 90)%N)
  || ascii_digit c
  || (code c =? code "_")%N || (code c =? code "-")%N.

Definition is_newline (c : ascii) : bool := (code c =? 10)%N.

(** The longest prefix of [s] whose characters satisfy [f], and the rest. *)
Fixpoint span (f : ascii -> bool) (s : list ascii) : list ascii * list ascii :=
  match s with
  | [] => ([], [])
  | c :: s' =>
      if f c then let (a, b) := span f s' in (c :: a, b) else ([], s)
  end.

(** [s] with the prefix [p] removed, if it starts with [p]. *)
Fixpoint strip_prefix (p s : list ascii) : option (list ascii) :=
  match p, s with
  | [], _ => Some s
  | _ :: _, [] => None
  | c :: p', d :: s' =>
      if (code c =? code d)%N then strip_prefix p' s' else None
  end.

(** [(.+)$]: [.] matches any character but a newline, [$] matches at the end
    of the string and before a newline that ends the string. *)
Definition match_version (rest : list ascii) : option (list ascii) :=
  let (body, tail) := span (fun c => negb (is_newline c)) rest in
  match body with
  | [] => None
  | _ :: _ =>
      match tail with
      | [] => Some body
      | [_] => Some body
      | _ :: _ :: _ => None
      end
  end.

(** The alternatives in order: the first whose literal is there and after
    which [(.+)$] matches. *)
Fixpoint match_op (literals : list (op * list ascii)) (rest : list ascii)
  : option (op * list ascii) :=
  match literals with
  | [] => None
  | (o, literal) :: literals' =>
      match strip_prefix literal rest with
      | Some r =>
          match match_version r with
          | Some v => Some (o, v)
          | None => match_op literals' rest
          end
      | None => match_op literals' rest
      end
  end.

(** [re.match(...)] and [match.groups()] *)
Definition match_spec (spec : list ascii)
  : option (list ascii * op * list ascii) :=
  let (package_name, rest) := span is_name_char spec in
  match package_name with
  | [] => None
  | _ :: _ =>
      match match_op op_literals rest with
      | Some (o, version_str) => Some (package_name, o, version_str)
      | None => None
      end
  end.

(** [check_version].  [metadata_version] stands for
    [importlib.metadata.version]: the version string of an installed
    package, [None] when it raises [PackageNotFoundError]. *)
Definition check_version (metadata_version : list ascii -> option (list ascii))
  (spec : list ascii) : result bool :=
  match match_spec spec with
  | None => Raise ValueError
  | Some (package_name, o, version_str) =>
      match _parse_version version_str with
      | Raise e => Raise e
      | Ok required_version =>
          match metadata_version package_name with
          | None => Raise PackageNotFoundError
          | Some installed =>
              match _parse_version installed with
              | Raise e => Raise e
              | Ok installed_version =>
                  Ok (apply_op o installed_version required_version)
              end
          end
      end
  end.

(** The characters below 128. *)
Definition is_ascii (c : ascii) : bool := (code c <? 128)%N.

(** The number of separators of a string. *)
Definition count_sep (s : list ascii) : nat := length (List.filter is_sep s).

(** [-] replaced by [.]. *)
Definition dash_to_dot (c : ascii) : ascii :=
  if (code c =? code "-")%N then "."%char else c.

End util_pkg.


(** * Passive forces ([mujoco_warp/_src/passive.py])

    The fields of [Model] and [Data] that [passive] uses.  A kernel launch
    over [(n1, n2)] runs one thread per pair of indices; the threads are
    taken here in row-major order.  [JointType], [DisableBit] and
    [math.quat_sub] are not in the file: they are parameters. *)

Module Passive.

Record quat : Type := Quat { quat_0 : Q; quat_1 : Q; quat_2 : Q; quat_3 : Q }.

Record Model : Type := mkModel {
  nworld : Z;
  njnt : Z;
  nv : Z;
  opt_disableflags : Z;
  jnt_stiffness : list (list Q);
  jnt_dofadr : list Z;
  jnt_type : list Z;
  jnt_qposadr : list Z;
  qpos_spring : list (list Q);
  dof_damping : list (list Q)
}.

Record Data : Type := mkData {
  qpos : list (list Q);
  qvel : list (list Q);
  qfrc_spring : list (list Q);
  qfrc_damper : list (list Q);
  qfrc_passive : list (list Q)
}.

(** [a[r, c] = v] *)
Definition aset2 {T : Type} `{Inhabited T} (a : list (list T)) (r c : Z) (v : T)
  : list (list T) :=
  aset a r (aset (aget a r) c v).

(** [a.zero_()] *)
Definition zero_ (a : list (list Q)) : list (list Q) :=
  map (map (fun _ => 0%Q)) a.

Definition set_qfrc_spring (v : list (list Q)) (d : Data) : Data :=
  mkData (qpos d) (qvel d) v (qfrc_damper d) (qfrc_passive d).
Definition set_qfrc_damper (v : list (list Q)) (d : Data) : Data :=
  mkData (qpos d) (qvel d) (qfrc_spring d) v (qfrc_passive d).
Definition set_qfrc_passive (v : list (list Q)) (d : Data) : Data :=
  mkData (qpos d) (qvel d) (qfrc_spring d) (qfrc_damper d) v.

(** [wp.launch(kernel, dim=(n1, n2), ...)] *)
Definition launch (n1 n2 : Z) (kernel : Z -> Z -> Data -> Data) (d : Data) : Data :=
  foldl (fun d i => foldl (fun d j => kernel i j d) d (seqZ 0 n2)) d (seqZ 0 n1).

Section Kernels.

Variable JointType_FREE : Z.
Variable JointType_BALL : Z.
Variable DisableBit_PASSIVE : Z.
Variable quat_sub : quat -> quat -> vec3.

Definition _spring (m : Model) (worldid jntid : Z) (d : Data) : Data :=
  let stiffness := aget2 (jnt_stiffness m) worldid jntid in
  let dofid := aget (jnt_dofadr m) jntid in
  if Qeq_bool stiffness 0 then d
  else
    let jnt_type := aget (jnt_type m) jntid in
    let qposid := aget (jnt_qposadr m) jntid in
    if jnt_type =? JointType_FREE then
      let dif :=
        Vec3 (aget2 (qpos d) worldid (qposid + 0) - aget2 (qpos_spring m) worldid (qposid + 0))
             (aget2 (qpos d) worldid (qposid + 1) - aget2 (qpos_spring m) worldid (qposid + 1))
             (aget2 (qpos d) worldid (qposid + 2) - aget2 (qpos_spring m) worldid (qposid + 2)) in
      let d := set_qfrc_spring
        (aset2 (qfrc_spring d) worldid (dofid + 0) (- stiffness * vec3_0 dif)%Q) d in
      let d := set_qfrc_spring
        (aset2 (qfrc_spring d) worldid (dofid + 1) (- stiffness * vec3_1 dif)%Q) d in
      let d := set_qfrc_spring
        (aset2 (qfrc_spring d) worldid (dofid + 2) (- stiffness * vec3_2 dif)%Q) d in
      let rot :=
        Quat (aget2 (qpos d) worldid (qposid + 3)) (aget2 (qpos d) worldid (qposid + 4))
             (aget2 (qpos d) worldid (qposid + 5)) (aget2 (qpos d) worldid (qposid + 6)) in
      let ref :=
        Quat (aget2 (qpos_spring m) worldid (qposid + 3))
             (aget2 (qpos_spring m) worldid (qposid + 4))
             (aget2 (qpos_spring m) worldid (qposid + 5))
             (aget2 (qpos_spring m) worldid (qposid + 6)) in
      let dif := quat_sub rot ref in
      let d := set_qfrc_spring
        (aset2 (qfrc_spring d) worldid (dofid + 3) (- stiffness * vec3_0 dif)%Q) d in
      let d := set_qfrc_spring
        (aset2 (qfrc_spring d) worldid (dofid + 4) (- stiffness * vec3_1 dif)%Q) d in
      let d := set_qfrc_spring
        (aset2 (qfrc_spring d) worldid (dofid + 5) (- stiffness * vec3_2 dif)%Q) d in
      d
    else if jnt_type =? JointType_BALL then
      let rot :=
        Quat (aget2 (qpos d) worldid (qposid + 0)) (aget2 (qpos d) worldid (qposid + 1))
             (aget2 (qpos d) worldid (qposid + 2)) (aget2 (qpos d) worldid (qposid + 3)) in
      let ref :=
        Quat (aget2 (qpos_spring m) worldid (qposid + 0))
             (aget2 (qpos_spring m) worldid (qposid + 1))
             (aget2 (qpos_spring m) worldid (qposid + 2))
             (aget2 (qpos_spring m) worldid (qposid + 3)) in
      let dif := quat_sub rot ref in
      let d := set_qfrc_spring
        (aset2 (qfrc_spring d) worldid (dofid + 0) (- stiffness * vec3_0 dif)%Q) d in
      let d := set_qfrc_spring
        (aset2 (qfrc_spring d) worldid (dofid + 1) (- stiffness * vec3_1 dif)%Q) d in
      let d := set_qfrc_spring
        (aset2 (qfrc_spring d) worldid (dofid + 2) (- stiffness * vec3_2 dif)%Q) d in
      d
    else
      let fdif :=
        (aget2 (qpos d) worldid qposid - aget2 (qpos_spring m) worldid qposid)%Q in
      set_qfrc_spring (aset2 (qfrc_spring d) worldid dofid (- stiffness * fdif)%Q) d.

(** The columns of [qfrc_spring] that thread [(worldid, jntid)] of [_spring]
    assigns in row [worldid]. *)
Definition spring_dofs (m : Model) (worldid jntid : Z) : list Z :=
  let dofid := aget (jnt_dofadr m) jntid in
  if Qeq_bool (aget2 (jnt_stiffness m) worldid jntid) 0 then []
  else if aget (jnt_type m) jntid =? JointType_FREE then
    [dofid + 0; dofid + 1; dofid + 2; dofid + 3; dofid + 4; dofid + 5]
  else if aget (jnt_type m) jntid =? JointType_BALL then
    [dofid + 0; dofid + 1; dofid + 2]
  else [dofid].

Definition _damper_passive (m : Model) (worldid dofid : Z) (d : Data) : Data :=
  let damping := aget2 (dof_damping m) worldid dofid in
  let qfrc_damper := (- damping * aget2 (qvel d) worldid dofid)%Q in
  let d := set_qfrc_damper (aset2 (Passive.qfrc_damper d) worldid dofid qfrc_damper) d in
  let d := set_qfrc_passive
    (aset2 (qfrc_passive d) worldid dofid
       (qfrc_damper + aget2 (qfrc_spring d) worldid dofid)%Q) d in
  d.

Definition passive (m : Model) (d : Data) : Data :=
  if negb (Z.land (opt_disableflags m) DisableBit_PASSIVE =? 0) then
    set_qfrc_passive (zero_ (qfrc_passive d)) d
  else
    let d := set_qfrc_spring (zero_ (qfrc_spring d)) d in
    let d := launch (nworld m) (njnt m) (_spring m) d in
    let d := launch (nworld m) (nv m) (_damper_passive m) d in
    d.

End Kernels.

(** Every row [0 .. n1 - 1] of [a] exists and has at least [n2] columns. *)
Definition has_shape {T : Type} `{Inhabited T} (n1 n2 : Z) (a : list (list T)) : Prop :=
  n1 <= shape0 a /\ forall r, 0 <= r < n1 -> n2 <= shape0 (aget a r).

(** Every joint of every world has stiffness 0. *)
Definition no_springs (m : Model) : Prop :=
  forall worldid jntid,
    0 <= worldid < nworld m -> 0 <= jntid < njnt m ->
    (aget2 (jnt_stiffness m) worldid jntid == 0)%Q.

(** Cell [(r, c)] of [a] exists. *)
Definition in_range {T : Type} `{Inhabited T} (a : list (list T)) (r c : Z) : Prop :=
  0 <= r < shape0 a /\ 0 <= c < shape0 (aget a r).

(** Every cell that [_damper_passive] assigns already holds what the
    kernel would write. *)
Definition settled (m : Model) (d : Data) : Prop :=
  forall worldid dofid, 0 <= worldid < nworld m -> 0 <= dofid < nv m ->
    (in_range (qfrc_damper d) worldid dofid ->
     aget2 (qfrc_damper d) worldid dofid =
     (- aget2 (dof_damping m) worldid dofid * aget2 (qvel d) worldid dofid)%Q) /\
    (in_range (qfrc_passive d) worldid dofid ->
     aget2 (qfrc_passive d) worldid dofid =
     (- aget2 (dof_damping m) worldid dofid * aget2 (qvel d) worldid dofid +
      aget2 (qfrc_spring d) worldid dofid)%Q).

End Passive.


(** ** A small model

    Three geoms: geom 0 is a mesh without mesh data, geom 1 a mesh with
    data id 0, geom 2 a sphere.  Every per-world model array has a single
    row.  Candidate 0 pairs geoms 0 and 1 (priorities 1 and 0), candidate 1
    pairs geoms 1 and 2 (equal priorities), candidate 2 pairs geoms 0 and 1
    with the explicit override 0. *)
Definition ex_MJ_MINMU : Q := 1 # 100000.
Definition ex_MJ_MINVAL : Q := 1 # 1000000000000000.
Definition ex_safe_div (x y : Q) : Q :=
  (x / wp_where (negb (Qeq_bool y 0)) y ex_MJ_MINVAL)%Q.
Definition ex_MESH : Z := 7.
Definition ex_CONSTRAINT : Z := 1.
Definition ex_SENSOR : Z := 2.

Definition ex_geom_type : list Z := [7; 7; 2].
Definition ex_geom_dataid : list Z := [-1; 0; -1].
Definition ex_geom_size : list (list vec3) := [[Vec3 1 1 1; Vec3 2 2 2; Vec3 3 3 3]].
Definition ex_mesh_vertadr : list Z := [10].
Definition ex_mesh_vertnum : list Z := [8].
Definition ex_mesh_graphadr : list Z := [3].
Definition ex_mesh_polynum : list Z := [6].
Definition ex_mesh_polyadr : list Z := [4].
Definition ex_geom_xpos : list (list vec3) := [[Vec3 1 2 3; Vec3 4 5 6; Vec3 7 8 9]].
Definition ex_geom_xmat : list (list mat33) :=
  [[Mat33 (Vec3 1 0 0) (Vec3 0 1 0) (Vec3 0 0 1);
    Mat33 (Vec3 1 0 0) (Vec3 0 1 0) (Vec3 0 0 1);
    Mat33 (Vec3 1 0 0) (Vec3 0 1 0) (Vec3 0 0 1)]].

Definition ex_geom_condim : list Z := [3; 1; 4].
Definition ex_geom_priority : list Z := [1; 0; 0].
Definition ex_geom_solmix : list (list Q) := [[1; 1; 0]]%Q.
Definition ex_geom_solref : list (list vec2) :=
  [[Vec2 (1 # 50) 1; Vec2 (1 # 25) 1; Vec2 0 (-5)]].
Definition ex_geom_solimp : list (list vec5) :=
  [[Vec5 (9 # 10) (95 # 100) (1 # 1000) (1 # 2) 2;
    Vec5 (8 # 10) (9 # 10) (1 # 1000) (1 # 2) 2;
    Vec5 (7 # 10) (9 # 10) (1 # 100) (1 # 2) 2]].
Definition ex_geom_friction : list (list vec3) :=
  [[Vec3 0 0 0; Vec3 1 (1 # 200) (1 # 10000); Vec3 (1 # 2) (1 # 100) (1 # 1000)]].
Definition ex_geom_margin : list (list Q) := [[1 # 10; 2 # 10; 3 # 10]]%Q.
Definition ex_geom_gap : list (list Q) := [[0; 1 # 100; 0]]%Q.
Definition ex_pair_dim : list Z := [3].
Definition ex_pair_solref : list (list vec2) := [[Vec2 (1 # 50) 1]].
Definition ex_pair_solreffriction : list (list vec2) := [[Vec2 0 0]].
Definition ex_pair_solimp : list (list vec5) :=
  [[Vec5 (9 # 10) (95 # 100) (1 # 1000) (1 # 2) 2]].
Definition ex_pair_margin : list (list Q) := [[5]]%Q.
Definition ex_pair_gap : list (list Q) := [[1]]%Q.
Definition ex_pair_friction : list (list vec5) := [[Vec5 1 1 (1 # 200) 0 0]].
Definition ex_collision_pair : list vec2i := [Vec2i 0 1; Vec2i 1 2; Vec2i 0 1].
Definition ex_collision_pairid : list vec2i :=
  [Vec2i (-1) (-1); Vec2i (-1) (-1); Vec2i 0 (-1)].
(** The same candidates with the two geoms of each pair exchanged. *)
Definition ex_collision_pair_swapped : list vec2i := [Vec2i 1 0; Vec2i 2 1; Vec2i 1 0].

(** An empty contact buffer with two slots, and three candidates: an
    active contact, an inactive contact observed by sensor 3 on a pair that
    wants no constraint, and an inactive contact without a sensor. *)
Definition ex_out : ContactOut :=
  {| contact_dist_out := [0; 0]%Q;
     contact_pos_out := [vec3_zero; vec3_zero];
     contact_frame_out := [inhabitant; inhabitant];
     contact_includemargin_out := [0; 0]%Q;
     contact_friction_out := [inhabitant; inhabitant];
     contact_solref_out := [inhabitant; inhabitant];
     contact_solreffriction_out := [inhabitant; inhabitant];
     contact_solimp_out := [inhabitant; inhabitant];
     contact_dim_out := [0; 0];
     contact_geom_out := [inhabitant; inhabitant];
     contact_worldid_out := [0; 0];
     contact_type_out := [0; 0];
     contact_geomcollisionid_out := [0; 0];
     nacon_out := 0 |}.
Definition ex_active : ContactIn :=
  {| id_ := 0; dist_in := - (1 # 100); pos_in := Vec3 1 2 3;
     frame_in := Mat33 (Vec3 0 0 1) (Vec3 1 0 0) (Vec3 0 1 0);
     margin_in := 1 # 10; gap_in := 1 # 100; condim_in := 3;
     friction_in := Vec5 1 1 (1 # 200) (1 # 10000) (1 # 10000);
     solref_in := Vec2 (1 # 50) 1; solreffriction_in := Vec2 0 0;
     solimp_in := Vec5 (9 # 10) (95 # 100) (1 # 1000) (1 # 2) 2;
     geoms_in := Vec2i 0 1; pairid_in := Vec2i (-1) (-1); worldid_in := 0 |}.
Definition ex_sensor : ContactIn :=
  {| id_ := 1; dist_in := 1; pos_in := Vec3 4 5 6;
     frame_in := Mat33 (Vec3 0 0 1) (Vec3 1 0 0) (Vec3 0 1 0);
     margin_in := 0; gap_in := 0; condim_in := 3;
     friction_in := Vec5 1 1 (1 # 200) (1 # 10000) (1 # 10000);
     solref_in := Vec2 (1 # 50) 1; solreffriction_in := Vec2 0 0;
     solimp_in := Vec5 (9 # 10) (95 # 100) (1 # 1000) (1 # 2) 2;
     geoms_in := Vec2i 1 2; pairid_in := Vec2i (-2) 3; worldid_in := 0 |}.
Definition ex_skipped : ContactIn :=
  {| id_ := 2; dist_in := 1; pos_in := Vec3 4 5 6;
     frame_in := Mat33 (Vec3 0 0 1) (Vec3 1 0 0) (Vec3 0 1 0);
     margin_in := 0; gap_in := 0; condim_in := 3;
     friction_in := Vec5 1 1 (1 # 200) (1 # 10000) (1 # 10000);
     solref_in := Vec2 (1 # 50) 1; solreffriction_in := Vec2 0 0;
     solimp_in := Vec5 (9 # 10) (95 # 100) (1 # 1000) (1 # 2) 2;
     geoms_in := Vec2i 1 2; pairid_in := Vec2i (-2) (-1); worldid_in := 0 |}.

(** An environment in which only [pkg] is installed, at version
    [3.5.0.dev1]. *)
Definition ex_metadata_version (package_name : list ascii) : option (list ascii) :=
  match util_pkg.str_compare package_name (util_pkg.str "pkg") with
  | Eq => Some (util_pkg.str "3.5.0.dev1")
  | _ => None
  end.

(** *** A small model for [passive]

    One world with two hinge joints (type 3), one degree of freedom each.
    Joint 0 has stiffness 2 and rest position 1/2, joint 1 has no spring.
    The force arrays hold stale values before the call.  [ex_quat_sub]
    stands for [math.quat_sub], which no joint of this model reaches. *)
Definition ex_JointType_FREE : Z := 0.
Definition ex_JointType_BALL : Z := 1.
Definition ex_DisableBit_PASSIVE : Z := 32.
Definition ex_quat_sub (a b : Passive.quat) : vec3 :=
  Vec3 (Passive.quat_1 a - Passive.quat_1 b) (Passive.quat_2 a - Passive.quat_2 b)
       (Passive.quat_3 a - Passive.quat_3 b).
Definition ex_passive_model (disableflags : Z) (stiffness : Q) : Passive.Model :=
  Passive.mkModel 1 2 2 disableflags [[stiffness; 0%Q]] [0; 1] [3; 3] [0; 1]
    [[1 # 2; 0]]%Q [[1; 3]]%Q.
Definition ex_passive_data : Passive.Data :=
  Passive.mkData [[1; 2]]%Q [[1; -(1)]]%Q [[5; 5]]%Q [[0; 0]]%Q [[9; 9]]%Q.
Definition ex_passive : Passive.Model -> Passive.Data -> Passive.Data :=
  Passive.passive ex_JointType_FREE ex_JointType_BALL ex_DisableBit_PASSIVE ex_quat_sub.


Section CollisionCore.

(** ** Constants of types.py and math.py

    [MJ_MINMU], [MJ_MINVAL], [GeomType.MESH], the [ContactType] flags and
    [safe_div] are imported by collision_core.py; they are parameters here. *)
Variable MJ_MINMU : Q.
Variable MJ_MINVAL : Q.
Variable safe_div : Q -> Q -> Q.
Variable GeomType_MESH : Z.
Variable ContactType_CONSTRAINT : Z.
Variable ContactType_SENSOR : Z.

(** What the collision core relies on.  [safe_div] divides when the
    denominator is not zero, [MJ_MINVAL] is a positive threshold, and the
    [ContactType] flags are distinct bits.  Only the statements about the
    mix weight and about the flags use these assumptions. *)
Hypothesis safe_div_nonzero :
  forall x y : Q, ~ (y == 0)%Q -> safe_div x y = (x / y)%Q.
Hypothesis MJ_MINVAL_pos : (0 < MJ_MINVAL)%Q.
Hypothesis CONSTRAINT_nonzero : ContactType_CONSTRAINT <> 0.
Hypothesis SENSOR_nonzero : ContactType_SENSOR <> 0.
Hypothesis flags_disjoint : Z.land ContactType_CONSTRAINT ContactType_SENSOR = 0.

(** ** [geom_collision_pair] *)

(* Model: *)
Variable geom_type : list Z.
Variable geom_dataid : list Z.
Variable geom_size : list (list vec3).
Variable mesh_vertadr : list Z.
Variable mesh_vertnum : list Z.
Variable mesh_graphadr : list Z.
Variable mesh_vert : list vec3.
Variable mesh_graph : list Z.
Variable mesh_polynum : list Z.
Variable mesh_polyadr : list Z.
Variable mesh_polynormal : list vec3.
Variable mesh_polyvertadr : list Z.
Variable mesh_polyvertnum : list Z.
Variable mesh_polyvert : list Z.
Variable mesh_polymapadr : list Z.
Variable mesh_polymapnum : list Z.
Variable mesh_polymap : list Z.
(* Data in: *)
Variable geom_xpos_in : list (list vec3).
Variable geom_xmat_in : list (list mat33).

(** The body of [if geom_type == GeomType.MESH:], the same for both geoms. *)
Definition geom_mesh_fields (g : Z) (geom : Geom.t) : Geom.t :=
  let dataid := aget geom_dataid g in
  let geom := Geom.set_vertadr (wp_where (0 <=? dataid) (aget mesh_vertadr dataid) (-1)) geom in
  let geom := Geom.set_vertnum (wp_where (0 <=? dataid) (aget mesh_vertnum dataid) (-1)) geom in
  let geom := Geom.set_graphadr (wp_where (0 <=? dataid) (aget mesh_graphadr dataid) (-1)) geom in
  let geom := Geom.set_mesh_polynum (wp_where (0 <=? dataid) (aget mesh_polynum dataid) (-1)) geom in
  let geom := Geom.set_mesh_polyadr (wp_where (0 <=? dataid) (aget mesh_polyadr dataid) (-1)) geom in
  let geom := Geom.set_vert mesh_vert geom in
  let geom := Geom.set_graph mesh_graph geom in
  let geom := Geom.set_mesh_polynormal mesh_polynormal geom in
  let geom := Geom.set_mesh_polyvertadr mesh_polyvertadr geom in
  let geom := Geom.set_mesh_polyvertnum mesh_polyvertnum geom in
  let geom := Geom.set_mesh_polyvert mesh_polyvert geom in
  let geom := Geom.set_mesh_polymapadr mesh_polymapadr geom in
  let geom := Geom.set_mesh_polymapnum mesh_polymapnum geom in
  let geom := Geom.set_mesh_polymap mesh_polymap geom in
  geom.

Definition geom_collision_pair (geoms : vec2i) (worldid : Z) : Geom.t * Geom.t :=
  let geom1 := Geom.new in
  let geom2 := Geom.new in
  let g1 := vec2i_0 geoms in
  let g2 := vec2i_1 geoms in
  let geom_type1 := aget geom_type g1 in
  let geom_type2 := aget geom_type g2 in
  let geom1 := Geom.set_pos (aget2 geom_xpos_in worldid g1) geom1 in
  let geom1 := Geom.set_rot (aget2 geom_xmat_in worldid g1) geom1 in
  let geom1 := Geom.set_size (aget2 geom_size (Z.rem worldid (shape0 geom_size)) g1) geom1 in
  let geom1 := Geom.set_normal
    (Vec3 (vec3_2 (mat33_0 (Geom.rot geom1))) (vec3_2 (mat33_1 (Geom.rot geom1)))
          (vec3_2 (mat33_2 (Geom.rot geom1)))) geom1 in
  let geom2 := Geom.set_pos (aget2 geom_xpos_in worldid g2) geom2 in
  let geom2 := Geom.set_rot (aget2 geom_xmat_in worldid g2) geom2 in
  let geom2 := Geom.set_size (aget2 geom_size (Z.rem worldid (shape0 geom_size)) g2) geom2 in
  let geom2 := Geom.set_normal
    (Vec3 (vec3_2 (mat33_0 (Geom.rot geom2))) (vec3_2 (mat33_1 (Geom.rot geom2)))
          (vec3_2 (mat33_2 (Geom.rot geom2)))) geom2 in
  let geom1 := if geom_type1 =? GeomType_MESH then geom_mesh_fields g1 geom1 else geom1 in
  let geom2 := if geom_type2 =? GeomType_MESH then geom_mesh_fields g2 geom2 else geom2 in
  let geom1 := Geom.set_index (-1) geom1 in
  let geom1 := Geom.set_margin 0 geom1 in
  let geom2 := Geom.set_index (-1) geom2 in
  let geom2 := Geom.set_margin 0 geom2 in
  (geom1, geom2).

(** ** [write_contact] *)

Definition write_contact
  (naconmax_in : Z)
  (id_ : Z) (dist_in : Q) (pos_in : vec3) (frame_in : mat33)
  (margin_in gap_in : Q) (condim_in : Z) (friction_in : vec5)
  (solref_in solreffriction_in : vec2) (solimp_in : vec5)
  (geoms_in pairid_in : vec2i) (worldid_in : Z)
  (out : ContactOut) : Z * ContactOut :=
  let active := Qltb dist_in margin_in in
  if ((vec2i_0 pairid_in =? -2) || negb active) && (vec2i_1 pairid_in =? -1) then
    (0, out)
  else
    let contact_type := 0 in
    let contact_type :=
      if (-1 <=? vec2i_0 pairid_in) && active
      then Z.lor contact_type ContactType_CONSTRAINT else contact_type in
    let contact_type :=
      if 0 <=? vec2i_1 pairid_in
      then Z.lor contact_type ContactType_SENSOR else contact_type in
    (* cid = wp.atomic_add(nacon_out, 0, 1) *)
    let cid := nacon_out out in
    let nacon := int32_add (nacon_out out) 1 in
    if cid <? naconmax_in then
      let includemargin := (margin_in - gap_in)%Q in
      (int_of_bool active,
       {| contact_dist_out := aset (contact_dist_out out) cid dist_in;
          contact_pos_out := aset (contact_pos_out out) cid pos_in;
          contact_frame_out := aset (contact_frame_out out) cid frame_in;
          contact_includemargin_out := aset (contact_includemargin_out out) cid includemargin;
          contact_friction_out := aset (contact_friction_out out) cid friction_in;
          contact_solref_out := aset (contact_solref_out out) cid solref_in;
          contact_solreffriction_out :=
            aset (contact_solreffriction_out out) cid solreffriction_in;
          contact_solimp_out := aset (contact_solimp_out out) cid solimp_in;
          contact_dim_out := aset (contact_dim_out out) cid condim_in;
          contact_geom_out := aset (contact_geom_out out) cid geoms_in;
          contact_worldid_out := aset (contact_worldid_out out) cid worldid_in;
          contact_type_out := aset (contact_type_out out) cid contact_type;
          contact_geomcollisionid_out := aset (contact_geomcollisionid_out out) cid id_;
          nacon_out := nacon |})
    else
      (0,
       {| contact_dist_out := contact_dist_out out;
          contact_pos_out := contact_pos_out out;
          contact_frame_out := contact_frame_out out;
          contact_includemargin_out := contact_includemargin_out out;
          contact_friction_out := contact_friction_out out;
          contact_solref_out := contact_solref_out out;
          contact_solreffriction_out := contact_solreffriction_out out;
          contact_solimp_out := contact_solimp_out out;
          contact_dim_out := contact_dim_out out;
          contact_geom_out := contact_geom_out out;
          contact_worldid_out := contact_worldid_out out;
          contact_type_out := contact_type_out out;
          contact_geomcollisionid_out := contact_geomcollisionid_out out;
          nacon_out := nacon |}).

(** One call of [write_contact] on the arguments bundled in [c]. *)
Definition write_contact_in (naconmax_in : Z) (c : ContactIn) (out : ContactOut)
  : Z * ContactOut :=
  write_contact naconmax_in (id_ c) (dist_in c) (pos_in c) (frame_in c)
    (margin_in c) (gap_in c) (condim_in c) (friction_in c) (solref_in c)
    (solreffriction_in c) (solimp_in c) (geoms_in c) (pairid_in c)
    (worldid_in c) out.

(** The calls [cs], in the order in which their atomic increments take place. *)
Fixpoint write_contacts (naconmax_in : Z) (cs : list ContactIn) (out : ContactOut)
  : ContactOut :=
  match cs with
  | [] => out
  | c :: cs' => write_contacts naconmax_in cs' (snd (write_contact_in naconmax_in c out))
  end.

(** The record that a call with arguments [c] stores in its slot. *)
Definition record_of (c : ContactIn) : ContactRecord :=
  {| r_dist := dist_in c;
     r_pos := pos_in c;
     r_frame := frame_in c;
     r_includemargin := (margin_in c - gap_in c)%Q;
     r_friction := friction_in c;
     r_solref := solref_in c;
     r_solreffriction := solreffriction_in c;
     r_solimp := solimp_in c;
     r_dim := condim_in c;
     r_geom := geoms_in c;
     r_worldid := worldid_in c;
     r_type :=
       Z.lor
         (if (-1 <=? vec2i_0 (pairid_in c)) && Qltb (dist_in c) (margin_in c)
          then ContactType_CONSTRAINT else 0)
         (if 0 <=? vec2i_1 (pairid_in c) then ContactType_SENSOR else 0);
     r_geomcollisionid := id_ c |}.

(** The pair wants no constraint or the contact is not active, and no
    sensor is attached. *)
Definition dropped (c : ContactIn) : Prop :=
  (vec2i_0 (pairid_in c) = -2 \/ (margin_in c <= dist_in c)%Q) /\
  vec2i_1 (pairid_in c) = -1.

(** ** [contact_params] *)

(* Model: *)
Variable geom_condim : list Z.
Variable geom_priority : list Z.
Variable geom_solmix : list (list Q).
Variable geom_solref : list (list vec2).
Variable geom_solimp : list (list vec5).
Variable geom_friction : list (list vec3).
Variable geom_margin : list (list Q).
Variable geom_gap : list (list Q).
Variable pair_dim : list Z.
Variable pair_solref : list (list vec2).
Variable pair_solreffriction : list (list vec2).
Variable pair_solimp : list (list vec5).
Variable pair_margin : list (list Q).
Variable pair_gap : list (list Q).
Variable pair_friction : list (list vec5).
(* In: *)
Variable collision_pair_in : list vec2i.
Variable collision_pairid_in : list vec2i.

(** The mix weight of the branch without a priority winner:
    [safe_div] followed by the three [wp.where] corrections. *)
Definition solmix_weight (solmix1 solmix2 : Q) : Q :=
  let mix := safe_div solmix1 (solmix1 + solmix2) in
  let mix := wp_where (Qltb solmix1 MJ_MINVAL && Qltb solmix2 MJ_MINVAL) (1 # 2) mix in
  let mix := wp_where (Qltb solmix1 MJ_MINVAL && Qleb MJ_MINVAL solmix2) 0%Q mix in
  let mix := wp_where (Qleb MJ_MINVAL solmix1 && Qltb solmix2 MJ_MINVAL) 1%Q mix in
  mix.

(** The [if p1 > p2: ... elif p2 > p1: ... else: ...] block: it sets
    [mix], [condim] and [max_geom_friction]. *)
Definition priority_mix (solmix1 solmix2 : Q) (condim1 condim2 p1 p2 : Z)
  (friction1 friction2 : vec3) : Q * Z * vec3 :=
  if p2 <? p1 then (1%Q, condim1, friction1)
  else if p1 <? p2 then (0%Q, condim2, friction2)
  else (solmix_weight solmix1 solmix2, wp_max_int condim1 condim2,
        vec3_max friction1 friction2).

(** The final clamp of the friction vector. *)
Definition friction_floor (friction : vec5) : vec5 :=
  Vec5 (wp_max MJ_MINMU (vec5_0 friction))
       (wp_max MJ_MINMU (vec5_1 friction))
       (wp_max MJ_MINMU (vec5_2 friction))
       (wp_max MJ_MINMU (vec5_3 friction))
       (wp_max MJ_MINMU (vec5_4 friction)).

Definition contact_params (cid worldid : Z)
  : vec2i * Q * Q * Z * vec5 * vec2 * vec2 * vec5 :=
  let geoms := aget collision_pair_in cid in
  let pairid := vec2i_0 (aget collision_pairid_in cid) in
  let '(margin, gap, condim, friction, solref, solreffriction, solimp) :=
    if -1 <? pairid then
      let margin := aget2 pair_margin worldid pairid in
      let gap := aget2 pair_gap worldid pairid in
      let condim := aget pair_dim pairid in
      let friction := aget2 pair_friction worldid pairid in
      let solref := aget2 pair_solref worldid pairid in
      let solreffriction := aget2 pair_solreffriction worldid pairid in
      let solimp := aget2 pair_solimp worldid pairid in
      (margin, gap, condim, friction, solref, solreffriction, solimp)
    else
      let g1 := vec2i_0 geoms in
      let g2 := vec2i_1 geoms in
      let solmix_id := Z.rem worldid (shape0 geom_solmix) in
      let friction_id := Z.rem worldid (shape0 geom_friction) in
      let solref_id := Z.rem worldid (shape0 geom_solref) in
      let solimp_id := Z.rem worldid (shape0 geom_solimp) in
      let margin_id := Z.rem worldid (shape0 geom_margin) in
      let gap_id := Z.rem worldid (shape0 geom_gap) in
      let solmix1 := aget2 geom_solmix solmix_id g1 in
      let solmix2 := aget2 geom_solmix solmix_id g2 in
      let condim1 := aget geom_condim g1 in
      let condim2 := aget geom_condim g2 in
      let p1 := aget geom_priority g1 in
      let p2 := aget geom_priority g2 in
      let '(mix, condim, max_geom_friction) :=
        priority_mix solmix1 solmix2 condim1 condim2 p1 p2
          (aget2 geom_friction friction_id g1) (aget2 geom_friction friction_id g2) in
      let friction :=
        Vec5 (vec3_0 max_geom_friction) (vec3_0 max_geom_friction)
             (vec3_1 max_geom_friction)
             (vec3_2 max_geom_friction) (vec3_2 max_geom_friction) in
      let solref :=
        if Qltb 0 (vec2_0 (aget2 geom_solref solref_id g1))
           && Qltb 0 (vec2_0 (aget2 geom_solref solref_id g2))
        then vec2_add (vec2_scale mix (aget2 geom_solref solref_id g1))
                      (vec2_scale (1 - mix) (aget2 geom_solref solref_id g2))
        else vec2_min (aget2 geom_solref solref_id g1) (aget2 geom_solref solref_id g2) in
      let solreffriction := Vec2 0 0 in
      let solimp :=
        vec5_add (vec5_scale mix (aget2 geom_solimp solimp_id g1))
                 (vec5_scale (1 - mix) (aget2 geom_solimp solimp_id g2)) in
      let margin := (aget2 geom_margin margin_id g1 + aget2 geom_margin margin_id g2)%Q in
      let gap := (aget2 geom_gap gap_id g1 + aget2 geom_gap gap_id g2)%Q in
      (margin, gap, condim, friction, solref, solreffriction, solimp)
  in
  let friction := friction_floor friction in
  (geoms, margin, gap, condim, friction, solref, solreffriction, solimp).

(** Names for what [contact_params] reads for the candidate [cid] in world
    [worldid]: the two geoms, the override id, the row [worldid % shape[0]]
    of a per-world array, and the result of the priority block. *)
Definition pair_geom1 (cid : Z) : Z := vec2i_0 (aget collision_pair_in cid).
Definition pair_geom2 (cid : Z) : Z := vec2i_1 (aget collision_pair_in cid).
Definition pair_override (cid : Z) : Z := vec2i_0 (aget collision_pairid_in cid).
Definition world_row {T : Type} (a : list (list T)) (worldid : Z) : Z :=
  Z.rem worldid (shape0 a).
Definition read_solmix (worldid g : Z) : Q :=
  aget2 geom_solmix (world_row geom_solmix worldid) g.
Definition read_friction (worldid g : Z) : vec3 :=
  aget2 geom_friction (world_row geom_friction worldid) g.
Definition read_solref (worldid g : Z) : vec2 :=
  aget2 geom_solref (world_row geom_solref worldid) g.
Definition read_solimp (worldid g : Z) : vec5 :=
  aget2 geom_solimp (world_row geom_solimp worldid) g.
Definition read_margin (worldid g : Z) : Q :=
  aget2 geom_margin (world_row geom_margin worldid) g.
Definition read_gap (worldid g : Z) : Q :=
  aget2 geom_gap (world_row geom_gap worldid) g.
Definition pair_mix (cid worldid : Z) : Q * Z * vec3 :=
  priority_mix
    (read_solmix worldid (pair_geom1 cid)) (read_solmix worldid (pair_geom2 cid))
    (aget geom_condim (pair_geom1 cid)) (aget geom_condim (pair_geom2 cid))
    (aget geom_priority (pair_geom1 cid)) (aget geom_priority (pair_geom2 cid))
    (read_friction worldid (pair_geom1 cid)) (read_friction worldid (pair_geom2 cid)).


(** ** Further notions used in the statements *)

(** The boolean test of the early [return 0] of [write_contact]. *)
Definition droppedb (c : ContactIn) : bool :=
  ((vec2i_0 (pairid_in c) =? -2) || negb (Qltb (dist_in c) (margin_in c)))
  && (vec2i_1 (pairid_in c) =? -1).

(** The calls of a sequence that are not dropped. *)
Definition live_calls (cs : list ContactIn) : list ContactIn :=
  List.filter (fun c => negb (droppedb c)) cs.

(** The shapes of the thirteen contact arrays. *)
Definition contact_shapes (out : ContactOut) :=
  (shape0 (contact_dist_out out), shape0 (contact_pos_out out),
   shape0 (contact_frame_out out), shape0 (contact_includemargin_out out),
   shape0 (contact_friction_out out), shape0 (contact_solref_out out),
   shape0 (contact_solreffriction_out out), shape0 (contact_solimp_out out),
   shape0 (contact_dim_out out), shape0 (contact_geom_out out),
   shape0 (contact_worldid_out out), shape0 (contact_type_out out),
   shape0 (contact_geomcollisionid_out out)).


(** * Properties *)

(** ** Comparisons and selections *)

Lemma Qltb_lt (x y : Q) : Qltb x y = true <-> (x < y)%Q.
Proof.
  unfold Qltb. rewrite negb_true_iff, <- not_true_iff_false, Qle_bool_iff.
  split; [apply Qnot_le_lt | apply Qlt_not_le].
Qed.

Lemma Qltb_ge (x y : Q) : Qltb x y = false <-> (y <= x)%Q.
Proof.
  unfold Qltb. rewrite negb_false_iff. apply Qle_bool_iff.
Qed.

Lemma Qleb_le (x y : Q) : Qleb x y = true <-> (x <= y)%Q.
Proof. apply Qle_bool_iff. Qed.

Lemma Qleb_gt (x y : Q) : Qleb x y = false <-> (y < x)%Q.
Proof.
  unfold Qleb. rewrite <- not_true_iff_false, Qle_bool_iff.
  split; [apply Qnot_le_lt | apply Qlt_not_le].
Qed.

Lemma wp_max_is_max (a b : Q) : is_max a b (wp_max a b).
Proof.
  unfold is_max, wp_max. destruct (Qltb b a) eqn:E.
  - apply Qltb_lt in E. repeat split; [apply Qle_refl | apply Qlt_le_weak, E | now left].
  - apply Qltb_ge in E. repeat split; [exact E | apply Qle_refl | now right].
Qed.

Lemma wp_min_is_min (a b : Q) : is_min a b (wp_min a b).
Proof.
  unfold is_min, wp_min. destruct (Qltb a b) eqn:E.
  - apply Qltb_lt in E. repeat split; [apply Qle_refl | apply Qlt_le_weak, E | now left].
  - apply Qltb_ge in E. repeat split; [exact E | apply Qle_refl | now right].
Qed.

Lemma wp_max_int_max (a b : Z) : wp_max_int a b = Z.max a b.
Proof. unfold wp_max_int. destruct (Z.ltb_spec b a); lia. Qed.

(** ** [geom_collision_pair] *)

Lemma geom_mesh_fields_mesh_fields (g : Z) (geom : Geom.t) :
  mesh_fields (geom_mesh_fields g geom) =
  let dataid := aget geom_dataid g in
  if 0 <=? dataid
  then (aget mesh_vertadr dataid, aget mesh_vertnum dataid, aget mesh_graphadr dataid,
        aget mesh_polynum dataid, aget mesh_polyadr dataid)
  else (-1, -1, -1, -1, -1).
Proof.
  destruct geom. unfold geom_mesh_fields, mesh_fields, wp_where. cbn.
  destruct (0 <=? aget geom_dataid g); reflexivity.
Qed.

Lemma mesh_fields_set_margin (v : Q) (geom : Geom.t) :
  mesh_fields (Geom.set_margin v geom) = mesh_fields geom.
Proof. destruct geom; reflexivity. Qed.

Lemma mesh_fields_set_index (v : Z) (geom : Geom.t) :
  mesh_fields (Geom.set_index v geom) = mesh_fields geom.
Proof. destruct geom; reflexivity. Qed.

Lemma geom_collision_pair_mesh_fields (geoms : vec2i) (worldid : Z) :
  let r := geom_collision_pair geoms worldid in
  mesh_fields (fst r) =
    (if aget geom_type (vec2i_0 geoms) =? GeomType_MESH
     then mesh_fields (geom_mesh_fields (vec2i_0 geoms) Geom.new)
     else (0, 0, 0, 0, 0)) /\
  mesh_fields (snd r) =
    (if aget geom_type (vec2i_1 geoms) =? GeomType_MESH
     then mesh_fields (geom_mesh_fields (vec2i_1 geoms) Geom.new)
     else (0, 0, 0, 0, 0)).
Proof.
  unfold geom_collision_pair. cbn zeta. cbn [fst snd].
  rewrite !mesh_fields_set_margin, !mesh_fields_set_index.
  split.
  - destruct (aget geom_type (vec2i_0 geoms) =? GeomType_MESH); [| reflexivity].
    rewrite !geom_mesh_fields_mesh_fields. reflexivity.
  - destruct (aget geom_type (vec2i_1 geoms) =? GeomType_MESH); [| reflexivity].
    rewrite !geom_mesh_fields_mesh_fields. reflexivity.
Qed.

(** C9.  For a geometry whose declared type is mesh, a negative data id
    sets the five mesh address and count fields of its view to -1, and a
    nonnegative data id sets them from the mesh tables at that data id.
    This holds for both geometries of the pair. *)
Theorem geom_collision_pair_mesh_sentinel (geoms : vec2i) (worldid : Z) :
  let r := geom_collision_pair geoms worldid in
  let g1 := vec2i_0 geoms in
  let g2 := vec2i_1 geoms in
  (aget geom_type g1 = GeomType_MESH ->
     (aget geom_dataid g1 < 0 -> mesh_fields (fst r) = (-1, -1, -1, -1, -1)) /\
     (0 <= aget geom_dataid g1 ->
        mesh_fields (fst r) =
          (aget mesh_vertadr (aget geom_dataid g1), aget mesh_vertnum (aget geom_dataid g1),
           aget mesh_graphadr (aget geom_dataid g1), aget mesh_polynum (aget geom_dataid g1),
           aget mesh_polyadr (aget geom_dataid g1)))) /\
  (aget geom_type g2 = GeomType_MESH ->
     (aget geom_dataid g2 < 0 -> mesh_fields (snd r) = (-1, -1, -1, -1, -1)) /\
     (0 <= aget geom_dataid g2 ->
        mesh_fields (snd r) =
          (aget mesh_vertadr (aget geom_dataid g2), aget mesh_vertnum (aget geom_dataid g2),
           aget mesh_graphadr (aget geom_dataid g2), aget mesh_polynum (aget geom_dataid g2),
           aget mesh_polyadr (aget geom_dataid g2)))).
Proof.
  intros r g1 g2.
  destruct (geom_collision_pair_mesh_fields geoms worldid) as [H1 H2].
  fold r g1 g2 in H1, H2.
  split; intros Hm.
  - rewrite Hm, Z.eqb_refl, geom_mesh_fields_mesh_fields in H1. cbn zeta in H1.
    split; intros Hd; rewrite H1.
    + destruct (Z.leb_spec 0 (aget geom_dataid g1)); [lia | reflexivity].
    + destruct (Z.leb_spec 0 (aget geom_dataid g1)); [reflexivity | lia].
  - rewrite Hm, Z.eqb_refl, geom_mesh_fields_mesh_fields in H2. cbn zeta in H2.
    split; intros Hd; rewrite H2.
    + destruct (Z.leb_spec 0 (aget geom_dataid g2)); [lia | reflexivity].
    + destruct (Z.leb_spec 0 (aget geom_dataid g2)); [reflexivity | lia].
Qed.

Lemma mesh_fields_zero_not_sentinel (geom : Geom.t) :
  mesh_fields geom = (0, 0, 0, 0, 0) ->
  Geom.vertadr geom <> -1 /\ Geom.vertnum geom <> -1 /\
  Geom.graphadr geom <> -1 /\ Geom.mesh_polynum geom <> -1 /\
  Geom.mesh_polyadr geom <> -1.
Proof.
  destruct geom; unfold mesh_fields; cbn.
  intros [= -> -> -> -> ->]. repeat split; discriminate.
Qed.

Lemma margin_index_last (v : Q) (i : Z) (geom : Geom.t) :
  Geom.margin (Geom.set_margin v (Geom.set_index i geom)) = v /\
  Geom.index (Geom.set_margin v (Geom.set_index i geom)) = i.
Proof. destruct geom; split; reflexivity. Qed.

(** C10.  For a geometry whose declared type is not mesh the five mesh
    address and count fields of the view keep the zero of [Geom()], so none
    of them is the sentinel -1; for every geometry the view's margin is 0
    and its index is -1.  A non-mesh view has the same five fields as the
    view of a mesh whose data id is assigned and whose table entries are 0. *)
Theorem geom_collision_pair_non_mesh_zero (geoms : vec2i) (worldid : Z) :
  let r := geom_collision_pair geoms worldid in
  (aget geom_type (vec2i_0 geoms) <> GeomType_MESH ->
     mesh_fields (fst r) = (0, 0, 0, 0, 0) /\
     Geom.vertadr (fst r) <> -1 /\ Geom.vertnum (fst r) <> -1 /\
     Geom.graphadr (fst r) <> -1 /\ Geom.mesh_polynum (fst r) <> -1 /\
     Geom.mesh_polyadr (fst r) <> -1) /\
  (aget geom_type (vec2i_1 geoms) <> GeomType_MESH ->
     mesh_fields (snd r) = (0, 0, 0, 0, 0) /\
     Geom.vertadr (snd r) <> -1 /\ Geom.vertnum (snd r) <> -1 /\
     Geom.graphadr (snd r) <> -1 /\ Geom.mesh_polynum (snd r) <> -1 /\
     Geom.mesh_polyadr (snd r) <> -1) /\
  Geom.margin (fst r) = 0%Q /\ Geom.index (fst r) = -1 /\
  Geom.margin (snd r) = 0%Q /\ Geom.index (snd r) = -1 /\
  (aget geom_type (vec2i_0 geoms) <> GeomType_MESH ->
   aget geom_type (vec2i_1 geoms) = GeomType_MESH ->
   0 <= aget geom_dataid (vec2i_1 geoms) ->
   (aget mesh_vertadr (aget geom_dataid (vec2i_1 geoms)),
    aget mesh_vertnum (aget geom_dataid (vec2i_1 geoms)),
    aget mesh_graphadr (aget geom_dataid (vec2i_1 geoms)),
    aget mesh_polynum (aget geom_dataid (vec2i_1 geoms)),
    aget mesh_polyadr (aget geom_dataid (vec2i_1 geoms))) = (0, 0, 0, 0, 0) ->
   mesh_fields (fst r) = mesh_fields (snd r)).
Proof.
  cbv zeta.
  destruct (geom_collision_pair_mesh_fields geoms worldid) as [H1 H2].
  cbv zeta in H1, H2.
  split; [| split; [| split; [| split; [| split; [| split]]]]].
  - intros Hn. apply Z.eqb_neq in Hn. rewrite Hn in H1.
    split; [exact H1 | exact (mesh_fields_zero_not_sentinel _ H1)].
  - intros Hn. apply Z.eqb_neq in Hn. rewrite Hn in H2.
    split; [exact H2 | exact (mesh_fields_zero_not_sentinel _ H2)].
  - unfold geom_collision_pair. cbv zeta. cbn [fst snd]. apply margin_index_last.
  - unfold geom_collision_pair. cbv zeta. cbn [fst snd]. apply margin_index_last.
  - unfold geom_collision_pair. cbv zeta. cbn [fst snd]. apply margin_index_last.
  - unfold geom_collision_pair. cbv zeta. cbn [fst snd]. apply margin_index_last.
  - intros Hn Hm Hd Ht. apply Z.eqb_neq in Hn. rewrite Hn in H1.
    rewrite Hm, Z.eqb_refl, geom_mesh_fields_mesh_fields in H2. cbv zeta in H2.
    destruct (Z.leb_spec 0 (aget geom_dataid (vec2i_1 geoms))); [| lia].
    rewrite H1, H2, Ht. reflexivity.
Qed.

(** ** [contact_params] *)

(** The mixing branch, with its reads named. *)
Lemma contact_params_no_override (cid worldid : Z) :
  pair_override cid <= -1 ->
  contact_params cid worldid =
    (aget collision_pair_in cid,
     (read_margin worldid (pair_geom1 cid) + read_margin worldid (pair_geom2 cid))%Q,
     (read_gap worldid (pair_geom1 cid) + read_gap worldid (pair_geom2 cid))%Q,
     snd (fst (pair_mix cid worldid)),
     friction_floor (expand_friction (snd (pair_mix cid worldid))),
     (if Qltb 0 (vec2_0 (read_solref worldid (pair_geom1 cid)))
         && Qltb 0 (vec2_0 (read_solref worldid (pair_geom2 cid)))
      then vec2_add
             (vec2_scale (fst (fst (pair_mix cid worldid)))
                         (read_solref worldid (pair_geom1 cid)))
             (vec2_scale (1 - fst (fst (pair_mix cid worldid)))
                         (read_solref worldid (pair_geom2 cid)))
      else vec2_min (read_solref worldid (pair_geom1 cid))
                    (read_solref worldid (pair_geom2 cid))),
     Vec2 0 0,
     vec5_add
       (vec5_scale (fst (fst (pair_mix cid worldid))) (read_solimp worldid (pair_geom1 cid)))
       (vec5_scale (1 - fst (fst (pair_mix cid worldid)))
                   (read_solimp worldid (pair_geom2 cid)))).
Proof.
  intros Hp. unfold contact_params. cbv zeta.
  fold (pair_override cid).
  destruct (Z.ltb_spec (-1) (pair_override cid)) as [Hlt | _]; [lia |].
  unfold pair_mix, read_solmix, read_friction, read_solref, read_solimp,
    read_margin, read_gap, world_row, pair_geom1, pair_geom2.
  destruct (priority_mix _ _ _ _ _ _ _ _) as [[mix condim] max_geom_friction].
  reflexivity.
Qed.

(** The override branch. *)
Lemma contact_params_override (cid worldid : Z) :
  -1 < pair_override cid ->
  contact_params cid worldid =
    (aget collision_pair_in cid,
     aget2 pair_margin worldid (pair_override cid),
     aget2 pair_gap worldid (pair_override cid),
     aget pair_dim (pair_override cid),
     friction_floor (aget2 pair_friction worldid (pair_override cid)),
     aget2 pair_solref worldid (pair_override cid),
     aget2 pair_solreffriction worldid (pair_override cid),
     aget2 pair_solimp worldid (pair_override cid)).
Proof.
  intros Hp. unfold contact_params. cbv zeta.
  fold (pair_override cid).
  destruct (Z.ltb_spec (-1) (pair_override cid)) as [_ | Hge]; [| lia].
  reflexivity.
Qed.

Lemma contact_params_friction (cid worldid : Z) :
  exists f : vec5, ret_friction (contact_params cid worldid) = friction_floor f.
Proof.
  destruct (Z.lt_ge_cases (-1) (pair_override cid)) as [H | H].
  - rewrite contact_params_override by exact H. eexists; reflexivity.
  - rewrite contact_params_no_override by lia. eexists; reflexivity.
Qed.

Lemma wp_max_floor (x : Q) : (MJ_MINMU <= wp_max MJ_MINMU x)%Q.
Proof. apply wp_max_is_max. Qed.

Lemma wp_max_floor_id (x : Q) : (MJ_MINMU <= x)%Q -> wp_max MJ_MINMU x = x.
Proof.
  intros H. unfold wp_max. destruct (Qltb x MJ_MINMU) eqn:E; [| reflexivity].
  apply Qltb_lt in E. exfalso. exact (Qlt_not_le _ _ E H).
Qed.

(** C4.  On both branches of [contact_params], each of the five components
    of the returned friction vector is at least [MJ_MINMU]. *)
Theorem contact_params_friction_min (cid worldid : Z) :
  let friction := ret_friction (contact_params cid worldid) in
  (MJ_MINMU <= vec5_0 friction)%Q /\ (MJ_MINMU <= vec5_1 friction)%Q /\
  (MJ_MINMU <= vec5_2 friction)%Q /\ (MJ_MINMU <= vec5_3 friction)%Q /\
  (MJ_MINMU <= vec5_4 friction)%Q.
Proof.
  cbv zeta. destruct (contact_params_friction cid worldid) as [f ->].
  unfold friction_floor; cbn. repeat split; apply wp_max_floor.
Qed.


Lemma friction_floor_id (f : vec5) :
  (MJ_MINMU <= vec5_0 f)%Q -> (MJ_MINMU <= vec5_1 f)%Q -> (MJ_MINMU <= vec5_2 f)%Q ->
  (MJ_MINMU <= vec5_3 f)%Q -> (MJ_MINMU <= vec5_4 f)%Q ->
  friction_floor f = f.
Proof.
  intros H0 H1 H2 H3 H4. destruct f as [f0 f1 f2 f3 f4]. cbn in *.
  unfold friction_floor. cbn.
  rewrite !wp_max_floor_id by assumption. reflexivity.
Qed.

Lemma friction_floor_expand_id (f : vec3) :
  (MJ_MINMU <= vec3_0 f)%Q -> (MJ_MINMU <= vec3_1 f)%Q -> (MJ_MINMU <= vec3_2 f)%Q ->
  friction_floor (expand_friction f) = expand_friction f.
Proof. intros H0 H1 H2. apply friction_floor_id; assumption. Qed.

(** C5, as it holds of the code.  Without an override: if one geometry's priority is
    strictly higher, the returned condim is the winner's and the returned
    friction is the winner's triple expanded to five components and then
    raised to at least [MJ_MINMU] per component, so it is the expanded
    triple itself when every component of the triple is at least
    [MJ_MINMU]; no solmix value occurs in it.  With equal priorities the
    condim is the max of the two and the triple that is expanded and
    raised is the elementwise max of the two triples.  With distinct
    priorities the condim and the triple chosen by the priority block are
    the same for any two solmix values. *)
Theorem contact_params_priority (cid worldid : Z) :
  pair_override cid <= -1 ->
  let g1 := pair_geom1 cid in
  let g2 := pair_geom2 cid in
  let p1 := aget geom_priority g1 in
  let p2 := aget geom_priority g2 in
  let f1 := read_friction worldid g1 in
  let f2 := read_friction worldid g2 in
  let r := contact_params cid worldid in
  (p2 < p1 ->
     ret_condim r = aget geom_condim g1 /\
     ret_friction r = friction_floor (expand_friction f1) /\
     ((MJ_MINMU <= vec3_0 f1)%Q -> (MJ_MINMU <= vec3_1 f1)%Q ->
      (MJ_MINMU <= vec3_2 f1)%Q -> ret_friction r = expand_friction f1)) /\
  (p1 < p2 ->
     ret_condim r = aget geom_condim g2 /\
     ret_friction r = friction_floor (expand_friction f2) /\
     ((MJ_MINMU <= vec3_0 f2)%Q -> (MJ_MINMU <= vec3_1 f2)%Q ->
      (MJ_MINMU <= vec3_2 f2)%Q -> ret_friction r = expand_friction f2)) /\
  (p1 = p2 ->
     ret_condim r = Z.max (aget geom_condim g1) (aget geom_condim g2) /\
     exists m : vec3,
       is_max (vec3_0 f1) (vec3_0 f2) (vec3_0 m) /\
       is_max (vec3_1 f1) (vec3_1 f2) (vec3_1 m) /\
       is_max (vec3_2 f1) (vec3_2 f2) (vec3_2 m) /\
       ret_friction r = friction_floor (expand_friction m)) /\
  (p1 <> p2 ->
     forall solmix1 solmix2 : Q,
       snd (fst (pair_mix cid worldid)) =
         snd (fst (priority_mix solmix1 solmix2 (aget geom_condim g1)
                     (aget geom_condim g2) p1 p2 f1 f2)) /\
       snd (pair_mix cid worldid) =
         snd (priority_mix solmix1 solmix2 (aget geom_condim g1)
                (aget geom_condim g2) p1 p2 f1 f2)).
Proof.
  intros Hp g1 g2 p1 p2 f1 f2 r.
  unfold r. rewrite contact_params_no_override by exact Hp.
  unfold ret_condim, ret_friction, pair_mix, priority_mix.
  fold g1 g2. fold p1 p2 f1 f2.
  split; [| split; [| split]]; intros Hpr.
  - destruct (Z.ltb_spec p2 p1) as [_ | ?]; [| lia]. cbn [fst snd].
    split; [reflexivity | split; [reflexivity |]].
    intros. apply friction_floor_expand_id; assumption.
  - destruct (Z.ltb_spec p2 p1) as [? | _]; [lia |].
    destruct (Z.ltb_spec p1 p2) as [_ | ?]; [| lia]. cbn [fst snd].
    split; [reflexivity | split; [reflexivity |]].
    intros. apply friction_floor_expand_id; assumption.
  - destruct (Z.ltb_spec p2 p1) as [? | _]; [lia |].
    destruct (Z.ltb_spec p1 p2) as [? | _]; [lia |]. cbn [fst snd].
    split; [apply wp_max_int_max |].
    exists (vec3_max f1 f2). unfold vec3_max; cbn [vec3_0 vec3_1 vec3_2].
    repeat split; try apply wp_max_is_max.
  - intros solmix1 solmix2.
    destruct (Z.ltb_spec p2 p1); [split; reflexivity |].
    destruct (Z.ltb_spec p1 p2); [split; reflexivity | lia].
Qed.

(** ** The mix weight *)

Lemma solmix_weight_cases (solmix1 solmix2 : Q) :
  let w := solmix_weight solmix1 solmix2 in
  ((solmix1 < MJ_MINVAL)%Q -> (solmix2 < MJ_MINVAL)%Q -> w = (1 # 2)%Q) /\
  ((solmix1 < MJ_MINVAL)%Q -> (MJ_MINVAL <= solmix2)%Q -> w = 0%Q) /\
  ((MJ_MINVAL <= solmix1)%Q -> (solmix2 < MJ_MINVAL)%Q -> w = 1%Q) /\
  ((MJ_MINVAL <= solmix1)%Q -> (MJ_MINVAL <= solmix2)%Q ->
     w = (solmix1 / (solmix1 + solmix2))%Q).
Proof using safe_div_nonzero MJ_MINVAL_pos.
  cbv zeta. unfold solmix_weight, wp_where.
  repeat split; intros H1 H2.
  - apply Qltb_lt in H1 as E1. apply Qltb_lt in H2 as E2.
    apply Qleb_gt in H1 as E3. apply Qleb_gt in H2 as E4.
    rewrite E1, E2, E3, E4. reflexivity.
  - apply Qltb_lt in H1 as E1. apply Qleb_le in H2 as E2.
    apply Qleb_gt in H1 as E3. apply Qltb_ge in H2 as E4.
    rewrite E1, E2, E3, E4. reflexivity.
  - apply Qleb_le in H1 as E1. apply Qltb_lt in H2 as E2.
    rewrite E1, E2. reflexivity.
  - apply Qltb_ge in H1 as E1. apply Qltb_ge in H2 as E2. rewrite E1, E2.
    rewrite andb_false_r. cbn [andb].
    apply safe_div_nonzero. intros Hz.
    assert (Hs : (0 < solmix1 + solmix2)%Q).
    { apply Qlt_le_trans with (MJ_MINVAL + MJ_MINVAL)%Q.
      - rewrite <- (Qplus_0_l 0). apply Qplus_lt_le_compat; [exact MJ_MINVAL_pos |].
        apply Qlt_le_weak, MJ_MINVAL_pos.
      - apply Qplus_le_compat; assumption. }
    rewrite Hz in Hs. exact (Qlt_irrefl _ Hs).
Qed.

(** C6.  Without an override and with equal priorities the mix weight,
    the weight of geom 1 in the returned solimp, is
    [solmix1 / (solmix1 + solmix2)], except that it is 0.5 when both solmix
    values are below [MJ_MINVAL], 0 when only solmix1 is, and 1 when only
    solmix2 is. *)
Theorem contact_params_mix_weight (cid worldid : Z) :
  pair_override cid <= -1 ->
  aget geom_priority (pair_geom1 cid) = aget geom_priority (pair_geom2 cid) ->
  let solmix1 := read_solmix worldid (pair_geom1 cid) in
  let solmix2 := read_solmix worldid (pair_geom2 cid) in
  let mix := fst (fst (pair_mix cid worldid)) in
  ret_solimp (contact_params cid worldid) =
    vec5_add (vec5_scale mix (read_solimp worldid (pair_geom1 cid)))
             (vec5_scale (1 - mix) (read_solimp worldid (pair_geom2 cid))) /\
  ((solmix1 < MJ_MINVAL)%Q -> (solmix2 < MJ_MINVAL)%Q -> mix = (1 # 2)%Q) /\
  ((solmix1 < MJ_MINVAL)%Q -> (MJ_MINVAL <= solmix2)%Q -> mix = 0%Q) /\
  ((MJ_MINVAL <= solmix1)%Q -> (solmix2 < MJ_MINVAL)%Q -> mix = 1%Q) /\
  ((MJ_MINVAL <= solmix1)%Q -> (MJ_MINVAL <= solmix2)%Q ->
     mix = (solmix1 / (solmix1 + solmix2))%Q).
Proof using safe_div_nonzero MJ_MINVAL_pos.
  intros Hp Hpr solmix1 solmix2 mix.
  split.
  - rewrite contact_params_no_override by exact Hp. reflexivity.
  - assert (Hm : mix = solmix_weight solmix1 solmix2).
    { unfold mix, pair_mix, priority_mix. rewrite Hpr, Z.ltb_irrefl. reflexivity. }
    rewrite Hm. apply solmix_weight_cases.
Qed.

(** C7.  In the mixing branch, when the first solref component of both
    geometries is strictly positive the returned solref is
    [mix * solref1 + (1 - mix) * solref2]; otherwise, so also when a first
    component is exactly 0, it is the componentwise minimum of the two. *)
Theorem contact_params_solref (cid worldid : Z) :
  pair_override cid <= -1 ->
  let solref1 := read_solref worldid (pair_geom1 cid) in
  let solref2 := read_solref worldid (pair_geom2 cid) in
  let mix := fst (fst (pair_mix cid worldid)) in
  let solref := ret_solref (contact_params cid worldid) in
  ((0 < vec2_0 solref1)%Q -> (0 < vec2_0 solref2)%Q ->
     solref = vec2_add (vec2_scale mix solref1) (vec2_scale (1 - mix) solref2)) /\
  ((vec2_0 solref1 <= 0)%Q \/ (vec2_0 solref2 <= 0)%Q ->
     is_min (vec2_0 solref1) (vec2_0 solref2) (vec2_0 solref) /\
     is_min (vec2_1 solref1) (vec2_1 solref2) (vec2_1 solref)).
Proof.
  intros Hp solref1 solref2 mix solref.
  unfold solref. rewrite contact_params_no_override by exact Hp.
  unfold ret_solref. fold solref1 solref2 mix.
  split.
  - intros H1 H2. apply Qltb_lt in H1, H2. rewrite H1, H2. reflexivity.
  - intros H.
    assert (E : Qltb 0 (vec2_0 solref1) && Qltb 0 (vec2_0 solref2) = false).
    { apply andb_false_iff. destruct H as [H | H]; [left | right]; apply Qltb_ge; exact H. }
    rewrite E. unfold vec2_min; cbn [vec2_0 vec2_1].
    split; apply wp_min_is_min.
Qed.


(** ** World rows *)

(** [geom_collision_pair] reads the pose at row [worldid] and the size at
    row [worldid % geom_size.shape[0]]. *)
Lemma geom_collision_pair_pose_size (geoms : vec2i) (worldid : Z) :
  let r := geom_collision_pair geoms worldid in
  (Geom.pos (fst r) = aget2 geom_xpos_in worldid (vec2i_0 geoms) /\
   Geom.rot (fst r) = aget2 geom_xmat_in worldid (vec2i_0 geoms) /\
   Geom.size (fst r) = aget2 geom_size (world_row geom_size worldid) (vec2i_0 geoms)) /\
  (Geom.pos (snd r) = aget2 geom_xpos_in worldid (vec2i_1 geoms) /\
   Geom.rot (snd r) = aget2 geom_xmat_in worldid (vec2i_1 geoms) /\
   Geom.size (snd r) = aget2 geom_size (world_row geom_size worldid) (vec2i_1 geoms)).
Proof.
  unfold geom_collision_pair, world_row. cbv zeta. cbn [fst snd].
  destruct (aget geom_type (vec2i_0 geoms) =? GeomType_MESH);
    destruct (aget geom_type (vec2i_1 geoms) =? GeomType_MESH);
    repeat split; reflexivity.
Qed.

(** C1.  The override branch of [contact_params] reads the six pair
    tables at row [worldid] itself, whatever their number of rows: the row
    is not reduced modulo [shape[0]], as the mixing branch reduces it for
    every [geom_*] array (see [contact_params_no_override]).  A pair table
    with a single row is therefore read outside its only row in every
    world but world 0. *)
Theorem contact_params_override_row (cid worldid : Z) :
  -1 < pair_override cid ->
  let r := contact_params cid worldid in
  ret_margin r = aget2 pair_margin worldid (pair_override cid) /\
  ret_gap r = aget2 pair_gap worldid (pair_override cid) /\
  ret_friction r = friction_floor (aget2 pair_friction worldid (pair_override cid)) /\
  ret_solref r = aget2 pair_solref worldid (pair_override cid) /\
  ret_solreffriction r = aget2 pair_solreffriction worldid (pair_override cid) /\
  ret_solimp r = aget2 pair_solimp worldid (pair_override cid).
Proof.
  intros Hp. cbv zeta. rewrite contact_params_override by exact Hp.
  repeat split.
Qed.


(** ** Arrays *)

Lemma aget_aset_eq {T : Type} `{Inhabited T} (a : list T) (i : Z) (v : T) :
  0 <= i < shape0 a -> aget (aset a i v) i = v.
Proof.
  intros [H0 H1]. unfold aget, aset, shape0 in *.
  destruct (Z.leb_spec 0 i); [| lia].
  apply list_lookup_total_insert_eq. lia.
Qed.

Lemma aget_aset_ne {T : Type} `{Inhabited T} (a : list T) (i j : Z) (v : T) :
  i <> j -> aget (aset a i v) j = aget a j.
Proof.
  intros Hne. unfold aget, aset.
  destruct (Z.leb_spec 0 j); [| reflexivity].
  destruct (Z.leb_spec 0 i); [| reflexivity].
  apply list_lookup_total_insert_ne. lia.
Qed.

Lemma shape0_aset {T : Type} (a : list T) (i : Z) (v : T) :
  shape0 (aset a i v) = shape0 a.
Proof.
  unfold shape0, aset. destruct (0 <=? i); [| reflexivity].
  rewrite length_insert. reflexivity.
Qed.

(** ** The counter *)

Lemma int32_add_small (n : Z) :
  - 2 ^ 31 <= n + 1 <= INT32_MAX -> int32_add n 1 = n + 1.
Proof.
  unfold int32_add, int32_wrap, INT32_MAX. intros H.
  rewrite Z.mod_small; lia.
Qed.

Lemma int32_add_moves (n : Z) : int32_add n 1 <> n.
Proof.
  unfold int32_add, int32_wrap. intros H.
  pose proof (Z.div_mod (n + 1 + 2 ^ 31) (2 ^ 32) ltac:(lia)) as D.
  change (2 ^ 32) with 4294967296 in *. change (2 ^ 31) with 2147483648 in *.
  lia.
Qed.

(** ** [write_contact] *)

Lemma dropped_test (c : ContactIn) :
  dropped c <->
  ((vec2i_0 (pairid_in c) =? -2) || negb (Qltb (dist_in c) (margin_in c)))
    && (vec2i_1 (pairid_in c) =? -1) = true.
Proof.
  unfold dropped.
  rewrite andb_true_iff, orb_true_iff, negb_true_iff, !Z.eqb_eq, Qltb_ge.
  reflexivity.
Qed.

Lemma not_dropped_test (c : ContactIn) :
  ~ dropped c <->
  ((vec2i_0 (pairid_in c) =? -2) || negb (Qltb (dist_in c) (margin_in c)))
    && (vec2i_1 (pairid_in c) =? -1) = false.
Proof. rewrite dropped_test. apply not_true_iff_false. Qed.

Lemma contact_type_lor (a b : bool) :
  (if b
   then Z.lor (if a then Z.lor 0 ContactType_CONSTRAINT else 0) ContactType_SENSOR
   else if a then Z.lor 0 ContactType_CONSTRAINT else 0) =
  Z.lor (if a then ContactType_CONSTRAINT else 0) (if b then ContactType_SENSOR else 0).
Proof. destruct a, b; rewrite ?Z.lor_0_l, ?Z.lor_0_r; reflexivity. Qed.

(** One call that is not dropped: the counter moves, the slot [nacon_out]
    receives the record when it is below [naconmax_in], every other slot
    is kept. *)
Lemma write_contact_in_step (naconmax_in : Z) (c : ContactIn) (out : ContactOut) :
  ~ dropped c ->
  let res := write_contact_in naconmax_in c out in
  nacon_out (snd res) = int32_add (nacon_out out) 1 /\
  (forall n, contact_capacity n out -> contact_capacity n (snd res)) /\
  (0 <= nacon_out out < naconmax_in -> contact_capacity naconmax_in out ->
     fst res = int_of_bool (Qltb (dist_in c) (margin_in c)) /\
     record_at (snd res) (nacon_out out) = record_of c) /\
  (naconmax_in <= nacon_out out ->
     fst res = 0 /\ contact_arrays (snd res) = contact_arrays out) /\
  (forall j, j <> nacon_out out -> record_at (snd res) j = record_at out j).
Proof.
  intros Hnd. apply not_dropped_test in Hnd.
  unfold write_contact_in, write_contact. cbv zeta. rewrite Hnd.
  destruct (Z.ltb_spec (nacon_out out) naconmax_in) as [Hlt | Hge]; cbn [fst snd nacon_out].
  - split; [reflexivity |]. split; [| split; [| split]].
    + unfold contact_capacity; cbn. rewrite !shape0_aset. tauto.
    + intros [H0 _] Hcap. split; [reflexivity |].
      unfold contact_capacity in Hcap.
      destruct Hcap as (C1 & C2 & C3 & C4 & C5 & C6 & C7 & C8 & C9 & C10 & C11 & C12 & C13).
      unfold record_at, record_of; cbn.
      rewrite !aget_aset_eq by lia.
      rewrite contact_type_lor. reflexivity.
    + intros Hge. lia.
    + intros j Hj. unfold record_at; cbn.
      rewrite !aget_aset_ne by congruence. reflexivity.
  - split; [reflexivity |]. split; [| split; [| split]].
    + unfold contact_capacity; cbn. tauto.
    + intros [_ Hlt] _. lia.
    + intros _. split; reflexivity.
    + intros j _. reflexivity.
Qed.

(** C2.  A call is dropped early, returning 0 with every output array and
    the counter [nacon_out] unchanged, if and only if
    [(pairid_in[0] == -2 or dist_in >= margin_in) and pairid_in[1] == -1];
    in every other case the counter is incremented exactly once. *)
Theorem write_contact_drop_iff (naconmax_in : Z) (c : ContactIn) (out : ContactOut) :
  let res := write_contact_in naconmax_in c out in
  (res = (0, out) <->
     (vec2i_0 (pairid_in c) = -2 \/ (margin_in c <= dist_in c)%Q) /\
     vec2i_1 (pairid_in c) = -1) /\
  (~ ((vec2i_0 (pairid_in c) = -2 \/ (margin_in c <= dist_in c)%Q) /\
      vec2i_1 (pairid_in c) = -1) ->
     nacon_out (snd res) = int32_add (nacon_out out) 1 /\
     (- 2 ^ 31 <= nacon_out out < INT32_MAX -> nacon_out (snd res) = nacon_out out + 1)).
Proof.
  cbv zeta. fold (dropped c).
  assert (Hd : dropped c -> write_contact_in naconmax_in c out = (0, out)).
  { intros Hd. apply dropped_test in Hd.
    unfold write_contact_in, write_contact. cbv zeta. rewrite Hd. reflexivity. }
  assert (Hn : ~ dropped c ->
               nacon_out (snd (write_contact_in naconmax_in c out)) =
               int32_add (nacon_out out) 1).
  { intros Hnd. apply (write_contact_in_step naconmax_in c out Hnd). }
  split; [split |].
  - intros Heq.
    destruct (dropped_test c) as [_ Hback].
    destruct (((vec2i_0 (pairid_in c) =? -2) || negb (Qltb (dist_in c) (margin_in c)))
              && (vec2i_1 (pairid_in c) =? -1)) eqn:E; [apply Hback; reflexivity |].
    exfalso. apply not_dropped_test in E. specialize (Hn E).
    rewrite Heq in Hn. cbn in Hn. symmetry in Hn. exact (int32_add_moves _ Hn).
  - exact Hd.
  - intros Hnd. split; [exact (Hn Hnd) |].
    intros Hr. rewrite (Hn Hnd). apply int32_add_small. unfold INT32_MAX in *. lia.
Qed.


(** A sequence of calls none of which is dropped, from any counter value. *)
Lemma write_contacts_from (naconmax_in : Z) (cs : list ContactIn) :
  forall out : ContactOut,
  Forall (fun c => ~ dropped c) cs ->
  0 <= nacon_out out ->
  nacon_out out + Z.of_nat (length cs) <= INT32_MAX ->
  contact_capacity naconmax_in out ->
  let out' := write_contacts naconmax_in cs out in
  nacon_out out' = nacon_out out + Z.of_nat (length cs) /\
  (forall (i : nat) (c : ContactIn),
     cs !! i = Some c -> nacon_out out + Z.of_nat i < naconmax_in ->
     record_at out' (nacon_out out + Z.of_nat i) = record_of c) /\
  (forall j, j < nacon_out out \/ naconmax_in <= j ->
     record_at out' j = record_at out j).
Proof.
  induction cs as [| c cs IH]; intros out Hnd H0 Hmax Hcap; cbn [write_contacts].
  - cbn. split; [lia |]. split; [intros i c Hi; discriminate | reflexivity].
  - inversion Hnd as [| ? ? Hc Hcs]; subst.
    destruct (write_contact_in_step naconmax_in c out Hc)
      as (Hn & Hcap' & Hin & Hfull & Hother).
    set (out1 := snd (write_contact_in naconmax_in c out)) in *.
    cbn [length] in Hmax.
    assert (Hn1 : nacon_out out1 = nacon_out out + 1).
    { rewrite Hn. apply int32_add_small. unfold INT32_MAX in *. lia. }
    destruct (IH out1 Hcs ltac:(lia) ltac:(lia) (Hcap' _ Hcap)) as (IHn & IHrec & IHkeep).
    cbv zeta. split; [| split].
    + rewrite IHn, Hn1. cbn [length]. lia.
    + intros [| i] c' Hi Hlt.
      * cbn in Hi. injection Hi as <-. rewrite Z.add_0_r in *.
        rewrite IHkeep by lia.
        apply Hin; [lia | exact Hcap].
      * cbn in Hi. specialize (IHrec i c' Hi).
        replace (nacon_out out + Z.of_nat (S i)) with (nacon_out out1 + Z.of_nat i) by lia.
        apply IHrec. lia.
    + intros j Hj. rewrite IHkeep by lia.
      destruct (Z.eq_dec j (nacon_out out)) as [-> | Hne]; [| apply Hother; exact Hne].
      destruct Hj as [Hj | Hj]; [lia |].
      destruct (Hfull Hj) as [_ Harr].
      unfold contact_arrays in Harr. unfold record_at.
      injection Harr as -> -> -> -> -> -> -> -> -> -> -> -> ->. reflexivity.
Qed.

(** C3.  A call that is not dropped and reserves an index below
    [naconmax_in] writes the full record at that index, with
    [includemargin = margin_in - gap_in], and returns 1 if
    [dist_in < margin_in] and 0 otherwise.  A call that is not dropped and
    reserves an index at or beyond [naconmax_in] writes no output array and
    returns 0; the counter still moves.  Hence [naconmax_in + K] calls that
    are not dropped, started from an empty buffer, leave the counter at
    [naconmax_in + K], the first [naconmax_in] records in the slots
    [0 .. naconmax_in - 1], and every slot from [naconmax_in] on as it was. *)
Theorem write_contact_capacity (naconmax_in : Z) :
  (forall (c : ContactIn) (out : ContactOut),
     ~ dropped c -> 0 <= nacon_out out < naconmax_in ->
     contact_capacity naconmax_in out ->
     let res := write_contact_in naconmax_in c out in
     record_at (snd res) (nacon_out out) = record_of c /\
     r_includemargin (record_at (snd res) (nacon_out out)) = (margin_in c - gap_in c)%Q /\
     ((dist_in c < margin_in c)%Q -> fst res = 1) /\
     ((margin_in c <= dist_in c)%Q -> fst res = 0) /\
     nacon_out (snd res) = int32_add (nacon_out out) 1) /\
  (forall (c : ContactIn) (out : ContactOut),
     ~ dropped c -> naconmax_in <= nacon_out out ->
     let res := write_contact_in naconmax_in c out in
     fst res = 0 /\ contact_arrays (snd res) = contact_arrays out /\
     nacon_out (snd res) = int32_add (nacon_out out) 1) /\
  (forall (cs : list ContactIn) (out : ContactOut) (K : Z),
     Forall (fun c => ~ dropped c) cs ->
     0 <= naconmax_in -> 0 <= K ->
     Z.of_nat (length cs) = naconmax_in + K ->
     naconmax_in + K <= INT32_MAX ->
     nacon_out out = 0 ->
     contact_capacity naconmax_in out ->
     let out' := write_contacts naconmax_in cs out in
     nacon_out out' = naconmax_in + K /\
     (forall (i : nat) (c : ContactIn),
        cs !! i = Some c -> Z.of_nat i < naconmax_in ->
        record_at out' (Z.of_nat i) = record_of c) /\
     (forall j, naconmax_in <= j -> record_at out' j = record_at out j)).
Proof.
  split; [| split].
  - intros c out Hnd Hr Hcap. cbv zeta.
    destruct (write_contact_in_step naconmax_in c out Hnd)
      as (Hn & _ & Hin & _ & _).
    destruct (Hin Hr Hcap) as [Hret Hrec].
    split; [exact Hrec |]. split; [rewrite Hrec; reflexivity |].
    split; [| split; [| exact Hn]].
    + intros Hlt. apply Qltb_lt in Hlt. rewrite Hret, Hlt. reflexivity.
    + intros Hge. apply Qltb_ge in Hge. rewrite Hret, Hge. reflexivity.
  - intros c out Hnd Hge. cbv zeta.
    destruct (write_contact_in_step naconmax_in c out Hnd)
      as (Hn & _ & _ & Hfull & _).
    destruct (Hfull Hge) as [Hret Harr]. auto.
  - intros cs out K Hnd Hcap0 HK Hlen Hmax Hz Hcap.
    destruct (write_contacts_from naconmax_in cs out Hnd ltac:(lia) ltac:(lia) Hcap)
      as (Hn & Hrec & Hkeep).
    cbv zeta. split; [lia |]. split.
    + intros i c Hi Hlt. specialize (Hrec i c Hi). rewrite Hz in Hrec.
      apply Hrec. lia.
    + intros j Hj. apply Hkeep. right. exact Hj.
Qed.

(** ** Contact type flags *)

Lemma record_of_flags (c : ContactIn) :
  (flag_set ContactType_CONSTRAINT (r_type (record_of c)) <->
     -1 <= vec2i_0 (pairid_in c) /\ (dist_in c < margin_in c)%Q) /\
  (flag_set ContactType_SENSOR (r_type (record_of c)) <-> 0 <= vec2i_1 (pairid_in c)).
Proof using CONSTRAINT_nonzero SENSOR_nonzero flags_disjoint.
  unfold flag_set, record_of; cbn [r_type].
  rewrite <- Qltb_lt.
  assert (Hd' : Z.land ContactType_SENSOR ContactType_CONSTRAINT = 0)
    by (rewrite Z.land_comm; exact flags_disjoint).
  destruct (Z.leb_spec (-1) (vec2i_0 (pairid_in c)));
    destruct (Qltb (dist_in c) (margin_in c));
    destruct (Z.leb_spec 0 (vec2i_1 (pairid_in c)));
    cbn [andb]; rewrite !Z.land_lor_distr_l, ?Z.land_diag, ?Z.land_0_l,
      ?flags_disjoint, ?Hd', ?Z.lor_0_l, ?Z.lor_0_r;
    split; split; intros; try lia; try congruence; intuition (try lia; try discriminate).
Qed.

(** C8.  The type field of a committed record has the CONSTRAINT flag iff
    [pairid_in[0] >= -1] and [dist_in < margin_in], and the SENSOR flag iff
    [pairid_in[1] >= 0].  A candidate with [pairid_in = (-2, s)], [s >= 0],
    and [dist_in >= margin_in] is not dropped: it is written with SENSOR
    set and CONSTRAINT clear, and the call returns 0. *)
Theorem write_contact_type_flags (naconmax_in : Z) (c : ContactIn) (out : ContactOut) :
  0 <= nacon_out out < naconmax_in ->
  contact_capacity naconmax_in out ->
  let res := write_contact_in naconmax_in c out in
  let type := r_type (record_at (snd res) (nacon_out out)) in
  (~ dropped c ->
     (flag_set ContactType_CONSTRAINT type <->
        -1 <= vec2i_0 (pairid_in c) /\ (dist_in c < margin_in c)%Q) /\
     (flag_set ContactType_SENSOR type <-> 0 <= vec2i_1 (pairid_in c))) /\
  (vec2i_0 (pairid_in c) = -2 -> 0 <= vec2i_1 (pairid_in c) ->
   (margin_in c <= dist_in c)%Q ->
     record_at (snd res) (nacon_out out) = record_of c /\
     nacon_out (snd res) = int32_add (nacon_out out) 1 /\
     flag_set ContactType_SENSOR type /\
     ~ flag_set ContactType_CONSTRAINT type /\
     fst res = 0).
Proof using CONSTRAINT_nonzero SENSOR_nonzero flags_disjoint.
  intros Hr Hcap. cbv zeta.
  assert (Hstep : ~ dropped c ->
    fst (write_contact_in naconmax_in c out) = int_of_bool (Qltb (dist_in c) (margin_in c)) /\
    record_at (snd (write_contact_in naconmax_in c out)) (nacon_out out) = record_of c /\
    nacon_out (snd (write_contact_in naconmax_in c out)) = int32_add (nacon_out out) 1).
  { intros Hnd.
    destruct (write_contact_in_step naconmax_in c out Hnd) as (Hn & _ & Hin & _ & _).
    destruct (Hin Hr Hcap) as [Hret Hrec]. auto. }
  split.
  - intros Hnd. destruct (Hstep Hnd) as (_ & Hrec & _).
    rewrite Hrec. apply record_of_flags.
  - intros Hp0 Hp1 Hge.
    assert (Hnd : ~ dropped c) by (unfold dropped; lia).
    destruct (Hstep Hnd) as (Hret & Hrec & Hn).
    rewrite Hrec. destruct (record_of_flags c) as [HC HS].
    split; [reflexivity |]. split; [exact Hn |].
    split; [apply HS; exact Hp1 |].
    split; [rewrite HC; lia |].
    rewrite Hret. apply Qltb_ge in Hge. rewrite Hge. reflexivity.
Qed.


(** * Further properties of the collision core *)

(** ** The mix weight is a weight *)

Lemma solmix_weight_range (solmix1 solmix2 : Q) :
  (0 <= solmix_weight solmix1 solmix2)%Q /\ (solmix_weight solmix1 solmix2 <= 1)%Q.
Proof using safe_div_nonzero MJ_MINVAL_pos.
  destruct (solmix_weight_cases solmix1 solmix2) as (Hb & H0 & H1 & Hd).
  cbv zeta in *.
  destruct (Qlt_le_dec solmix1 MJ_MINVAL) as [L1 | G1];
    destruct (Qlt_le_dec solmix2 MJ_MINVAL) as [L2 | G2].
  - rewrite (Hb L1 L2). split; discriminate.
  - rewrite (H0 L1 G2). split; discriminate.
  - rewrite (H1 G1 L2). split; discriminate.
  - rewrite (Hd G1 G2).
    assert (P1 : (0 < solmix1)%Q) by exact (Qlt_le_trans _ _ _ MJ_MINVAL_pos G1).
    assert (P2 : (0 < solmix2)%Q) by exact (Qlt_le_trans _ _ _ MJ_MINVAL_pos G2).
    assert (Ps : (0 < solmix1 + solmix2)%Q) by lra.
    split.
    + apply Qle_shift_div_l; [exact Ps | lra].
    + apply Qle_shift_div_r; [exact Ps | lra].
Qed.

(** X4.  Whatever the priorities and the solmix values, negative ones
    included, the mix weight chosen by the priority block is between 0
    and 1. *)
Theorem priority_mix_weight_range (solmix1 solmix2 : Q) (condim1 condim2 p1 p2 : Z)
  (friction1 friction2 : vec3) :
  let mix := fst (fst (priority_mix solmix1 solmix2 condim1 condim2 p1 p2
                         friction1 friction2)) in
  (0 <= mix)%Q /\ (mix <= 1)%Q.
Proof using safe_div_nonzero MJ_MINVAL_pos.
  cbv zeta. unfold priority_mix.
  destruct (p2 <? p1); [cbn; split; discriminate |].
  destruct (p1 <? p2); [cbn; split; discriminate |].
  cbn [fst]. apply solmix_weight_range.
Qed.

(** ** More on [write_contact] *)

Lemma droppedb_dropped (c : ContactIn) : droppedb c = true <-> dropped c.
Proof. symmetry. apply dropped_test. Qed.

Lemma droppedb_not_dropped (c : ContactIn) : droppedb c = false <-> ~ dropped c.
Proof. symmetry. apply not_dropped_test. Qed.

Lemma write_contact_in_dropped (naconmax_in : Z) (c : ContactIn) (out : ContactOut) :
  droppedb c = true -> write_contact_in naconmax_in c out = (0, out).
Proof.
  intros Hd. unfold droppedb in Hd.
  unfold write_contact_in, write_contact. cbv zeta. rewrite Hd. reflexivity.
Qed.

(** X1.  [write_contact] returns 0 or 1, and it returns 1 exactly when the
    contact is active, the call is not dropped and the reserved index is
    below [naconmax_in]: an active contact that overflows the buffer, or
    that is dropped because the pair wants no constraint and has no sensor,
    gives 0. *)
Theorem write_contact_return (naconmax_in : Z) (c : ContactIn) (out : ContactOut) :
  let ret := fst (write_contact_in naconmax_in c out) in
  (ret = 0 \/ ret = 1) /\
  (ret = 1 <->
     (dist_in c < margin_in c)%Q /\ ~ dropped c /\ nacon_out out < naconmax_in).
Proof.
  cbv zeta. rewrite <- Qltb_lt, <- droppedb_not_dropped.
  unfold droppedb, write_contact_in, write_contact. cbv zeta.
  destruct (((vec2i_0 (pairid_in c) =? -2) || negb (Qltb (dist_in c) (margin_in c)))
            && (vec2i_1 (pairid_in c) =? -1)); cbn [fst].
  - split; [left; reflexivity |].
    split; [discriminate | intros (_ & Hd & _); discriminate Hd].
  - destruct (Z.ltb_spec (nacon_out out) naconmax_in) as [Hlt | Hge]; cbn [fst].
    + destruct (Qltb (dist_in c) (margin_in c)); cbn.
      * split; [right; reflexivity | tauto].
      * split; [left; reflexivity |].
        split; [discriminate | intros (Ha & _); discriminate Ha].
    + split; [left; reflexivity |].
      split; [discriminate | intros (_ & _ & Hlt); lia].
Qed.

(** X2.  A call of [write_contact], dropped or not, keeps the shape of every
    output array and every slot other than the one at the old counter
    value. *)
Theorem write_contact_frame (naconmax_in : Z) (c : ContactIn) (out : ContactOut) :
  let out' := snd (write_contact_in naconmax_in c out) in
  contact_shapes out' = contact_shapes out /\
  (forall j, j <> nacon_out out -> record_at out' j = record_at out j).
Proof.
  cbv zeta. destruct (droppedb c) eqn:Hd.
  - rewrite write_contact_in_dropped by exact Hd. split; reflexivity.
  - apply droppedb_not_dropped in Hd.
    destruct (write_contact_in_step naconmax_in c out Hd) as (_ & _ & _ & _ & Hother).
    split; [| exact Hother].
    apply not_dropped_test in Hd.
    unfold write_contact_in, write_contact, contact_shapes. cbv zeta. rewrite Hd.
    destruct (nacon_out out <? naconmax_in); cbn; rewrite ?shape0_aset; reflexivity.
Qed.

Lemma write_contacts_live_calls (naconmax_in : Z) (cs : list ContactIn) :
  forall out : ContactOut,
  write_contacts naconmax_in cs out = write_contacts naconmax_in (live_calls cs) out.
Proof.
  unfold live_calls.
  induction cs as [| c cs IH]; intros out; [reflexivity |].
  cbn [write_contacts List.filter]. destruct (droppedb c) eqn:Hd; cbn [negb].
  - rewrite write_contact_in_dropped by exact Hd. cbn [snd]. apply IH.
  - cbn [write_contacts]. apply IH.
Qed.

Lemma write_contacts_counter (naconmax_in : Z) (cs : list ContactIn) :
  forall out : ContactOut,
  Forall (fun c => ~ dropped c) cs ->
  - 2 ^ 31 <= nacon_out out ->
  nacon_out out + Z.of_nat (length cs) <= INT32_MAX ->
  let out' := write_contacts naconmax_in cs out in
  nacon_out out' = nacon_out out + Z.of_nat (length cs) /\
  (forall j, j < nacon_out out -> record_at out' j = record_at out j).
Proof.
  induction cs as [| c cs IH]; intros out Hnd H0 Hmax; cbn [write_contacts].
  - cbn. split; [lia | reflexivity].
  - inversion Hnd as [| ? ? Hc Hcs]; subst.
    destruct (write_contact_in_step naconmax_in c out Hc) as (Hn & _ & _ & _ & Hother).
    set (out1 := snd (write_contact_in naconmax_in c out)) in *.
    cbn [length] in Hmax.
    assert (Hn1 : nacon_out out1 = nacon_out out + 1).
    { rewrite Hn. apply int32_add_small. unfold INT32_MAX in *. lia. }
    destruct (IH out1 Hcs ltac:(lia) ltac:(lia)) as (IHn & IHkeep).
    cbv zeta. split.
    + rewrite IHn, Hn1. cbn [length]. lia.
    + intros j Hj. rewrite IHkeep by lia. apply Hother. lia.
Qed.

(** X3.  In any sequence of calls the dropped ones are invisible: the
    result is that of the calls that are not dropped.  While the counter
    stays in the int32 range it ends at its old value plus the number of
    calls that are not dropped, and no slot below its old value is
    written again. *)
Theorem write_contacts_live (naconmax_in : Z) (cs : list ContactIn) (out : ContactOut) :
  let out' := write_contacts naconmax_in cs out in
  out' = write_contacts naconmax_in (live_calls cs) out /\
  (- 2 ^ 31 <= nacon_out out ->
   nacon_out out + Z.of_nat (length (live_calls cs)) <= INT32_MAX ->
   nacon_out out' = nacon_out out + Z.of_nat (length (live_calls cs)) /\
   (forall j, j < nacon_out out -> record_at out' j = record_at out j)).
Proof.
  cbv zeta. split; [apply write_contacts_live_calls |].
  intros H0 Hmax. rewrite write_contacts_live_calls.
  apply write_contacts_counter; [| exact H0 | exact Hmax].
  unfold live_calls. apply List.Forall_forall. intros c Hc.
  apply List.filter_In in Hc. destruct Hc as [_ Hc].
  apply droppedb_not_dropped. apply negb_true_iff. exact Hc.
Qed.

(** ** More on [geom_collision_pair] *)

(** The two views are built independently: exchanging the two geoms
    of the pair exchanges the two views. *)
Theorem geom_collision_pair_swap (g1 g2 worldid : Z) :
  geom_collision_pair (Vec2i g2 g1) worldid =
  (snd (geom_collision_pair (Vec2i g1 g2) worldid),
   fst (geom_collision_pair (Vec2i g1 g2) worldid)).
Proof.
  unfold geom_collision_pair. cbv zeta. cbn [vec2i_0 vec2i_1 fst snd].
  reflexivity.
Qed.

End CollisionCore.

(** * The order of the two geoms of a pair *)

Lemma Qltb_proper (a a' b b' : Q) :
  (a == a')%Q -> (b == b')%Q -> Qltb a b = Qltb a' b'.
Proof.
  intros Ha Hb.
  destruct (Qltb a' b') eqn:E.
  - apply Qltb_lt. apply Qltb_lt in E. rewrite Ha, Hb. exact E.
  - apply Qltb_ge. apply Qltb_ge in E. rewrite Ha, Hb. exact E.
Qed.

Lemma wp_max_proper (a a' b b' : Q) :
  (a == a')%Q -> (b == b')%Q -> (wp_max a b == wp_max a' b')%Q.
Proof.
  intros Ha Hb. unfold wp_max. rewrite (Qltb_proper b b' a a' Hb Ha).
  destruct (Qltb b' a'); assumption.
Qed.

Lemma wp_max_comm (a b : Q) : (wp_max a b == wp_max b a)%Q.
Proof.
  unfold wp_max.
  destruct (Qltb b a) eqn:E1; destruct (Qltb a b) eqn:E2; try reflexivity.
  - apply Qltb_lt in E1, E2. lra.
  - apply Qltb_ge in E1, E2. lra.
Qed.

Lemma wp_min_comm (a b : Q) : (wp_min a b == wp_min b a)%Q.
Proof.
  unfold wp_min.
  destruct (Qltb b a) eqn:E1; destruct (Qltb a b) eqn:E2; try reflexivity.
  - apply Qltb_lt in E1, E2. lra.
  - apply Qltb_ge in E1, E2. lra.
Qed.

Section ContactSymmetry.

Variables (MJ_MINMU MJ_MINVAL : Q) (safe_div : Q -> Q -> Q).

(** Exchanging the two geoms in the priority block: [condim] and the
    friction stay. *)
Lemma priority_mix_swap (solmix1 solmix2 : Q) (condim1 condim2 p1 p2 : Z)
  (friction1 friction2 : vec3) :
  let r := priority_mix MJ_MINVAL safe_div solmix1 solmix2 condim1 condim2 p1 p2
             friction1 friction2 in
  let r' := priority_mix MJ_MINVAL safe_div solmix2 solmix1 condim2 condim1 p2 p1
              friction2 friction1 in
  snd (fst r') = snd (fst r) /\ vec3_eq (snd r') (snd r).
Proof.
  cbv zeta. unfold priority_mix.
  destruct (Z.ltb_spec p2 p1) as [H21 | H21]; destruct (Z.ltb_spec p1 p2) as [H12 | H12];
    try lia; cbn [fst snd].
  - repeat split; reflexivity.
  - repeat split; reflexivity.
  - split.
    + rewrite !wp_max_int_max. lia.
    + unfold vec3_eq, vec3_max. cbn. repeat split; apply wp_max_comm.
Qed.

(** With different priorities the weight is 1 for the geom that wins and 0
    for the other, in either order. *)
Lemma priority_mix_winner (solmix1 solmix2 : Q) (condim1 condim2 p1 p2 : Z)
  (friction1 friction2 : vec3) :
  p1 <> p2 ->
  let r := priority_mix MJ_MINVAL safe_div solmix1 solmix2 condim1 condim2 p1 p2
             friction1 friction2 in
  let r' := priority_mix MJ_MINVAL safe_div solmix2 solmix1 condim2 condim1 p2 p1
              friction2 friction1 in
  (fst (fst r) = 1%Q /\ fst (fst r') = 0%Q) \/ (fst (fst r) = 0%Q /\ fst (fst r') = 1%Q).
Proof.
  intros Hne. cbv zeta. unfold priority_mix.
  destruct (Z.ltb_spec p2 p1) as [H21 | H21]; destruct (Z.ltb_spec p1 p2) as [H12 | H12];
    try lia; cbn [fst snd]; [left | right]; split; reflexivity.
Qed.

Variable geom_condim : list Z.
Variable geom_priority : list Z.
Variable geom_solmix : list (list Q).
Variable geom_solref : list (list vec2).
Variable geom_solimp : list (list vec5).
Variable geom_friction : list (list vec3).
Variable geom_margin : list (list Q).
Variable geom_gap : list (list Q).
Variable pair_dim : list Z.
Variable pair_solref : list (list vec2).
Variable pair_solreffriction : list (list vec2).
Variable pair_solimp : list (list vec5).
Variable pair_margin : list (list Q).
Variable pair_gap : list (list Q).
Variable pair_friction : list (list vec5).
Variable collision_pairid_in : list vec2i.

Local Abbreviation params collision_pair_in :=
  (contact_params MJ_MINMU MJ_MINVAL safe_div geom_condim geom_priority geom_solmix
     geom_solref geom_solimp geom_friction geom_margin geom_gap pair_dim pair_solref
     pair_solreffriction pair_solimp pair_margin pair_gap pair_friction
     collision_pair_in collision_pairid_in).

(** X6.  Without an override, a candidate list that names the two geoms
    of the pair the other way round gives the same margin, gap, condim,
    friction and solreffriction; the same solref when the two first solref
    components are not both positive (the minimum is taken); and, when the
    two priorities differ, the same solref and solimp.  Rational components
    are equal as numbers.  With equal priorities the mixed solref and
    solimp are left out: there the two orders compute
    [mix * a + (1 - mix) * b] with complementary weights. *)
Theorem contact_params_symmetric (collision_pair_in collision_pair_in' : list vec2i)
  (cid worldid : Z) :
  pair_override collision_pairid_in cid <= -1 ->
  aget collision_pair_in' cid =
    Vec2i (vec2i_1 (aget collision_pair_in cid)) (vec2i_0 (aget collision_pair_in cid)) ->
  let g1 := pair_geom1 collision_pair_in cid in
  let g2 := pair_geom2 collision_pair_in cid in
  let r := params collision_pair_in cid worldid in
  let r' := params collision_pair_in' cid worldid in
  ((ret_margin r' == ret_margin r)%Q /\ (ret_gap r' == ret_gap r)%Q /\
   ret_condim r' = ret_condim r /\
   vec5_eq (ret_friction r') (ret_friction r) /\
   ret_solreffriction r' = ret_solreffriction r) /\
  (~ ((0 < vec2_0 (read_solref geom_solref worldid g1))%Q /\
      (0 < vec2_0 (read_solref geom_solref worldid g2))%Q) ->
   vec2_eq (ret_solref r') (ret_solref r)) /\
  (aget geom_priority g1 <> aget geom_priority g2 ->
   vec2_eq (ret_solref r') (ret_solref r) /\
   vec5_eq (ret_solimp r') (ret_solimp r)).
Proof.
  intros Hp Hswap. cbv zeta.
  rewrite !contact_params_no_override by exact Hp.
  unfold ret_margin, ret_gap, ret_condim, ret_friction, ret_solref,
    ret_solreffriction, ret_solimp.
  unfold pair_mix, pair_geom1, pair_geom2. rewrite Hswap. cbn [vec2i_0 vec2i_1].
  set (g1 := vec2i_0 (aget collision_pair_in cid)).
  set (g2 := vec2i_1 (aget collision_pair_in cid)).
  destruct (priority_mix_swap
              (read_solmix geom_solmix worldid g1) (read_solmix geom_solmix worldid g2)
              (aget geom_condim g1) (aget geom_condim g2)
              (aget geom_priority g1) (aget geom_priority g2)
              (read_friction geom_friction worldid g1)
              (read_friction geom_friction worldid g2)) as (Hc & Hf1 & Hf2 & Hf3).
  pose proof (priority_mix_winner
              (read_solmix geom_solmix worldid g1) (read_solmix geom_solmix worldid g2)
              (aget geom_condim g1) (aget geom_condim g2)
              (aget geom_priority g1) (aget geom_priority g2)
              (read_friction geom_friction worldid g1)
              (read_friction geom_friction worldid g2)) as Hw.
  cbv zeta in Hw.
  set (r := priority_mix MJ_MINVAL safe_div
              (read_solmix geom_solmix worldid g1) (read_solmix geom_solmix worldid g2)
              (aget geom_condim g1) (aget geom_condim g2)
              (aget geom_priority g1) (aget geom_priority g2)
              (read_friction geom_friction worldid g1)
              (read_friction geom_friction worldid g2)) in *.
  set (r' := priority_mix MJ_MINVAL safe_div
              (read_solmix geom_solmix worldid g2) (read_solmix geom_solmix worldid g1)
              (aget geom_condim g2) (aget geom_condim g1)
              (aget geom_priority g2) (aget geom_priority g1)
              (read_friction geom_friction worldid g2)
              (read_friction geom_friction worldid g1)) in *.
  rewrite (andb_comm (Qltb 0 (vec2_0 (read_solref geom_solref worldid g2)))).
  split; [| split].
  - split; [apply Qplus_comm |]. split; [apply Qplus_comm |]. split; [exact Hc |].
    split; [| reflexivity].
    unfold vec5_eq, friction_floor, expand_friction. cbn.
    repeat split; apply wp_max_proper; try reflexivity; assumption.
  - intros Hneg.
    destruct (Qltb 0 (vec2_0 (read_solref geom_solref worldid g1))) eqn:E1;
      destruct (Qltb 0 (vec2_0 (read_solref geom_solref worldid g2))) eqn:E2;
      cbn [andb];
      try (unfold vec2_eq, vec2_min; cbn; split; apply wp_min_comm).
    exfalso. apply Hneg. split; apply Qltb_lt; assumption.
  - intros Hne. specialize (Hw Hne).
    assert (Hlerp : forall a b : Q,
              (fst (fst r') * b + (1 - fst (fst r')) * a ==
               fst (fst r) * a + (1 - fst (fst r)) * b)%Q).
    { intros a b. destruct Hw as [[-> ->] | [-> ->]]; ring. }
    split.
    + destruct (Qltb 0 (vec2_0 (read_solref geom_solref worldid g1)) &&
                Qltb 0 (vec2_0 (read_solref geom_solref worldid g2))).
      * unfold vec2_eq. cbn. split; apply Hlerp.
      * unfold vec2_eq, vec2_min. cbn. split; apply wp_min_comm.
    + unfold vec5_eq. cbn. repeat split; apply Hlerp.
Qed.

End ContactSymmetry.

(** * The small model *)

Local Abbreviation ex_geom_collision_pair :=
  (geom_collision_pair ex_MESH ex_geom_type ex_geom_dataid ex_geom_size
     ex_mesh_vertadr ex_mesh_vertnum ex_mesh_graphadr [] [] ex_mesh_polynum
     ex_mesh_polyadr [] [] [] [] [] [] [] ex_geom_xpos ex_geom_xmat).

Local Abbreviation ex_contact_params :=
  (contact_params ex_MJ_MINMU ex_MJ_MINVAL ex_safe_div ex_geom_condim
     ex_geom_priority ex_geom_solmix ex_geom_solref ex_geom_solimp
     ex_geom_friction ex_geom_margin ex_geom_gap ex_pair_dim ex_pair_solref
     ex_pair_solreffriction ex_pair_solimp ex_pair_margin ex_pair_gap
     ex_pair_friction ex_collision_pair ex_collision_pairid).

Local Abbreviation ex_write_contact_in := (write_contact_in ex_CONSTRAINT ex_SENSOR).
Local Abbreviation ex_write_contacts := (write_contacts ex_CONSTRAINT ex_SENSOR).
Local Abbreviation ex_record_of := (record_of ex_CONSTRAINT ex_SENSOR).

Lemma ex_safe_div_nonzero (x y : Q) : ~ (y == 0)%Q -> ex_safe_div x y = (x / y)%Q.
Proof.
  intros Hy. unfold ex_safe_div, wp_where.
  destruct (Qeq_bool y 0) eqn:E; [| reflexivity].
  apply Qeq_bool_eq in E. contradiction.
Defined.

(** C9 on the small model: geom 0 is a mesh without data, geom 1 a mesh
    with data id 0. *)
Lemma geom_collision_pair_mesh_sentinel_witness :
  mesh_fields (fst (ex_geom_collision_pair (Vec2i 0 1) 0)) = (-1, -1, -1, -1, -1) /\
  mesh_fields (snd (ex_geom_collision_pair (Vec2i 0 1) 0)) = (10, 8, 3, 6, 4).
Proof.
  pose proof (geom_collision_pair_mesh_sentinel ex_MESH ex_geom_type ex_geom_dataid
    ex_geom_size ex_mesh_vertadr ex_mesh_vertnum ex_mesh_graphadr [] []
    ex_mesh_polynum ex_mesh_polyadr [] [] [] [] [] [] [] ex_geom_xpos ex_geom_xmat
    (Vec2i 0 1) 0) as [H1 H2].
  split.
  - apply H1; [reflexivity | vm_compute; reflexivity].
  - apply H2; [reflexivity | vm_compute; discriminate].
Defined.

(** C10 on the small model: geom 2 is a sphere. *)
Lemma geom_collision_pair_non_mesh_zero_witness :
  mesh_fields (snd (ex_geom_collision_pair (Vec2i 1 2) 0)) = (0, 0, 0, 0, 0) /\
  Geom.margin (fst (ex_geom_collision_pair (Vec2i 1 2) 0)) = 0%Q /\
  Geom.index (fst (ex_geom_collision_pair (Vec2i 1 2) 0)) = -1.
Proof.
  pose proof (geom_collision_pair_non_mesh_zero ex_MESH ex_geom_type ex_geom_dataid
    ex_geom_size ex_mesh_vertadr ex_mesh_vertnum ex_mesh_graphadr [] []
    ex_mesh_polynum ex_mesh_polyadr [] [] [] [] [] [] [] ex_geom_xpos ex_geom_xmat
    (Vec2i 1 2) 0) as (_ & H2 & Hm & Hi & _).
  split; [| split; [exact Hm | exact Hi]].
  apply H2. vm_compute. discriminate.
Defined.

(** C1 on the small model: the pair tables have a single row, candidate 2
    has the override 0, and in world 1 the override branch reads row 1. *)
Lemma contact_params_override_row_witness :
  shape0 ex_pair_margin = 1 /\
  ret_margin (ex_contact_params 2 1) =
    aget2 ex_pair_margin 1 (pair_override ex_collision_pairid 2).
Proof.
  split; [reflexivity |].
  exact (proj1 (contact_params_override_row ex_MJ_MINMU ex_MJ_MINVAL ex_safe_div
    ex_geom_condim ex_geom_priority ex_geom_solmix ex_geom_solref ex_geom_solimp
    ex_geom_friction ex_geom_margin ex_geom_gap ex_pair_dim ex_pair_solref
    ex_pair_solreffriction ex_pair_solimp ex_pair_margin ex_pair_gap
    ex_pair_friction ex_collision_pair ex_collision_pairid 2 1
    ltac:(vm_compute; reflexivity))).
Defined.

(** C5 does not hold as stated: geom 0 wins by priority with the friction triple
    (0, 0, 0), and the returned friction is not that triple expanded. *)
Lemma contact_params_priority_counterexample :
  aget ex_geom_priority 1 < aget ex_geom_priority 0 /\
  ret_friction (ex_contact_params 0 0) <> expand_friction (aget2 ex_geom_friction 0 0).
Proof. split; [reflexivity | vm_compute; discriminate]. Qed.

(** C5, as it holds of the code, on the small model. *)
Lemma contact_params_priority_witness :
  ret_condim (ex_contact_params 0 0) = 3 /\
  ret_friction (ex_contact_params 0 0) =
    Vec5 ex_MJ_MINMU ex_MJ_MINMU ex_MJ_MINMU ex_MJ_MINMU ex_MJ_MINMU.
Proof.
  pose proof (contact_params_priority ex_MJ_MINMU ex_MJ_MINVAL ex_safe_div
    ex_geom_condim ex_geom_priority ex_geom_solmix ex_geom_solref ex_geom_solimp
    ex_geom_friction ex_geom_margin ex_geom_gap ex_pair_dim ex_pair_solref
    ex_pair_solreffriction ex_pair_solimp ex_pair_margin ex_pair_gap
    ex_pair_friction ex_collision_pair ex_collision_pairid 0 0
    ltac:(vm_compute; discriminate)) as (H1 & _ & _ & _).
  destruct (H1 ltac:(reflexivity)) as (Hc & Hf & _).
  split; [exact Hc | exact Hf].
Defined.

(** C6 on the small model: candidate 1 has equal priorities and solmix
    (1, 0), so the weight of geom 1 is 1. *)
Lemma contact_params_mix_weight_witness :
  fst (fst (pair_mix ex_MJ_MINVAL ex_safe_div ex_geom_condim ex_geom_priority
              ex_geom_solmix ex_geom_friction ex_collision_pair 1 0)) = 1%Q.
Proof.
  pose proof (contact_params_mix_weight ex_MJ_MINMU ex_MJ_MINVAL ex_safe_div
    ex_safe_div_nonzero ltac:(reflexivity)
    ex_geom_condim ex_geom_priority ex_geom_solmix ex_geom_solref ex_geom_solimp
    ex_geom_friction ex_geom_margin ex_geom_gap ex_pair_dim ex_pair_solref
    ex_pair_solreffriction ex_pair_solimp ex_pair_margin ex_pair_gap
    ex_pair_friction ex_collision_pair ex_collision_pairid 1 0
    ltac:(vm_compute; discriminate) ltac:(reflexivity)) as (_ & _ & _ & H & _).
  apply H; [vm_compute; discriminate | reflexivity].
Defined.

(** C7 on the small model: geom 2 of candidate 1 has a first solref
    component of exactly 0, so the minimum is taken. *)
Lemma contact_params_solref_witness :
  is_min (1 # 25) 0 (vec2_0 (ret_solref (ex_contact_params 1 0))) /\
  is_min 1 (-5) (vec2_1 (ret_solref (ex_contact_params 1 0))).
Proof.
  pose proof (contact_params_solref ex_MJ_MINMU ex_MJ_MINVAL ex_safe_div
    ex_geom_condim ex_geom_priority ex_geom_solmix ex_geom_solref ex_geom_solimp
    ex_geom_friction ex_geom_margin ex_geom_gap ex_pair_dim ex_pair_solref
    ex_pair_solreffriction ex_pair_solimp ex_pair_margin ex_pair_gap
    ex_pair_friction ex_collision_pair ex_collision_pairid 1 0
    ltac:(vm_compute; discriminate)) as (_ & H).
  exact (H ltac:(right; vm_compute; discriminate)).
Defined.

Lemma ex_not_dropped : Forall (fun c => ~ dropped c) [ex_active; ex_sensor; ex_active].
Proof.
  constructor; [| constructor; [| constructor; [| constructor]]];
    unfold dropped; cbn; intros [[H | H] H'];
    first [discriminate H | discriminate H' | exact (H eq_refl)].
Defined.

(** C2 on the small model: the candidate (-2, -1) is dropped, the sensor
    candidate (-2, 3) moves the counter. *)
Lemma write_contact_drop_iff_witness :
  ex_write_contact_in 2 ex_skipped ex_out = (0, ex_out) /\
  nacon_out (snd (ex_write_contact_in 2 ex_sensor ex_out)) = 1.
Proof.
  split.
  - apply (write_contact_drop_iff ex_CONSTRAINT ex_SENSOR 2 ex_skipped ex_out).
    split; [left; reflexivity | reflexivity].
  - destruct (write_contact_drop_iff ex_CONSTRAINT ex_SENSOR 2 ex_sensor ex_out)
      as [_ H].
    destruct H as [_ H]; [intros [_ H]; cbn in H; discriminate H |].
    apply H. unfold INT32_MAX. cbn. lia.
Defined.

(** C3 on the small model: three calls into a buffer of two slots. *)
Lemma write_contact_capacity_witness :
  let out' := ex_write_contacts 2 [ex_active; ex_sensor; ex_active] ex_out in
  nacon_out out' = 3 /\
  record_at out' 0 = ex_record_of ex_active /\
  record_at out' 1 = ex_record_of ex_sensor /\
  record_at out' 2 = record_at ex_out 2.
Proof.
  destruct (write_contact_capacity ex_CONSTRAINT ex_SENSOR 2) as (_ & _ & H).
  destruct (H [ex_active; ex_sensor; ex_active] ex_out 1 ex_not_dropped)
    as (Hn & Hrec & Hkeep).
  - lia.
  - lia.
  - reflexivity.
  - vm_compute. discriminate.
  - reflexivity.
  - vm_compute. repeat split; discriminate.
  - cbv zeta. split; [exact Hn |]. split; [| split].
    + apply (Hrec 0%nat); [reflexivity | reflexivity].
    + apply (Hrec 1%nat); [reflexivity | reflexivity].
    + apply Hkeep. lia.
Defined.

(** C8 on the small model: the sensor candidate (-2, 3) with
    [dist_in >= margin_in] is written with SENSOR set and CONSTRAINT clear. *)
Lemma write_contact_type_flags_witness :
  let res := ex_write_contact_in 2 ex_sensor ex_out in
  flag_set ex_SENSOR (r_type (record_at (snd res) 0)) /\
  ~ flag_set ex_CONSTRAINT (r_type (record_at (snd res) 0)) /\
  fst res = 0.
Proof.
  destruct (write_contact_type_flags ex_CONSTRAINT ex_SENSOR
    ltac:(discriminate) ltac:(discriminate) ltac:(reflexivity) 2 ex_sensor ex_out)
    as [_ H].
  - vm_compute. split; [discriminate | reflexivity].
  - vm_compute. repeat split; discriminate.
  - destruct H as (_ & _ & HS & HC & Hret).
    + reflexivity.
    + discriminate.
    + discriminate.
    + cbv zeta. split; [exact HS | split; [exact HC | exact Hret]].
Defined.

(** * Package version checking: properties *)

Import util_pkg.

(** ** Characters *)

Lemma code_inj (a b : ascii) : code a = code b -> a = b.
Proof.
  unfold code. intros H.
  rewrite <- (ascii_N_embedding a), <- (ascii_N_embedding b), H. reflexivity.
Qed.

Lemma code_eqb (a b : ascii) : (code a =? code b)%N = true <-> a = b.
Proof.
  rewrite N.eqb_eq. split; [apply code_inj | intros ->; reflexivity].
Qed.

Lemma code_eqb_neq (a b : ascii) : (code a =? code b)%N = false <-> a <> b.
Proof.
  rewrite <- code_eqb. symmetry. apply not_true_iff_false.
Qed.

Lemma char_isdigit_ascii (c : ascii) :
  char_isdigit c = true -> is_ascii c = true -> ascii_digit c = true.
Proof.
  unfold char_isdigit, is_ascii. intros Hd Ha.
  apply N.ltb_lt in Ha.
  destruct (ascii_digit c); [reflexivity |]. cbn [orb] in Hd.
  apply orb_true_iff in Hd as [Hd | Hd]; [apply orb_true_iff in Hd as [Hd | Hd] |];
    apply N.eqb_eq in Hd; lia.
Qed.

(** ** [re.split] *)

Lemma re_split_not_nil (s : list ascii) : re_split s <> [].
Proof.
  destruct s as [| c s]; cbn; [discriminate |].
  destruct (is_sep c); [discriminate |].
  destruct (re_split s); discriminate.
Qed.

Lemma re_split_length (s : list ascii) : length (re_split s) = S (count_sep s).
Proof.
  unfold count_sep. induction s as [| c s IH]; [reflexivity |].
  cbn [re_split List.filter]. destruct (is_sep c).
  - cbn [length]. rewrite IH. reflexivity.
  - destruct (re_split s) as [| p ps] eqn:E; [exact (False_ind _ (re_split_not_nil s E)) |].
    cbn [length] in *. exact IH.
Qed.

Lemma re_split_app (a b : list ascii) (c : ascii) :
  is_sep c = true -> re_split (a ++ c :: b) = re_split a ++ re_split b.
Proof.
  intros Hc. induction a as [| x a IH]; cbn [app re_split].
  - rewrite Hc. reflexivity.
  - destruct (is_sep x); [rewrite IH; reflexivity |].
    rewrite IH. destruct (re_split a) as [| p ps] eqn:E;
      [exact (False_ind _ (re_split_not_nil a E)) | reflexivity].
Qed.


Lemma re_split_Forall (P : ascii -> Prop) (s : list ascii) :
  Forall P s -> Forall (Forall P) (re_split s).
Proof.
  induction 1 as [| c s Hc Hs IH]; cbn [re_split].
  - repeat constructor.
  - destruct (is_sep c); [constructor; [constructor | exact IH] |].
    destruct (re_split s) as [| p ps]; [repeat constructor; exact Hc |].
    inversion IH; subst. constructor; [constructor; assumption | assumption].
Qed.

Lemma re_split_dash_to_dot (s : list ascii) :
  re_split (map dash_to_dot s) = re_split s.
Proof.
  induction s as [| c s IH]; [reflexivity |].
  cbn [map re_split]. rewrite IH.
  unfold dash_to_dot, is_sep.
  destruct (code c =? code "-")%N eqn:E; rewrite ?E, ?orb_true_r; reflexivity.
Qed.

(** ** [int] and the components *)

Lemma int_digits_total (p : list ascii) :
  forallb ascii_digit p = true -> forall acc, exists n, int_digits acc p = Some n.
Proof.
  induction p as [| c p IH]; intros H acc; cbn [int_digits].
  - eexists; reflexivity.
  - cbn [forallb] in H. apply andb_true_iff in H as [Hc Hp].
    rewrite Hc. apply IH. exact Hp.
Qed.

Lemma parse_part_ascii (p : list ascii) :
  Forall (fun c => is_ascii c = true) p -> exists x, parse_part p = Ok x.
Proof.
  intros Ha. unfold parse_part.
  destruct (isdigit p) eqn:Hd; [| eexists; reflexivity].
  destruct p as [| c p]; [discriminate Hd |].
  unfold isdigit in Hd.
  assert (Hall : forallb ascii_digit (c :: p) = true).
  { apply forallb_forall. intros x Hx.
    apply char_isdigit_ascii.
    - exact (proj1 (forallb_forall _ _) Hd x Hx).
    - exact (proj1 (List.Forall_forall _ _) Ha x Hx). }
  unfold int. destruct (int_digits_total _ Hall 0%N) as [n ->].
  eexists; reflexivity.
Qed.

Lemma parse_part_error (p : list ascii) (e : error) :
  parse_part p = Raise e -> e = ValueError.
Proof.
  unfold parse_part, int. destruct (isdigit p); [| discriminate].
  destruct p; [intros [= <-]; reflexivity |].
  destruct (int_digits _ _); [discriminate | intros [= <-]; reflexivity].
Qed.

Lemma parse_parts_length (parts : list (list ascii)) :
  forall t, parse_parts parts = Ok t -> length t = length parts.
Proof.
  induction parts as [| p parts IH]; intros t; cbn [parse_parts].
  - intros [= <-]. reflexivity.
  - destruct (parse_part p); [| discriminate].
    destruct (parse_parts parts) as [xs |]; [| discriminate].
    intros [= <-]. cbn [length]. rewrite (IH xs eq_refl). reflexivity.
Qed.

Lemma parse_parts_app (l1 l2 : list (list ascii)) :
  parse_parts (l1 ++ l2) =
  match parse_parts l1 with
  | Raise e => Raise e
  | Ok t1 =>
      match parse_parts l2 with
      | Raise e => Raise e
      | Ok t2 => Ok (t1 ++ t2)
      end
  end.
Proof.
  induction l1 as [| p l1 IH]; cbn [app parse_parts].
  - destruct (parse_parts l2); reflexivity.
  - destruct (parse_part p); [| reflexivity]. rewrite IH.
    destruct (parse_parts l1); [| reflexivity].
    destruct (parse_parts l2); reflexivity.
Qed.

Lemma parse_version_length (version_str : list ascii) (t : list component) :
  _parse_version version_str = Ok t ->
  length t = S (count_sep version_str) /\ t <> [].
Proof.
  unfold _parse_version. cbv zeta. intros Ht. apply parse_parts_length in Ht.
  rewrite re_split_length in Ht. split; [exact Ht |].
  intros ->. discriminate Ht.
Qed.

Lemma parse_version_error (version_str : list ascii) (e : error) :
  _parse_version version_str = Raise e -> e = ValueError.
Proof.
  unfold _parse_version. cbv zeta. revert e.
  generalize (re_split version_str). intros parts.
  induction parts as [| p parts IH]; intros e; cbn [parse_parts]; [discriminate |].
  destruct (parse_part p) eqn:Hp; [| intros [= <-]; exact (parse_part_error _ _ Hp)].
  destruct (parse_parts parts); [discriminate | intros [= <-]; apply IH; reflexivity].
Qed.

(** X7.  A parsed version has one component more than the string has
    separators, so it is never the empty tuple; parsing can only fail with
    [ValueError], and it does not fail on a string of at most
    [int_max_str_digits] characters, all of them below 128.  (The bound
    keeps every part within the digit limit of the interpreter's [int].) *)
Theorem parse_version_components (version_str : list ascii) :
  (forall t, _parse_version version_str = Ok t ->
     length t = S (count_sep version_str) /\ t <> []) /\
  (forall e, _parse_version version_str = Raise e -> e = ValueError) /\
  (forallb is_ascii version_str = true ->
   (length version_str <= int_max_str_digits)%nat ->
     exists t, _parse_version version_str = Ok t).
Proof.
  split; [exact (parse_version_length version_str) |].
  split; [exact (parse_version_error version_str) |].
  unfold _parse_version. cbv zeta.
  - intros Ha _.
    assert (HF : Forall (Forall (fun c => is_ascii c = true)) (re_split version_str)).
    { apply re_split_Forall. apply List.Forall_forall.
      exact (proj1 (forallb_forall _ _) Ha). }
    induction HF as [| p parts Hp _ IH]; cbn [parse_parts]; [eexists; reflexivity |].
    destruct (parse_part_ascii p Hp) as [x ->]. destruct IH as [xs ->].
    eexists; reflexivity.
Qed.

(** X8.  ['.'] and ['-'] are the same separator: replacing every ['-'] by
    ['.'] does not change the parsed version. *)
Theorem parse_version_dash_dot (version_str : list ascii) :
  _parse_version (map dash_to_dot version_str) = _parse_version version_str.
Proof. unfold _parse_version. rewrite re_split_dash_to_dot. reflexivity. Qed.

(** ** Sequence comparison *)

Section SeqCompare.

Context {A : Type} (cmp : A -> A -> comparison).
Hypothesis cmp_eq : forall x y, cmp x y = Eq <-> x = y.
Hypothesis cmp_opp : forall x y, cmp y x = CompOpp (cmp x y).
Hypothesis cmp_trans : forall x y z, cmp x y = Lt -> cmp y z = Lt -> cmp x z = Lt.

Lemma seq_compare_eq (a b : list A) : seq_compare cmp a b = Eq <-> a = b.
Proof using cmp_eq.
  revert b. induction a as [| x a IH]; intros [| y b]; cbn; try (split; discriminate).
  - split; reflexivity.
  - destruct (cmp x y) eqn:E.
    + apply cmp_eq in E as ->. rewrite IH. split; [intros -> | intros [= ->]]; reflexivity.
    + split; [discriminate |]. intros [= -> _].
      rewrite (proj2 (cmp_eq y y) eq_refl) in E. discriminate E.
    + split; [discriminate |]. intros [= -> _].
      rewrite (proj2 (cmp_eq y y) eq_refl) in E. discriminate E.
Qed.

Lemma seq_compare_opp (a b : list A) :
  seq_compare cmp b a = CompOpp (seq_compare cmp a b).
Proof using cmp_opp.
  revert b. induction a as [| x a IH]; intros [| y b]; cbn; try reflexivity.
  rewrite (cmp_opp x y). destruct (cmp x y); cbn; [apply IH | reflexivity ..].
Qed.

Lemma seq_compare_trans (a b c : list A) :
  seq_compare cmp a b = Lt -> seq_compare cmp b c = Lt -> seq_compare cmp a c = Lt.
Proof using cmp_eq cmp_trans.
  revert b c. induction a as [| x a IH]; intros [| y b] [| z c]; cbn;
    try discriminate; try reflexivity.
  destruct (cmp x y) eqn:Exy; try discriminate.
  - apply cmp_eq in Exy as ->. destruct (cmp y z); try discriminate; [apply IH | reflexivity].
  - intros _. destruct (cmp y z) eqn:Eyz; try discriminate.
    + apply cmp_eq in Eyz as <-. rewrite Exy. reflexivity.
    + rewrite (cmp_trans _ _ _ Exy Eyz). reflexivity.
Qed.

Lemma seq_compare_prefix (a b : list A) :
  b <> [] -> seq_compare cmp (a ++ b) a = Gt.
Proof using cmp_eq.
  intros Hb. induction a as [| x a IH]; cbn.
  - destruct b; [contradiction | reflexivity].
  - rewrite (proj2 (cmp_eq x x) eq_refl). exact IH.
Qed.


End SeqCompare.

Lemma char_compare_eq (c d : ascii) : char_compare c d = Eq <-> c = d.
Proof.
  unfold char_compare. rewrite N.compare_eq_iff.
  split; [apply code_inj | intros ->; reflexivity].
Qed.

Lemma char_compare_opp (c d : ascii) : char_compare d c = CompOpp (char_compare c d).
Proof. apply N.compare_antisym. Qed.

Lemma char_compare_trans (c d e : ascii) :
  char_compare c d = Lt -> char_compare d e = Lt -> char_compare c e = Lt.
Proof. unfold char_compare. rewrite !N.compare_lt_iff. lia. Qed.

Lemma component_compare_eq (x y : component) : component_compare x y = Eq <-> x = y.
Proof.
  destruct x as [a | s], y as [b | t]; cbn; try (split; discriminate).
  - rewrite N.compare_eq_iff. split; [intros -> | intros [= ->]]; reflexivity.
  - unfold str_compare. rewrite (seq_compare_eq _ char_compare_eq).
    split; [intros -> | intros [= ->]]; reflexivity.
Qed.

Lemma component_compare_opp (x y : component) :
  component_compare y x = CompOpp (component_compare x y).
Proof.
  destruct x as [a | s], y as [b | t]; cbn; try reflexivity.
  - apply N.compare_antisym.
  - apply (seq_compare_opp _ char_compare_opp).
Qed.

Lemma component_compare_trans (x y z : component) :
  component_compare x y = Lt -> component_compare y z = Lt -> component_compare x z = Lt.
Proof.
  destruct x as [a | s], y as [b | t], z as [c | u]; cbn; try discriminate; try reflexivity.
  - rewrite !N.compare_lt_iff. lia.
  - apply (seq_compare_trans _ char_compare_eq char_compare_trans).
Qed.

Lemma version_compare_eq (a b : list component) :
  version_compare a b = Eq <-> a = b.
Proof. unfold version_compare. apply (seq_compare_eq _ component_compare_eq). Qed.

(** X9.  The comparison of parsed versions is a total order: two versions
    compare equal only if they have the same components, comparing in the
    other direction gives the opposite answer, and "less than" is
    transitive. *)
Theorem version_compare_total_order :
  (forall a b, version_compare a b = Eq <-> a = b) /\
  (forall a b, version_compare b a = CompOpp (version_compare a b)) /\
  (forall a b c, version_compare a b = Lt -> version_compare b c = Lt ->
     version_compare a c = Lt).
Proof.
  unfold version_compare. split; [| split].
  - apply (seq_compare_eq _ component_compare_eq).
  - apply (seq_compare_opp _ component_compare_opp).
  - apply (seq_compare_trans _ component_compare_eq component_compare_trans).
Qed.

Lemma parse_version_app (a b : list ascii) (c : ascii) :
  is_sep c = true ->
  _parse_version (a ++ c :: b) =
  match _parse_version a with
  | Raise e => Raise e
  | Ok ta =>
      match _parse_version b with
      | Raise e => Raise e
      | Ok tb => Ok (ta ++ tb)
      end
  end.
Proof.
  intros Hc. unfold _parse_version. cbv zeta.
  rewrite (re_split_app a b c Hc). apply parse_parts_app.
Qed.

(** X10.  A version that continues another one after a separator is the
    greater of the two, whatever follows: [3.5.0.dev1] and [3.5.0-rc] are
    both greater than [3.5.0], and they are not equal to it. *)
Theorem parse_version_longer_greater (a b : list ascii) (c : ascii)
  (ta t : list component) :
  is_sep c = true ->
  _parse_version a = Ok ta ->
  _parse_version (a ++ c :: b) = Ok t ->
  version_compare t ta = Gt /\
  apply_op GT t ta = true /\ apply_op GE t ta = true /\ apply_op NE t ta = true /\
  apply_op LT t ta = false /\ apply_op LE t ta = false /\ apply_op EQ t ta = false.
Proof.
  intros Hc Ha Ht. rewrite (parse_version_app a b c Hc), Ha in Ht.
  destruct (_parse_version b) as [tb |] eqn:Hb; [| discriminate].
  injection Ht as <-.
  assert (Hnb : tb <> []).
  { exact (proj2 (parse_version_length b tb Hb)). }
  assert (Hgt : version_compare (ta ++ tb) ta = Gt)
    by exact (seq_compare_prefix _ component_compare_eq ta tb Hnb).
  unfold apply_op. rewrite Hgt. repeat split; reflexivity.
Qed.






(** ** The regular expression *)

Lemma span_app (f : ascii -> bool) (a b : list ascii) :
  forallb f a = true ->
  match b with [] => True | c :: _ => f c = false end ->
  span f (a ++ b) = (a, b).
Proof.
  intros Ha Hb. induction a as [| x a IH]; cbn [app span].
  - destruct b as [| c b]; [reflexivity |]. cbn [span]. rewrite Hb. reflexivity.
  - cbn [forallb] in Ha. apply andb_true_iff in Ha as [Hx Ha].
    rewrite Hx, (IH Ha). reflexivity.
Qed.

Lemma match_version_plain (v : list ascii) :
  v <> [] -> forallb (fun c => negb (is_newline c)) v = true ->
  match_version v = Some v /\ match_version (v ++ ["010"%char]) = Some v.
Proof.
  intros Hn Hv. unfold match_version. split.
  - rewrite <- (app_nil_r v) at 1. rewrite (span_app _ v [] Hv I).
    destruct v; [contradiction | reflexivity].
  - rewrite (span_app _ v ["010"%char] Hv eq_refl).
    destruct v; [contradiction | reflexivity].
Qed.

Lemma strip_prefix_cons_eq (c : ascii) (p s : list ascii) :
  strip_prefix (c :: p) (c :: s) = strip_prefix p s.
Proof. cbn [strip_prefix]. rewrite N.eqb_refl. reflexivity. Qed.

Lemma strip_prefix_cons_neq (c d : ascii) (p s : list ascii) :
  c <> d -> strip_prefix (c :: p) (d :: s) = None.
Proof.
  intros H. cbn [strip_prefix]. rewrite (proj2 (code_eqb_neq c d) H). reflexivity.
Qed.

Lemma strip_prefix_nil_r (c : ascii) (p : list ascii) : strip_prefix (c :: p) [] = None.
Proof. reflexivity. Qed.

Lemma strip_prefix_nil_l (s : list ascii) : strip_prefix [] s = Some s.
Proof. destruct s; reflexivity. Qed.

Ltac strip_literals :=
  cbn [match_op op_literals op_literal str String.list_ascii_of_string app];
  repeat first
    [ rewrite strip_prefix_cons_eq
    | rewrite strip_prefix_cons_neq by discriminate
    | rewrite strip_prefix_nil_r
    | rewrite strip_prefix_nil_l ].

Lemma match_op_literal (o : op) (v : list ascii) :
  v <> [] -> forallb (fun c => negb (is_newline c)) v = true ->
  (o = GT \/ o = LT -> forall v', v <> "="%char :: v') ->
  match_op op_literals (op_literal o ++ v) = Some (o, v) /\
  match_op op_literals (op_literal o ++ v ++ ["010"%char]) = Some (o, v).
Proof.
  intros Hn Hv Heq. destruct (match_version_plain v Hn Hv) as [M1 M2].
  destruct v as [| x v']; [contradiction |].
  assert (Hx : (o = GT \/ o = LT) -> "="%char <> x).
  { intros Ho <-. exact (Heq Ho v' eq_refl). }
  cbn [app] in M2.
  destruct o; strip_literals; rewrite ?M1, ?M2; try (split; reflexivity).
  - rewrite !(strip_prefix_cons_neq _ _ _ _ (Hx (or_introl eq_refl))).
    strip_literals. rewrite ?M1, ?M2. split; reflexivity.
  - rewrite !(strip_prefix_cons_neq _ _ _ _ (Hx (or_intror eq_refl))).
    strip_literals. rewrite ?M1, ?M2. split; reflexivity.
Qed.

Lemma op_literal_head (o : op) (v : list ascii) :
  match op_literal o ++ v with [] => True | c :: _ => is_name_char c = false end.
Proof. destruct o; reflexivity. Qed.

Lemma match_spec_literal (package_name version_str : list ascii) (o : op) :
  package_name <> [] -> forallb is_name_char package_name = true ->
  version_str <> [] ->
  forallb (fun c => negb (is_newline c)) version_str = true ->
  (o = GT \/ o = LT -> forall v', version_str <> "="%char :: v') ->
  match_spec (package_name ++ op_literal o ++ version_str) =
    Some (package_name, o, version_str).
Proof.
  intros Hn Hname Hv Hnl Heq.
  destruct (match_op_literal o version_str Hv Hnl Heq) as [M1 _].
  unfold match_spec.
  rewrite (span_app _ _ _ Hname (op_literal_head o version_str)), M1.
  destruct package_name; [contradiction | reflexivity].
Qed.

(** X12.  A specification written as a package name, an operator and a
    version is read back as these three parts, also with a newline at its
    end.  The name must be a non-empty string of letters, digits, [_] and
    [-]; the version must be non-empty and without newline, and after [>]
    or [<] it must not start with [=]. *)
Theorem match_spec_round_trip (package_name version_str : list ascii) (o : op) :
  package_name <> [] -> forallb is_name_char package_name = true ->
  version_str <> [] ->
  forallb (fun c => negb (is_newline c)) version_str = true ->
  (o = GT \/ o = LT -> forall v', version_str <> "="%char :: v') ->
  match_spec (package_name ++ op_literal o ++ version_str) =
    Some (package_name, o, version_str) /\
  match_spec (package_name ++ op_literal o ++ version_str ++ ["010"%char]) =
    Some (package_name, o, version_str).
Proof.
  intros Hn Hname Hv Hnl Heq.
  destruct (match_op_literal o version_str Hv Hnl Heq) as [_ M2].
  split; [apply match_spec_literal; assumption |]. unfold match_spec.
  - rewrite (span_app _ _ _ Hname (op_literal_head o (version_str ++ ["010"%char]))), M2.
    destruct package_name; [contradiction | reflexivity].
Qed.

(** ** [check_version] *)

Lemma check_version_parts (metadata_version : list ascii -> option (list ascii))
  (package_name version_str : list ascii) (o : op) :
  package_name <> [] -> forallb is_name_char package_name = true ->
  version_str <> [] ->
  forallb (fun c => negb (is_newline c)) version_str = true ->
  (o = GT \/ o = LT -> forall v', version_str <> "="%char :: v') ->
  check_version metadata_version (package_name ++ op_literal o ++ version_str) =
  match _parse_version version_str with
  | Raise e => Raise e
  | Ok required_version =>
      match metadata_version package_name with
      | None => Raise PackageNotFoundError
      | Some installed =>
          match _parse_version installed with
          | Raise e => Raise e
          | Ok installed_version => Ok (apply_op o installed_version required_version)
          end
      end
  end.
Proof.
  intros Hn Hname Hv Hnl Heq. unfold check_version.
  rewrite (match_spec_literal package_name version_str o Hn Hname Hv Hnl Heq).
  reflexivity.
Qed.

(** X13.  For a well-formed specification of an installed package the six
    operators answer consistently: exactly one of [<], [==], [>] holds,
    [>=] is [>] or [==], [<=] is [<] or [==], [!=] is the negation of [==],
    and [==] holds only when the two versions have the same components. *)
Theorem check_version_operators (metadata_version : list ascii -> option (list ascii))
  (package_name version_str installed : list ascii)
  (required_version installed_version : list component) :
  package_name <> [] -> forallb is_name_char package_name = true ->
  version_str <> [] ->
  forallb (fun c => negb (is_newline c)) version_str = true ->
  (forall v', version_str <> "="%char :: v') ->
  _parse_version version_str = Ok required_version ->
  metadata_version package_name = Some installed ->
  _parse_version installed = Ok installed_version ->
  let check o :=
    check_version metadata_version (package_name ++ op_literal o ++ version_str) in
  exists lt eq gt : bool,
    check LT = Ok lt /\ check EQ = Ok eq /\ check GT = Ok gt /\
    check GE = Ok (gt || eq) /\ check LE = Ok (lt || eq) /\ check NE = Ok (negb eq) /\
    ((lt = true /\ eq = false /\ gt = false) \/
     (lt = false /\ eq = true /\ gt = false) \/
     (lt = false /\ eq = false /\ gt = true)) /\
    (eq = true <-> installed_version = required_version).
Proof.
  intros Hn Hname Hv Hnl Heq Hr Hm Hi check.
  assert (Hc : forall o, check o = Ok (apply_op o installed_version required_version)).
  { intros o. unfold check.
    rewrite (check_version_parts metadata_version package_name version_str o
               Hn Hname Hv Hnl (fun _ => Heq)), Hr, Hm, Hi. reflexivity. }
  exists (apply_op LT installed_version required_version),
         (apply_op EQ installed_version required_version),
         (apply_op GT installed_version required_version).
  rewrite !Hc.
  pose proof (version_compare_eq installed_version required_version) as Heqv.
  unfold apply_op in *.
  destruct (version_compare installed_version required_version);
    cbn; repeat split; try reflexivity; try tauto; try discriminate;
    try (intros E; apply Heqv in E; discriminate E).
Qed.

Lemma match_op_none (c : ascii) (rest : list ascii) :
  c <> ">"%char -> c <> "<"%char -> c <> "="%char -> c <> "!"%char ->
  match_op op_literals (c :: rest) = None.
Proof.
  intros H1 H2 H3 H4.
  cbn [match_op op_literals str String.list_ascii_of_string].
  rewrite !strip_prefix_cons_neq by (intros E; symmetry in E; contradiction).
  reflexivity.
Qed.

Lemma name_char_not_op (c : ascii) :
  is_name_char c = true ->
  c <> ">"%char /\ c <> "<"%char /\ c <> "="%char /\ c <> "!"%char.
Proof. intros H. repeat split; intros ->; discriminate H. Qed.

(** No operator can be matched where a name character stands: giving
    characters of the first group back never helps the match. *)
Lemma match_op_name_char (c : ascii) (rest : list ascii) :
  is_name_char c = true -> match_op op_literals (c :: rest) = None.
Proof.
  intros H. destruct (name_char_not_op c H) as (H1 & H2 & H3 & H4).
  apply match_op_none; assumption.
Qed.

(** X14.  A specification is refused with [ValueError], whatever is
    installed, when it has no operator, when it does not start with a name
    character, when the name is followed by a character that starts no
    operator, or when the name is followed by a single [=]. *)
Theorem check_version_invalid_spec (metadata_version : list ascii -> option (list ascii)) :
  (forall package_name,
     forallb is_name_char package_name = true ->
     check_version metadata_version package_name = Raise ValueError) /\
  (forall c rest,
     is_name_char c = false ->
     check_version metadata_version (c :: rest) = Raise ValueError) /\
  (forall package_name c rest,
     forallb is_name_char package_name = true -> is_name_char c = false ->
     c <> ">"%char -> c <> "<"%char -> c <> "="%char -> c <> "!"%char ->
     check_version metadata_version (package_name ++ c :: rest) = Raise ValueError) /\
  (forall package_name c rest,
     forallb is_name_char package_name = true -> c <> "="%char ->
     check_version metadata_version (package_name ++ "="%char :: c :: rest) =
       Raise ValueError).
Proof.
  unfold check_version, match_spec. split; [| split; [| split]].
  - intros name Hname. rewrite <- (app_nil_r name).
    rewrite (span_app _ name [] Hname I). destruct name; reflexivity.
  - intros c rest Hc. cbn [span]. rewrite Hc. reflexivity.
  - intros name c rest Hname Hc H1 H2 H3 H4.
    rewrite (span_app _ name (c :: rest) Hname Hc), (match_op_none c rest H1 H2 H3 H4).
    destruct name; reflexivity.
  - intros name c rest Hname Hc.
    rewrite (span_app _ name ("="%char :: c :: rest) Hname eq_refl).
    assert (E : match_op op_literals ("="%char :: c :: rest) = None).
    { cbn [match_op op_literals str String.list_ascii_of_string].
      repeat first
        [ rewrite strip_prefix_cons_eq
        | rewrite strip_prefix_cons_neq by first [discriminate | intros E; symmetry in E; contradiction] ].
      reflexivity. }
    rewrite E. destruct name; reflexivity.
Qed.

(** X15.  For a well-formed specification whose version parses, a package
    that is not installed gives [PackageNotFoundError]; a version that does
    not parse gives [ValueError] before the package is looked up. *)
Theorem check_version_not_installed (metadata_version : list ascii -> option (list ascii))
  (package_name version_str : list ascii) (o : op) :
  package_name <> [] -> forallb is_name_char package_name = true ->
  version_str <> [] ->
  forallb (fun c => negb (is_newline c)) version_str = true ->
  (o = GT \/ o = LT -> forall v', version_str <> "="%char :: v') ->
  let spec := package_name ++ op_literal o ++ version_str in
  (forall required_version,
     _parse_version version_str = Ok required_version ->
     metadata_version package_name = None ->
     check_version metadata_version spec = Raise PackageNotFoundError) /\
  (forall e,
     _parse_version version_str = Raise e ->
     check_version metadata_version spec = Raise ValueError).
Proof.
  intros Hn Hname Hv Hnl Heq spec. unfold spec.
  rewrite (check_version_parts metadata_version package_name version_str o
             Hn Hname Hv Hnl Heq).
  split.
  - intros r Hr Hm. rewrite Hr, Hm. reflexivity.
  - intros e He. rewrite He.
    rewrite (parse_version_error version_str e He). reflexivity.
Qed.

(** X16.  An operator with nothing after it: [name>=] and [name<=] are not
    refused, they are read as [>] and [<] against the version [=], which is
    above every version that starts with a number, so the first answers
    [False] and the second [True]; the other four operators with nothing
    after them are refused with [ValueError]. *)
Theorem check_version_operator_alone (metadata_version : list ascii -> option (list ascii))
  (package_name installed : list ascii) (n : N) (t : list component) :
  package_name <> [] -> forallb is_name_char package_name = true ->
  metadata_version package_name = Some installed ->
  _parse_version installed = Ok (Num n :: t) ->
  match_spec (package_name ++ str ">=") = Some (package_name, GT, str "=") /\
  match_spec (package_name ++ str "<=") = Some (package_name, LT, str "=") /\
  check_version metadata_version (package_name ++ str ">=") = Ok false /\
  check_version metadata_version (package_name ++ str "<=") = Ok true /\
  check_version metadata_version (package_name ++ str ">") = Raise ValueError /\
  check_version metadata_version (package_name ++ str "<") = Raise ValueError /\
  check_version metadata_version (package_name ++ str "==") = Raise ValueError /\
  check_version metadata_version (package_name ++ str "!=") = Raise ValueError.
Proof.
  intros Hn Hname Hm Hi.
  assert (Hspan : forall rest,
            match rest with [] => True | c :: _ => is_name_char c = false end ->
            match_spec (package_name ++ rest) =
            match match_op op_literals rest with
            | Some (o, v) => Some (package_name, o, v)
            | None => None
            end).
  { intros rest Hrest. unfold match_spec.
    rewrite (span_app _ package_name rest Hname Hrest).
    destruct package_name; [contradiction | reflexivity]. }
  assert (Ege : match_op op_literals (str ">=") = Some (GT, str "="))
    by (vm_compute; reflexivity).
  assert (Ele : match_op op_literals (str "<=") = Some (LT, str "="))
    by (vm_compute; reflexivity).
  assert (Egt : match_op op_literals (str ">") = None) by (vm_compute; reflexivity).
  assert (Elt : match_op op_literals (str "<") = None) by (vm_compute; reflexivity).
  assert (Eeq : match_op op_literals (str "==") = None) by (vm_compute; reflexivity).
  assert (Ene : match_op op_literals (str "!=") = None) by (vm_compute; reflexivity).
  assert (Ep : _parse_version (str "=") = Ok [Str (str "=")]) by (vm_compute; reflexivity).
  unfold check_version.
  rewrite !Hspan by reflexivity.
  rewrite Ege, Ele, Egt, Elt, Eeq, Ene, Ep, Hm, Hi.
  repeat split; reflexivity.
Qed.


(** * passive.py *)

(** * Passive forces: properties *)

Import Passive.

(** ** Two-dimensional arrays *)

Lemma aset_out_of_range {T : Type} (a : list T) (i : Z) (v : T) :
  ~ (0 <= i < shape0 a) -> aset a i v = a.
Proof.
  intros H. unfold aset, shape0 in *.
  destruct (Z.leb_spec 0 i); [| reflexivity].
  apply list_insert_ge. lia.
Qed.

Lemma aget2_aset2_eq {T : Type} `{Inhabited T} (a : list (list T)) (r c : Z) (v : T) :
  0 <= r < shape0 a -> 0 <= c < shape0 (aget a r) ->
  aget2 (aset2 a r c v) r c = v.
Proof.
  intros Hr Hc. unfold aget2, aset2.
  rewrite aget_aset_eq by exact Hr. apply aget_aset_eq. exact Hc.
Qed.

Lemma aget2_aset2_ne {T : Type} `{Inhabited T} (a : list (list T)) (r c r' c' : Z) (v : T) :
  r <> r' \/ c <> c' -> aget2 (aset2 a r c v) r' c' = aget2 a r' c'.
Proof.
  intros Hne. unfold aget2, aset2.
  destruct (Z.eq_dec r r') as [<- | Hr]; [| rewrite aget_aset_ne by exact Hr; reflexivity].
  destruct Hne as [Hne | Hc]; [contradiction |].
  destruct (Z_le_dec 0 r) as [H0 | H0]; [destruct (Z_lt_dec r (shape0 a)) as [H1 | H1] |].
  - rewrite aget_aset_eq by lia. apply aget_aset_ne. exact Hc.
  - rewrite aset_out_of_range by lia. reflexivity.
  - rewrite aset_out_of_range by lia. reflexivity.
Qed.

Lemma has_shape_aset2 {T : Type} `{Inhabited T} (n1 n2 : Z) (a : list (list T))
  (r c : Z) (v : T) :
  has_shape n1 n2 a -> has_shape n1 n2 (aset2 a r c v).
Proof.
  intros [H1 H2]. unfold has_shape, aset2. rewrite shape0_aset. split; [exact H1 |].
  intros r' Hr'. destruct (Z.eq_dec r r') as [<- | Hne].
  - rewrite aget_aset_eq by lia. rewrite shape0_aset. apply H2. exact Hr'.
  - rewrite aget_aset_ne by exact Hne. apply H2. exact Hr'.
Qed.

Lemma aget_map {A B : Type} `{Inhabited A} `{Inhabited B} (f : A -> B) (a : list A) (i : Z) :
  0 <= i < shape0 a -> aget (map f a) i = f (aget a i).
Proof.
  unfold aget, shape0. intros [Hi0 Hi1].
  destruct (Z.leb_spec 0 i); [| lia].
  assert (Hi : (Z.to_nat i < length a)%nat) by lia.
  revert Hi. generalize (Z.to_nat i) as n. clear.
  induction a as [| x a IH]; intros [| n] Hn; cbn in *; try lia; [reflexivity |].
  apply IH. lia.
Qed.

Lemma aget_oob {T : Type} `{Inhabited T} (a : list T) (i : Z) :
  ~ (0 <= i < shape0 a) -> aget a i = inhabitant.
Proof.
  unfold aget, shape0. intros Hi.
  destruct (Z.leb_spec 0 i); [| reflexivity].
  rewrite list_lookup_total_alt. rewrite lookup_ge_None_2 by lia. reflexivity.
Qed.

Lemma shape0_map {A B : Type} (f : A -> B) (a : list A) : shape0 (map f a) = shape0 a.
Proof. unfold shape0. rewrite length_map. reflexivity. Qed.

Lemma aget2_zero_ (a : list (list Q)) (r c : Z) : aget2 (zero_ a) r c = 0%Q.
Proof.
  unfold aget2, zero_.
  destruct (Z_le_dec 0 r) as [R0 | R0]; [destruct (Z_lt_dec r (shape0 a)) as [R1 | R1] |].
  - rewrite aget_map by lia.
    destruct (Z_le_dec 0 c) as [C0 | C0];
      [destruct (Z_lt_dec c (shape0 (aget a r))) as [C1 | C1] |].
    + rewrite aget_map by lia. reflexivity.
    + rewrite aget_oob by (rewrite shape0_map; lia). reflexivity.
    + rewrite aget_oob by lia. reflexivity.
  - rewrite (aget_oob (map _ a)) by (rewrite shape0_map; lia).
    rewrite aget_oob by (unfold shape0; cbn; lia). reflexivity.
  - rewrite (aget_oob (map _ a)) by lia.
    rewrite aget_oob by (unfold shape0; cbn; lia). reflexivity.
Qed.

Lemma has_shape_zero_ (n1 n2 : Z) (a : list (list Q)) :
  has_shape n1 n2 a -> has_shape n1 n2 (zero_ a).
Proof.
  intros [H1 H2]. unfold has_shape, zero_. rewrite shape0_map. split; [exact H1 |].
  intros r Hr. rewrite aget_map by lia. rewrite shape0_map. apply H2. exact Hr.
Qed.

(** ** Kernel launches *)

Lemma foldl_invariant {A B : Type} (f : A -> B -> A) (I : A -> Prop) (l : list B) :
  (forall a x, x ∈ l -> I a -> I (f a x)) -> forall a, I a -> I (foldl f a l).
Proof.
  induction l as [| x l IH]; intros Hf a Ha; cbn; [exact Ha |].
  apply IH.
  - intros a' y Hy. apply Hf. right. exact Hy.
  - apply Hf; [left | exact Ha].
Qed.

Lemma foldl_establish {A B : Type} `{EqDecision B} (f : A -> B -> A)
  (I P : A -> Prop) (l : list B) (x : B) :
  x ∈ l ->
  (forall a y, y ∈ l -> I a -> I (f a y)) ->
  (forall a, I a -> P (f a x)) ->
  (forall a y, y ∈ l -> y <> x -> I a -> P a -> P (f a y)) ->
  forall a, I a -> P (foldl f a l).
Proof.
  intros Hx HI Hest Hpres a Ha.
  assert (Hgen : forall l', (forall y, y ∈ l' -> y ∈ l) ->
            forall a, I a -> (x ∈ l' \/ P a) -> P (foldl f a l')).
  { induction l' as [| y l' IH]; intros Hsub a' Ha' Hor; cbn.
    - destruct Hor as [Hin | HP]; [inversion Hin | exact HP].
    - assert (Hy : y ∈ l) by (apply Hsub; left).
      apply IH.
      + intros z Hz. apply Hsub. right. exact Hz.
      + apply HI; [exact Hy | exact Ha'].
      + destruct (decide (y = x)) as [-> | Hne]; [right; apply Hest; exact Ha' |].
        destruct Hor as [Hin | HP].
        * apply elem_of_cons in Hin as [-> | Hin]; [contradiction | left; exact Hin].
        * right. apply Hpres; assumption. }
  apply Hgen; [auto | exact Ha | left; exact Hx].
Qed.

Lemma elem_of_seqZ_0 (n i : Z) : i ∈ seqZ 0 n <-> 0 <= i < n.
Proof. rewrite elem_of_seqZ. lia. Qed.

(** A launch keeps what every thread keeps. *)
Lemma launch_invariant (n1 n2 : Z) (kernel : Z -> Z -> Data -> Data) (I : Data -> Prop) :
  (forall i j d, 0 <= i < n1 -> 0 <= j < n2 -> I d -> I (kernel i j d)) ->
  forall d, I d -> I (launch n1 n2 kernel d).
Proof.
  intros Hk d Hd. unfold launch.
  apply foldl_invariant; [| exact Hd].
  intros d' i Hi Hd'. apply elem_of_seqZ_0 in Hi.
  apply foldl_invariant; [| exact Hd'].
  intros d'' j Hj Hd''. apply elem_of_seqZ_0 in Hj. apply Hk; assumption.
Qed.

(** After a launch, what thread [(i, j)] establishes holds if every other
    thread keeps it. *)
Lemma launch_establish (n1 n2 : Z) (kernel : Z -> Z -> Data -> Data)
  (I P : Data -> Prop) (i j : Z) :
  0 <= i < n1 -> 0 <= j < n2 ->
  (forall i' j' d, 0 <= i' < n1 -> 0 <= j' < n2 -> I d -> I (kernel i' j' d)) ->
  (forall d, I d -> P (kernel i j d)) ->
  (forall i' j' d, 0 <= i' < n1 -> 0 <= j' < n2 -> (i' <> i \/ j' <> j) ->
     I d -> P d -> P (kernel i' j' d)) ->
  forall d, I d -> P (launch n1 n2 kernel d).
Proof.
  intros Hi Hj HI Hest Hpres d Hd. unfold launch.
  assert (Hrow : forall i' d', 0 <= i' < n1 -> I d' ->
            I (foldl (fun d j => kernel i' j d) d' (seqZ 0 n2))).
  { intros i' d' Hi' Hd'. apply foldl_invariant; [| exact Hd'].
    intros d'' j' Hj' Hd''. apply elem_of_seqZ_0 in Hj'. apply HI; assumption. }
  apply (foldl_establish _ I P (seqZ 0 n1) i).
  - apply elem_of_seqZ_0. exact Hi.
  - intros d' i' Hi' Hd'. apply elem_of_seqZ_0 in Hi'. apply Hrow; assumption.
  - intros d' Hd'. apply (foldl_establish _ I P (seqZ 0 n2) j).
    + apply elem_of_seqZ_0. exact Hj.
    + intros d'' j' Hj' Hd''. apply elem_of_seqZ_0 in Hj'. apply HI; assumption.
    + intros d'' Hd''. apply Hest. exact Hd''.
    + intros d'' j' Hj' Hne Hd'' HP. apply elem_of_seqZ_0 in Hj'.
      apply Hpres; try assumption. right. exact Hne.
    + exact Hd'.
  - intros d' i' Hi' Hne Hd' HP. apply elem_of_seqZ_0 in Hi'.
    assert (HIP : I d' /\ P d') by (split; assumption).
    apply (foldl_invariant _ (fun d => I d /\ P d)); [| exact HIP].
    intros d'' j' Hj' [Hd'' HP'']. apply elem_of_seqZ_0 in Hj'.
    split; [apply HI; assumption |].
    apply Hpres; try assumption. left. exact Hne.
  - exact Hd.
Qed.

(** Writing a cell does not change which cells exist. *)
Lemma in_range_aset2 {T : Type} `{Inhabited T} (a : list (list T)) (r c r' c' : Z) (v : T) :
  in_range (aset2 a r c v) r' c' <-> in_range a r' c'.
Proof.
  unfold in_range, aset2. rewrite shape0_aset.
  destruct (Z.eq_dec r r') as [<- | Hne].
  - split; intros [H1 H2]; (split; [exact H1 |]).
    + rewrite aget_aset_eq in H2 by exact H1. rewrite shape0_aset in H2. exact H2.
    + rewrite aget_aset_eq by exact H1. rewrite shape0_aset. exact H2.
  - rewrite aget_aset_ne by exact Hne. reflexivity.
Qed.

Lemma aset_id {T : Type} `{Inhabited T} (a : list T) (i : Z) (v : T) :
  (0 <= i < shape0 a -> aget a i = v) -> aset a i v = a.
Proof.
  intros Hv. unfold aset. destruct (Z.leb_spec 0 i) as [H0 | H0]; [| reflexivity].
  destruct (Z_lt_dec i (shape0 a)) as [H1 | H1].
  - apply list_insert_id. rewrite <- Hv by lia. unfold aget.
    destruct (Z.leb_spec 0 i); [| lia].
    apply list_lookup_lookup_total_lt. unfold shape0 in H1. lia.
  - apply list_insert_ge. unfold shape0 in H1. lia.
Qed.

Lemma aset2_id {T : Type} `{Inhabited T} (a : list (list T)) (r c : Z) (v : T) :
  (in_range a r c -> aget2 a r c = v) -> aset2 a r c v = a.
Proof.
  intros Hv. unfold aset2. apply aset_id. intros Hr.
  symmetry. apply aset_id. intros Hc. apply Hv. split; assumption.
Qed.

Lemma zero__aset2 (a : list (list Q)) (r c : Z) (v : Q) :
  zero_ (aset2 a r c v) = zero_ a.
Proof.
  unfold zero_, aset2, aset at 1.
  destruct (Z.leb_spec 0 r) as [H0 | H0]; [| reflexivity].
  change (map (map (fun _ : Q => 0%Q))) with (fmap (M := list) (map (fun _ : Q => 0%Q))).
  rewrite list_fmap_insert.
  assert (E : map (fun _ : Q => 0%Q) (aset (aget a r) c v) =
              map (fun _ : Q => 0%Q) (aget a r)).
  { unfold aset. destruct (Z.leb_spec 0 c) as [C0 | C0]; [| reflexivity].
    change (map (fun _ : Q => 0%Q)) with (fmap (M := list) (fun _ : Q => 0%Q)).
    rewrite list_fmap_insert.
    destruct (lt_dec (Z.to_nat c) (length (aget a r))) as [C1 | C1].
    - apply list_insert_id. rewrite list_lookup_fmap.
      destruct (lookup_lt_is_Some_2 _ _ C1) as [x ->]. reflexivity.
    - apply list_insert_ge. rewrite length_fmap. lia. }
  rewrite E.
  destruct (lt_dec (Z.to_nat r) (length a)) as [R1 | R1].
  - apply list_insert_id. rewrite list_lookup_fmap. unfold aget.
    destruct (Z.leb_spec 0 r); [| lia].
    rewrite (list_lookup_lookup_total_lt a (Z.to_nat r) R1). reflexivity.
  - apply list_insert_ge. rewrite length_fmap. lia.
Qed.

Lemma zero__zero_ (a : list (list Q)) : zero_ (zero_ a) = zero_ a.
Proof.
  unfold zero_. rewrite map_map. apply map_ext. intros row. apply map_map.
Qed.

Lemma foldl_rel {A B : Type} (f : A -> B -> A) (R : A -> A -> Prop) (l : list B) :
  (forall a a' x, x ∈ l -> R a a' -> R (f a x) (f a' x)) ->
  forall a a', R a a' -> R (foldl f a l) (foldl f a' l).
Proof.
  induction l as [| x l IH]; intros Hf a a' Ha; [exact Ha |].
  cbn. apply IH.
  - intros b b' y Hy. apply Hf. right. exact Hy.
  - apply Hf; [left | exact Ha].
Qed.

(** Two launches of one kernel keep a relation that every thread keeps. *)
Lemma launch_rel (n1 n2 : Z) (kernel : Z -> Z -> Data -> Data) (R : Data -> Data -> Prop) :
  (forall i j d e, 0 <= i < n1 -> 0 <= j < n2 -> R d e -> R (kernel i j d) (kernel i j e)) ->
  forall d e, R d e -> R (launch n1 n2 kernel d) (launch n1 n2 kernel e).
Proof.
  intros Hk d e Hde. unfold launch.
  apply foldl_rel; [| exact Hde].
  intros a a' i Hi Ha. apply elem_of_seqZ_0 in Hi.
  apply foldl_rel; [| exact Ha].
  intros b b' j Hj Hb. apply elem_of_seqZ_0 in Hj. apply Hk; assumption.
Qed.

Lemma Data_eq (d e : Data) :
  qpos d = qpos e -> qvel d = qvel e -> qfrc_spring d = qfrc_spring e ->
  qfrc_damper d = qfrc_damper e -> qfrc_passive d = qfrc_passive e -> d = e.
Proof. destruct d, e. cbn. intros -> -> -> -> ->. reflexivity. Qed.

(** ** The kernels *)

Section PassiveFacts.

Variables (FREE BALL PASSIVE : Z) (quat_sub : quat -> quat -> vec3).

Local Abbreviation spring := (_spring FREE BALL quat_sub).
Local Abbreviation run := (passive FREE BALL PASSIVE quat_sub).

(** [_spring] assigns [qfrc_spring] only. *)
Lemma spring_fields (m : Model) (worldid jntid : Z) (d : Data) :
  qpos (spring m worldid jntid d) = qpos d /\
  qvel (spring m worldid jntid d) = qvel d /\
  qfrc_damper (spring m worldid jntid d) = qfrc_damper d /\
  qfrc_passive (spring m worldid jntid d) = qfrc_passive d.
Proof.
  unfold _spring. cbv zeta.
  destruct (Qeq_bool _ _); [repeat split |].
  destruct (_ =? FREE); [repeat split |].
  destruct (_ =? BALL); repeat split.
Qed.

Lemma spring_shape (n1 n2 : Z) (m : Model) (worldid jntid : Z) (d : Data) :
  has_shape n1 n2 (qfrc_spring d) ->
  has_shape n1 n2 (qfrc_spring (spring m worldid jntid d)).
Proof.
  intros Hs. unfold _spring. cbv zeta.
  destruct (Qeq_bool _ _); [exact Hs |].
  destruct (_ =? FREE); [cbn; repeat apply has_shape_aset2; exact Hs |].
  destruct (_ =? BALL); cbn; repeat apply has_shape_aset2; exact Hs.
Qed.

(** [_spring] assigns only the columns [spring_dofs] of its own row. *)
Lemma spring_frame (m : Model) (worldid jntid : Z) (d : Data) (r c : Z) :
  r <> worldid \/ c ∉ spring_dofs FREE BALL m worldid jntid ->
  aget2 (qfrc_spring (spring m worldid jntid d)) r c = aget2 (qfrc_spring d) r c.
Proof.
  unfold _spring, spring_dofs. cbv zeta. intros Hrc.
  destruct (Qeq_bool _ _); [reflexivity |].
  assert (Hne : forall k, r <> worldid \/ c <> k ->
            forall a v, aget2 (aset2 a worldid k v) r c = aget2 (T := Q) a r c).
  { intros k Hk a v. apply aget2_aset2_ne. destruct Hk; [left | right]; congruence. }
  destruct (_ =? FREE).
  - cbn. rewrite !Hne; [reflexivity | ..];
      (destruct Hrc as [Hr | Hc]; [left; exact Hr | right; intros ->; apply Hc; solve [repeat constructor]]).
  - destruct (_ =? BALL); cbn;
      (rewrite !Hne; [reflexivity | ..]);
      (destruct Hrc as [Hr | Hc]; [left; exact Hr | right; intros ->; apply Hc; solve [repeat constructor]]).
Qed.

(** A slide or hinge joint with a spring: the one cell it assigns. *)
Lemma spring_hinge (m : Model) (worldid jntid : Z) (d : Data) :
  ~ (aget2 (jnt_stiffness m) worldid jntid == 0)%Q ->
  aget (jnt_type m) jntid <> FREE -> aget (jnt_type m) jntid <> BALL ->
  0 <= worldid < shape0 (qfrc_spring d) ->
  0 <= aget (jnt_dofadr m) jntid < shape0 (aget (qfrc_spring d) worldid) ->
  aget2 (qfrc_spring (spring m worldid jntid d)) worldid (aget (jnt_dofadr m) jntid) =
  (- aget2 (jnt_stiffness m) worldid jntid *
   (aget2 (qpos d) worldid (aget (jnt_qposadr m) jntid) -
    aget2 (qpos_spring m) worldid (aget (jnt_qposadr m) jntid)))%Q.
Proof.
  intros Hk Hf Hb Hw Hc. unfold _spring. cbv zeta.
  destruct (Qeq_bool _ _) eqn:E; [apply Qeq_bool_eq in E; contradiction |].
  destruct (Z.eqb_spec (aget (jnt_type m) jntid) FREE); [contradiction |].
  destruct (Z.eqb_spec (aget (jnt_type m) jntid) BALL); [contradiction |].
  cbn. apply aget2_aset2_eq; assumption.
Qed.

Lemma damper_fields (m : Model) (worldid dofid : Z) (d : Data) :
  qpos (_damper_passive m worldid dofid d) = qpos d /\
  qvel (_damper_passive m worldid dofid d) = qvel d /\
  qfrc_spring (_damper_passive m worldid dofid d) = qfrc_spring d.
Proof. repeat split. Qed.

(** The state between the two launches of [passive]. *)
Lemma spring_launch_fields (m : Model) (d : Data) :
  let d1 := launch (nworld m) (njnt m) (spring m)
              (set_qfrc_spring (zero_ (qfrc_spring d)) d) in
  qpos d1 = qpos d /\ qvel d1 = qvel d /\
  qfrc_damper d1 = qfrc_damper d /\ qfrc_passive d1 = qfrc_passive d.
Proof.
  cbv zeta.
  apply (launch_invariant _ _ _
           (fun d1 => qpos d1 = qpos d /\ qvel d1 = qvel d /\
                      qfrc_damper d1 = qfrc_damper d /\ qfrc_passive d1 = qfrc_passive d)).
  - intros i j d1 _ _ (H1 & H2 & H3 & H4).
    destruct (spring_fields m i j d1) as (E1 & E2 & E3 & E4).
    rewrite E1, E2, E3, E4. auto.
  - repeat split.
Qed.

(** What the launch of [_damper_passive] leaves in one cell. *)
Lemma damper_launch_cell (m : Model) (d1 : Data) (worldid dofid : Z) :
  has_shape (nworld m) (nv m) (qfrc_damper d1) ->
  has_shape (nworld m) (nv m) (qfrc_passive d1) ->
  0 <= worldid < nworld m -> 0 <= dofid < nv m ->
  let d' := launch (nworld m) (nv m) (_damper_passive m) d1 in
  qpos d' = qpos d1 /\ qvel d' = qvel d1 /\ qfrc_spring d' = qfrc_spring d1 /\
  aget2 (qfrc_damper d') worldid dofid =
    (- aget2 (dof_damping m) worldid dofid * aget2 (qvel d1) worldid dofid)%Q /\
  aget2 (qfrc_passive d') worldid dofid =
    (aget2 (qfrc_damper d') worldid dofid + aget2 (qfrc_spring d') worldid dofid)%Q.
Proof.
  intros Hsd Hsp Hw Hi. cbv zeta.
  set (I := fun d => qpos d = qpos d1 /\ qvel d = qvel d1 /\
                     qfrc_spring d = qfrc_spring d1 /\
                     has_shape (nworld m) (nv m) (qfrc_damper d) /\
                     has_shape (nworld m) (nv m) (qfrc_passive d)).
  set (P := fun d =>
    aget2 (qfrc_damper d) worldid dofid =
      (- aget2 (dof_damping m) worldid dofid * aget2 (qvel d1) worldid dofid)%Q /\
    aget2 (qfrc_passive d) worldid dofid =
      (- aget2 (dof_damping m) worldid dofid * aget2 (qvel d1) worldid dofid
       + aget2 (qfrc_spring d1) worldid dofid)%Q).
  assert (HI : forall i j d, 0 <= i < nworld m -> 0 <= j < nv m -> I d ->
                 I (_damper_passive m i j d)).
  { intros i j d _ _ (H1 & H2 & H3 & H4 & H5). unfold I, _damper_passive. cbn.
    refine (conj _ (conj _ (conj _ (conj _ _)))); try assumption;
      apply has_shape_aset2; assumption. }
  assert (HI1 : I d1) by (unfold I; auto).
  assert (HIfin : I (launch (nworld m) (nv m) (_damper_passive m) d1))
    by (apply launch_invariant; assumption).
  assert (HP : P (launch (nworld m) (nv m) (_damper_passive m) d1)).
  { apply (launch_establish _ _ _ I P worldid dofid); try assumption.
    - intros d (H1 & H2 & H3 & [H4 H4'] & [H5 H5']). unfold P, _damper_passive. cbn.
      rewrite H2, H3.
      split; apply aget2_aset2_eq; try lia.
      + specialize (H4' worldid Hw). lia.
      + specialize (H5' worldid Hw). lia.
    - intros i j d _ _ Hne _ [HP1 HP2]. unfold P, _damper_passive. cbn.
      rewrite !aget2_aset2_ne by exact Hne. split; assumption. }
  destruct HIfin as (F1 & F2 & F3 & _ & _). destruct HP as [HP1 HP2].
  repeat split; try assumption.
  rewrite HP2, HP1, F3. reflexivity.
Qed.

(** ** [passive] *)

Lemma passive_enabled (m : Model) (d : Data) :
  Z.land (opt_disableflags m) PASSIVE = 0 ->
  run m d =
  launch (nworld m) (nv m) (_damper_passive m)
    (launch (nworld m) (njnt m) (spring m) (set_qfrc_spring (zero_ (qfrc_spring d)) d)).
Proof. intros H. unfold passive. rewrite H. reflexivity. Qed.

Lemma damper_launch_fields (m : Model) (d1 : Data) :
  let d' := launch (nworld m) (nv m) (_damper_passive m) d1 in
  qpos d' = qpos d1 /\ qvel d' = qvel d1 /\ qfrc_spring d' = qfrc_spring d1.
Proof.
  cbv zeta.
  apply (launch_invariant _ _ _
           (fun d' => qpos d' = qpos d1 /\ qvel d' = qvel d1 /\
                      qfrc_spring d' = qfrc_spring d1)).
  - intros i j d _ _ H. exact H.
  - repeat split.
Qed.

(** With no joint stiffness the launch of [_spring] changes nothing. *)
Lemma spring_launch_no_springs (m : Model) (d : Data) :
  no_springs m -> launch (nworld m) (njnt m) (spring m) d = d.
Proof.
  intros Hn.
  apply (launch_invariant _ _ _ (fun d' => d' = d)); [| reflexivity].
  intros i j d' Hi Hj ->. unfold _spring. cbv zeta.
  destruct (Qeq_bool _ _) eqn:E; [reflexivity |].
  apply Qeq_bool_neq in E. destruct E. apply Hn; assumption.
Qed.

(** X17.  With the PASSIVE disable bit set, [passive] only clears
    [qfrc_passive]: every cell of it reads zero, its shape is kept, and
    [qpos], [qvel], [qfrc_spring] and [qfrc_damper] are left as they were. *)
Theorem passive_disabled (m : Model) (d : Data) :
  Z.land (opt_disableflags m) PASSIVE <> 0 ->
  qpos (run m d) = qpos d /\ qvel (run m d) = qvel d /\
  qfrc_spring (run m d) = qfrc_spring d /\ qfrc_damper (run m d) = qfrc_damper d /\
  map length (qfrc_passive (run m d)) = map length (qfrc_passive d) /\
  forall worldid dofid, aget2 (qfrc_passive (run m d)) worldid dofid = 0%Q.
Proof.
  intros H. unfold passive.
  destruct (Z.eqb_spec (Z.land (opt_disableflags m) PASSIVE) 0) as [E | _];
    [contradiction |].
  cbn. repeat split.
  - unfold zero_. rewrite map_map. apply map_ext. intros row. apply length_map.
  - intros worldid dofid. apply aget2_zero_.
Qed.

(** X18.  [passive] never writes the positions or the velocities. *)
Theorem passive_state_unchanged (m : Model) (d : Data) :
  qpos (run m d) = qpos d /\ qvel (run m d) = qvel d.
Proof.
  destruct (Z.eq_dec (Z.land (opt_disableflags m) PASSIVE) 0) as [E | E].
  - rewrite passive_enabled by exact E.
    destruct (damper_launch_fields m
                (launch (nworld m) (njnt m) (spring m)
                   (set_qfrc_spring (zero_ (qfrc_spring d)) d))) as (H1 & H2 & _).
    destruct (spring_launch_fields m d) as (G1 & G2 & _).
    cbv zeta in H1, H2, G1, G2. rewrite H1, H2, G1, G2. split; reflexivity.
  - unfold passive.
    destruct (Z.eqb_spec (Z.land (opt_disableflags m) PASSIVE) 0); [contradiction |].
    split; reflexivity.
Qed.

(** X19.  With passive forces enabled, every degree of freedom of every world
    gets the damping force [- dof_damping * qvel], and [qfrc_passive] is the
    sum of the damping force and the spring force written in the same
    call. *)
Theorem passive_damper (m : Model) (d : Data) (worldid dofid : Z) :
  Z.land (opt_disableflags m) PASSIVE = 0 ->
  has_shape (nworld m) (nv m) (qfrc_damper d) ->
  has_shape (nworld m) (nv m) (qfrc_passive d) ->
  0 <= worldid < nworld m -> 0 <= dofid < nv m ->
  aget2 (qfrc_damper (run m d)) worldid dofid =
    (- aget2 (dof_damping m) worldid dofid * aget2 (qvel d) worldid dofid)%Q /\
  aget2 (qfrc_passive (run m d)) worldid dofid =
    (aget2 (qfrc_damper (run m d)) worldid dofid +
     aget2 (qfrc_spring (run m d)) worldid dofid)%Q.
Proof.
  intros E Hsd Hsp Hw Hi. rewrite passive_enabled by exact E.
  destruct (spring_launch_fields m d) as (_ & G2 & G3 & G4). cbv zeta in G2, G3, G4.
  set (d1 := launch (nworld m) (njnt m) (spring m)
               (set_qfrc_spring (zero_ (qfrc_spring d)) d)) in *.
  rewrite <- G3 in Hsd. rewrite <- G4 in Hsp.
  destruct (damper_launch_cell m d1 worldid dofid Hsd Hsp Hw Hi) as (_ & _ & _ & H4 & H5).
  cbv zeta in H4, H5. rewrite G2 in H4. split; assumption.
Qed.

(** X20.  With passive forces enabled, [qfrc_spring] is rebuilt from zero
    by the call: a cell that no joint's spring assigns reads zero
    afterwards, whatever it held before. *)
Theorem passive_spring_cleared (m : Model) (d : Data) (worldid dofid : Z) :
  Z.land (opt_disableflags m) PASSIVE = 0 ->
  (forall jntid, 0 <= jntid < njnt m ->
     dofid ∉ spring_dofs FREE BALL m worldid jntid) ->
  aget2 (qfrc_spring (run m d)) worldid dofid = 0%Q.
Proof.
  intros E Hfree. rewrite passive_enabled by exact E.
  destruct (damper_launch_fields m
              (launch (nworld m) (njnt m) (spring m)
                 (set_qfrc_spring (zero_ (qfrc_spring d)) d))) as (_ & _ & H3).
  cbv zeta in H3. rewrite H3.
  apply (launch_invariant _ _ _
           (fun d' => aget2 (qfrc_spring d') worldid dofid = 0%Q)).
  - intros i j d' _ Hj Hd'. rewrite spring_frame; [exact Hd' |].
    destruct (Z.eq_dec worldid i) as [-> | Hne]; [right; apply Hfree; exact Hj | left; exact Hne].
  - cbn. apply aget2_zero_.
Qed.

(** X21.  With passive forces enabled, a slide or hinge joint of a world
    [worldid < nworld] with non-zero stiffness, whose degree of freedom is a
    cell of [qfrc_spring] that no other joint's spring assigns, gets the
    linear spring force [- stiffness * (qpos - qpos_spring)]. *)
Theorem passive_spring_hinge (m : Model) (d : Data) (worldid jntid : Z) :
  Z.land (opt_disableflags m) PASSIVE = 0 ->
  0 <= worldid < nworld m -> 0 <= jntid < njnt m ->
  ~ (aget2 (jnt_stiffness m) worldid jntid == 0)%Q ->
  aget (jnt_type m) jntid <> FREE -> aget (jnt_type m) jntid <> BALL ->
  0 <= aget (jnt_dofadr m) jntid ->
  has_shape (nworld m) (aget (jnt_dofadr m) jntid + 1) (qfrc_spring d) ->
  (forall jntid', 0 <= jntid' < njnt m -> jntid' <> jntid ->
     aget (jnt_dofadr m) jntid ∉ spring_dofs FREE BALL m worldid jntid') ->
  aget2 (qfrc_spring (run m d)) worldid (aget (jnt_dofadr m) jntid) =
  (- aget2 (jnt_stiffness m) worldid jntid *
   (aget2 (qpos d) worldid (aget (jnt_qposadr m) jntid) -
    aget2 (qpos_spring m) worldid (aget (jnt_qposadr m) jntid)))%Q.
Proof.
  intros E Hw Hj Hk Hf Hb Ha Hs Hone. rewrite passive_enabled by exact E.
  destruct (damper_launch_fields m
              (launch (nworld m) (njnt m) (spring m)
                 (set_qfrc_spring (zero_ (qfrc_spring d)) d))) as (_ & _ & H3).
  cbv zeta in H3. rewrite H3.
  set (a := aget (jnt_dofadr m) jntid) in *.
  set (I := fun d' => qpos d' = qpos d /\
                      has_shape (nworld m) (a + 1) (qfrc_spring d')).
  apply (launch_establish _ _ _ I
           (fun d' => aget2 (qfrc_spring d') worldid a =
              (- aget2 (jnt_stiffness m) worldid jntid *
               (aget2 (qpos d) worldid (aget (jnt_qposadr m) jntid) -
                aget2 (qpos_spring m) worldid (aget (jnt_qposadr m) jntid)))%Q)
           worldid jntid); try assumption.
  - intros i j d' _ _ [I1 I2]. split.
    + destruct (spring_fields m i j d') as (F1 & _). rewrite F1. exact I1.
    + apply spring_shape. exact I2.
  - intros d' [I1 [I2 I3]]. rewrite <- I1. apply spring_hinge; try assumption.
    + lia.
    + specialize (I3 worldid Hw). fold a. lia.
  - intros i j d' _ Hj' Hne _ Hd'. rewrite spring_frame; [exact Hd' |].
    destruct (Z.eq_dec worldid i) as [<- | Hwi]; [| left; exact Hwi].
    right. apply Hone; [exact Hj' |]. destruct Hne as [Hne | Hne]; congruence.
  - split; [reflexivity |]. cbn. apply has_shape_zero_. exact Hs.
Qed.

(** X22.  With passive forces enabled and force arrays of shape
    [(nworld, nv)], in a model without joint stiffness the spring force is
    zero everywhere and the passive force of every degree of freedom is its
    damping force. *)
Theorem passive_no_springs (m : Model) (d : Data) (worldid dofid : Z) :
  Z.land (opt_disableflags m) PASSIVE = 0 ->
  no_springs m ->
  has_shape (nworld m) (nv m) (qfrc_damper d) ->
  has_shape (nworld m) (nv m) (qfrc_passive d) ->
  0 <= worldid < nworld m -> 0 <= dofid < nv m ->
  qfrc_spring (run m d) = zero_ (qfrc_spring d) /\
  (aget2 (qfrc_passive (run m d)) worldid dofid ==
   - aget2 (dof_damping m) worldid dofid * aget2 (qvel d) worldid dofid)%Q.
Proof.
  intros E Hn Hsd Hsp Hw Hi. rewrite passive_enabled by exact E.
  rewrite spring_launch_no_springs by exact Hn.
  set (d1 := set_qfrc_spring (zero_ (qfrc_spring d)) d).
  destruct (damper_launch_cell m d1 worldid dofid Hsd Hsp Hw Hi)
    as (_ & _ & H3 & H4 & H5).
  cbv zeta in H3, H4, H5. split; [exact H3 |].
  rewrite H5, H4, H3. cbn. rewrite aget2_zero_. ring.
Qed.

(** *** Calling [passive] twice *)

Lemma spring_cong (m : Model) (worldid jntid : Z) (d e : Data) :
  qpos d = qpos e -> qfrc_spring d = qfrc_spring e ->
  qfrc_spring (spring m worldid jntid d) = qfrc_spring (spring m worldid jntid e).
Proof.
  intros H1 H2. unfold _spring. cbv zeta.
  destruct (Qeq_bool _ _); [exact H2 |].
  destruct (_ =? FREE); [cbn; rewrite H1, H2; reflexivity |].
  destruct (_ =? BALL); cbn; rewrite H1, H2; reflexivity.
Qed.

Lemma spring_zero_ (m : Model) (worldid jntid : Z) (d : Data) :
  zero_ (qfrc_spring (spring m worldid jntid d)) = zero_ (qfrc_spring d).
Proof.
  unfold _spring. cbv zeta.
  destruct (Qeq_bool _ _); [reflexivity |].
  destruct (_ =? FREE); [cbn; rewrite !zero__aset2; reflexivity |].
  destruct (_ =? BALL); cbn; rewrite !zero__aset2; reflexivity.
Qed.

Lemma damper_settled_id (m : Model) (d : Data) (worldid dofid : Z) :
  settled m d -> 0 <= worldid < nworld m -> 0 <= dofid < nv m ->
  _damper_passive m worldid dofid d = d.
Proof.
  intros Hs Hw Hi. destruct (Hs worldid dofid Hw Hi) as [H1 H2].
  unfold _damper_passive. cbv zeta. apply Data_eq; cbn; try reflexivity.
  - apply aset2_id. exact H1.
  - apply aset2_id. exact H2.
Qed.

Lemma damper_launch_settled (m : Model) (d1 : Data) :
  settled m (launch (nworld m) (nv m) (_damper_passive m) d1).
Proof.
  intros worldid dofid Hw Hi.
  destruct (damper_launch_fields m d1) as (_ & F2 & F3). cbv zeta in F2, F3.
  rewrite F2, F3.
  set (I := fun d => qvel d = qvel d1 /\ qfrc_spring d = qfrc_spring d1).
  apply (launch_establish _ _ _ I
    (fun d =>
      (in_range (qfrc_damper d) worldid dofid ->
       aget2 (qfrc_damper d) worldid dofid =
       (- aget2 (dof_damping m) worldid dofid * aget2 (qvel d1) worldid dofid)%Q) /\
      (in_range (qfrc_passive d) worldid dofid ->
       aget2 (qfrc_passive d) worldid dofid =
       (- aget2 (dof_damping m) worldid dofid * aget2 (qvel d1) worldid dofid +
        aget2 (qfrc_spring d1) worldid dofid)%Q))
    worldid dofid); try assumption.
  - intros i j d _ _ H. exact H.
  - intros d [I1 I2]. unfold _damper_passive. cbn. rewrite I1, I2. split.
    + intros R. destruct (proj1 (in_range_aset2 _ _ _ _ _ _) R) as [R1 R2]. apply aget2_aset2_eq; assumption.
    + intros R. destruct (proj1 (in_range_aset2 _ _ _ _ _ _) R) as [R1 R2]. apply aget2_aset2_eq; assumption.
  - intros i j d _ _ Hne _ [P1 P2]. unfold _damper_passive. cbn. split.
    + intros R. rewrite aget2_aset2_ne by exact Hne. apply P1.
      exact (proj1 (in_range_aset2 _ _ _ _ _ _) R).
    + intros R. rewrite aget2_aset2_ne by exact Hne. apply P2.
      exact (proj1 (in_range_aset2 _ _ _ _ _ _) R).
  - split; reflexivity.
Qed.

Lemma damper_launch_settled_id (m : Model) (d : Data) :
  settled m d -> launch (nworld m) (nv m) (_damper_passive m) d = d.
Proof.
  intros Hs. apply (launch_invariant _ _ _ (fun d' => d' = d)); [| reflexivity].
  intros i j d' Hi Hj ->. apply damper_settled_id; assumption.
Qed.

Lemma spring_launch_zero_ (m : Model) (d : Data) :
  zero_ (qfrc_spring (launch (nworld m) (njnt m) (spring m) d)) = zero_ (qfrc_spring d).
Proof.
  apply (launch_invariant _ _ _
           (fun d' => zero_ (qfrc_spring d') = zero_ (qfrc_spring d))); [| reflexivity].
  intros i j d' _ _ H. rewrite spring_zero_. exact H.
Qed.

(** X23.  [passive] is idempotent: a second call on the result of a first one
    changes nothing, so forces never accumulate over repeated calls. *)
Theorem passive_idempotent (m : Model) (d : Data) :
  run m (run m d) = run m d.
Proof.
  destruct (Z.eq_dec (Z.land (opt_disableflags m) PASSIVE) 0) as [E | E].
  - rewrite !passive_enabled by exact E.
    set (d1 := launch (nworld m) (njnt m) (spring m)
                 (set_qfrc_spring (zero_ (qfrc_spring d)) d)).
    set (d' := launch (nworld m) (nv m) (_damper_passive m) d1).
    destruct (damper_launch_fields m d1) as (F1 & F2 & F3). cbv zeta in F1, F2, F3.
    fold d' in F1, F2, F3.
    destruct (spring_launch_fields m d) as (G1 & _). cbv zeta in G1. fold d1 in G1.
    assert (Hz : zero_ (qfrc_spring d') = zero_ (qfrc_spring d)).
    { rewrite F3. unfold d1. rewrite spring_launch_zero_. cbn. apply zero__zero_. }
    assert (Hs : launch (nworld m) (njnt m) (spring m)
                   (set_qfrc_spring (zero_ (qfrc_spring d')) d') = d').
    { destruct (spring_launch_fields m d') as (S1 & S2 & S3 & S4).
      cbv zeta in S1, S2, S3, S4.
      apply Data_eq; try assumption.
      rewrite F3. unfold d1.
      apply (launch_rel _ _ _
               (fun a b => qpos a = qpos b /\ qfrc_spring a = qfrc_spring b)).
      - intros i j a b _ _ [R1 R2]. split.
        + destruct (spring_fields m i j a) as (A1 & _).
          destruct (spring_fields m i j b) as (B1 & _). rewrite A1, B1. exact R1.
        + apply spring_cong; assumption.
      - cbn. split; [rewrite F1, G1; reflexivity | fold d1; rewrite <- F3; exact Hz]. }
    rewrite Hs. apply damper_launch_settled_id. apply damper_launch_settled.
  - unfold passive.
    destruct (Z.eqb_spec (Z.land (opt_disableflags m) PASSIVE) 0); [contradiction |].
    cbn. rewrite zero__zero_. reflexivity.
Qed.

End PassiveFacts.


(** * The further properties on the small models *)

(** The mix weight for solmix values -1 and 3 at equal priorities. *)
Lemma priority_mix_weight_range_witness :
  (0 <= fst (fst (priority_mix ex_MJ_MINVAL ex_safe_div (-(1)) 3 3 3 0 0
                    (Vec3 1 0 0) (Vec3 1 0 0))) <= 1)%Q.
Proof.
  exact (priority_mix_weight_range ex_MJ_MINVAL ex_safe_div ex_safe_div_nonzero
           ltac:(reflexivity) (-(1)) 3 3 3 0 0 (Vec3 1 0 0) (Vec3 1 0 0)).
Defined.

(** 1.2.0 is newer than 1.2. *)
Lemma parse_version_longer_greater_witness :
  version_compare [Num 1; Num 2; Num 0] [Num 1; Num 2] = Gt.
Proof.
  exact (proj1 (parse_version_longer_greater (str "1.2") (str "0") "."%char
                  [Num 1; Num 2] [Num 1; Num 2; Num 0]
                  ltac:(reflexivity) ltac:(vm_compute; reflexivity)
                  ltac:(vm_compute; reflexivity))).
Defined.


(** The specification pkg>=3.5.0. *)
Lemma match_spec_round_trip_witness :
  match_spec (str "pkg" ++ op_literal GE ++ str "3.5.0") =
  Some (str "pkg", GE, str "3.5.0").
Proof.
  refine (proj1 (match_spec_round_trip (str "pkg") (str "3.5.0") GE
                   ltac:(vm_compute; discriminate) ltac:(vm_compute; reflexivity)
                   ltac:(vm_compute; discriminate) ltac:(vm_compute; reflexivity) _)).
  intros [E | E]; discriminate E.
Defined.

(** The six operators against the installed 3.5.0.dev1. *)
Lemma check_version_operators_witness :
  exists lt eq0 gt : bool,
    check_version ex_metadata_version (str "pkg" ++ op_literal GE ++ str "3.5.0") =
      Ok (gt || eq0) /\
    check_version ex_metadata_version (str "pkg" ++ op_literal LE ++ str "3.5.0") =
      Ok (lt || eq0) /\
    check_version ex_metadata_version (str "pkg" ++ op_literal NE ++ str "3.5.0") =
      Ok (negb eq0).
Proof.
  destruct (check_version_operators ex_metadata_version (str "pkg") (str "3.5.0")
              (str "3.5.0.dev1") [Num 3; Num 5; Num 0]
              [Num 3; Num 5; Num 0; Str (str "dev1")]
              ltac:(vm_compute; discriminate) ltac:(vm_compute; reflexivity)
              ltac:(vm_compute; discriminate) ltac:(vm_compute; reflexivity)
              ltac:(intros v' H; vm_compute in H; discriminate H)
              ltac:(vm_compute; reflexivity) ltac:(vm_compute; reflexivity)
              ltac:(vm_compute; reflexivity))
    as (lt & eq0 & gt & _ & _ & _ & H4 & H5 & H6 & _).
  exists lt, eq0, gt. repeat split; assumption.
Defined.

(** A package that is not installed. *)
Lemma check_version_not_installed_witness :
  check_version ex_metadata_version (str "other" ++ op_literal EQ ++ str "1.0") =
  Raise PackageNotFoundError.
Proof.
  refine (proj1 (check_version_not_installed ex_metadata_version (str "other")
                   (str "1.0") EQ
                   ltac:(vm_compute; discriminate) ltac:(vm_compute; reflexivity)
                   ltac:(vm_compute; discriminate) ltac:(vm_compute; reflexivity) _)
            [Num 1; Num 0] ltac:(vm_compute; reflexivity) ltac:(vm_compute; reflexivity)).
  intros [E | E]; discriminate E.
Defined.

(** pkg>= with nothing after it. *)
Lemma check_version_operator_alone_witness :
  check_version ex_metadata_version (str "pkg" ++ str ">=") = Ok false /\
  check_version ex_metadata_version (str "pkg" ++ str "<=") = Ok true.
Proof.
  destruct (check_version_operator_alone ex_metadata_version (str "pkg")
              (str "3.5.0.dev1") 3 [Num 5; Num 0; Str (str "dev1")]
              ltac:(vm_compute; discriminate) ltac:(vm_compute; reflexivity)
              ltac:(vm_compute; reflexivity) ltac:(vm_compute; reflexivity))
    as (_ & _ & H3 & H4 & _).
  split; assumption.
Defined.

(** ** [passive] on the small model *)

Lemma ex_passive_has_shape (n : Z) (a b : Q) : n <= 2 -> has_shape 1 n [[a; b]].
Proof.
  intros Hn. split; [vm_compute; discriminate |].
  intros r Hr. assert (r = 0) as -> by lia. exact Hn.
Qed.

(** With the PASSIVE bit set the stale 9s of [qfrc_passive] are cleared
    and the stale 5s of [qfrc_spring] stay. *)
Lemma passive_disabled_witness :
  qfrc_spring (ex_passive (ex_passive_model 32 2) ex_passive_data) = [[5; 5]]%Q /\
  aget2 (qfrc_passive (ex_passive (ex_passive_model 32 2) ex_passive_data)) 0 1 = 0%Q.
Proof.
  destruct (passive_disabled ex_JointType_FREE ex_JointType_BALL ex_DisableBit_PASSIVE
              ex_quat_sub (ex_passive_model 32 2) ex_passive_data
              ltac:(vm_compute; discriminate))
    as (_ & _ & H3 & _ & _ & H6).
  split; [exact H3 | exact (H6 0 1)].
Defined.

(** Degree of freedom 1 has damping 3 and velocity -1. *)
Lemma passive_damper_witness :
  aget2 (qfrc_damper (ex_passive (ex_passive_model 0 2) ex_passive_data)) 0 1 =
  (- 3 * - (1))%Q.
Proof.
  exact (proj1 (passive_damper ex_JointType_FREE ex_JointType_BALL ex_DisableBit_PASSIVE
                  ex_quat_sub (ex_passive_model 0 2) ex_passive_data 0 1
                  ltac:(reflexivity)
                  (ex_passive_has_shape 2 0 0 ltac:(lia))
                  (ex_passive_has_shape 2 9 9 ltac:(lia))
                  ltac:(cbn; lia) ltac:(cbn; lia))).
Defined.

Lemma ex_spring_dofs (jntid : Z) :
  0 <= jntid < 2 -> jntid <> 0 ->
  0 ∉ spring_dofs ex_JointType_FREE ex_JointType_BALL (ex_passive_model 0 2) 0 jntid.
Proof.
  intros Hj Hne. assert (jntid = 1) as -> by lia. vm_compute. intros H. inversion H.
Qed.

Lemma ex_spring_dofs_1 (jntid : Z) :
  0 <= jntid < 2 ->
  1 ∉ spring_dofs ex_JointType_FREE ex_JointType_BALL (ex_passive_model 0 2) 0 jntid.
Proof.
  intros Hj. assert (jntid = 0 \/ jntid = 1) as [-> | ->] by lia.
  - vm_compute. intros H. inversion H as [| ? ? ? H']; inversion H'.
  - vm_compute. intros H. inversion H.
Qed.

(** Degree of freedom 1 has no spring: the stale 5 is cleared. *)
Lemma passive_spring_cleared_witness :
  aget2 (qfrc_spring (ex_passive (ex_passive_model 0 2) ex_passive_data)) 0 1 = 0%Q.
Proof.
  exact (passive_spring_cleared ex_JointType_FREE ex_JointType_BALL ex_DisableBit_PASSIVE
           ex_quat_sub (ex_passive_model 0 2) ex_passive_data 0 1
           ltac:(reflexivity) ex_spring_dofs_1).
Defined.

(** Joint 0 has stiffness 2, position 1 and rest position 1/2. *)
Lemma passive_spring_hinge_witness :
  aget2 (qfrc_spring (ex_passive (ex_passive_model 0 2) ex_passive_data)) 0 0 =
  (- 2 * (1 - (1 # 2)))%Q.
Proof.
  exact (passive_spring_hinge ex_JointType_FREE ex_JointType_BALL ex_DisableBit_PASSIVE
           ex_quat_sub (ex_passive_model 0 2) ex_passive_data 0 0
           ltac:(reflexivity) ltac:(cbn; lia) ltac:(cbn; lia)
           ltac:(vm_compute; discriminate) ltac:(vm_compute; discriminate)
           ltac:(vm_compute; discriminate) ltac:(vm_compute; discriminate)
           (ex_passive_has_shape 1 5 5 ltac:(lia))
           ex_spring_dofs).
Defined.

Lemma ex_no_springs : no_springs (ex_passive_model 0 0).
Proof.
  intros w j Hw Hj. cbn in Hw, Hj.
  assert (w = 0) as -> by lia. assert (j = 0 \/ j = 1) as [-> | ->] by lia; reflexivity.
Qed.

(** Without stiffness the passive force of degree of freedom 0 is its
    damping force. *)
Lemma passive_no_springs_witness :
  (aget2 (qfrc_passive (ex_passive (ex_passive_model 0 0) ex_passive_data)) 0 0 ==
   - 1 * 1)%Q.
Proof.
  exact (proj2 (passive_no_springs ex_JointType_FREE ex_JointType_BALL
                  ex_DisableBit_PASSIVE ex_quat_sub (ex_passive_model 0 0)
                  ex_passive_data 0 0
                  ltac:(reflexivity) ex_no_springs
                  (ex_passive_has_shape 2 0 0 ltac:(lia))
                  (ex_passive_has_shape 2 9 9 ltac:(lia))
                  ltac:(cbn; lia) ltac:(cbn; lia))).
Defined.

(** ** The order of the geoms on the small model *)

(** Candidate 1 with its geoms named as (2, 1) instead of (1, 2). *)
Lemma contact_params_symmetric_witness :
  ret_condim
    (contact_params ex_MJ_MINMU ex_MJ_MINVAL ex_safe_div ex_geom_condim
       ex_geom_priority ex_geom_solmix ex_geom_solref ex_geom_solimp ex_geom_friction
       ex_geom_margin ex_geom_gap ex_pair_dim ex_pair_solref ex_pair_solreffriction
       ex_pair_solimp ex_pair_margin ex_pair_gap ex_pair_friction
       ex_collision_pair_swapped ex_collision_pairid 1 0) =
  ret_condim (ex_contact_params 1 0).
Proof.
  pose proof (contact_params_symmetric ex_MJ_MINMU ex_MJ_MINVAL ex_safe_div
    ex_geom_condim ex_geom_priority ex_geom_solmix ex_geom_solref ex_geom_solimp
    ex_geom_friction ex_geom_margin ex_geom_gap ex_pair_dim ex_pair_solref
    ex_pair_solreffriction ex_pair_solimp ex_pair_margin ex_pair_gap
    ex_pair_friction ex_collision_pairid ex_collision_pair ex_collision_pair_swapped 1 0
    ltac:(vm_compute; discriminate) ltac:(reflexivity)) as ((_ & _ & H & _) & _).
  exact H.
Defined.
